(** * gomplate, package [internal/config]: the configuration document

    A shallow embedding of [internal/config/configfile.go] and a verification
    of the properties stated for it: merging two configurations, validating
    one, filling in defaults, the output file mode, resolving datasource
    locations to URLs and attaching header flags to datasources.

    Conventions of the embedding.
    - A Go [string] is a sequence of bytes: [string] here.
    - A Go slice [[]string] is a [list string]; the nil slice and the empty
      slice are both [[]], the package only takes [len] of a slice, ranges
      over it and reads its elements.
    - A Go map is a reference that may be nil: [option (gmap string V)],
      [None] being the nil map.  Reading a nil map finds nothing, storing
      into it panics.  A map is held by value: where the package stores
      into a map it reaches through another map, the store is written back;
      where it leaves one header map in two descriptors, the two hold equal
      values.  A later store through one of them is seen through the other:
      the statement about it is on the header maps held by address in a
      store, where a merge without a shared map is shown to be the merge
      on values.
    - [bytes.Buffer]s live in a heap of buffers and are held by address.
    - A call that can panic returns [exec A]; a Go [error] result is a value
      of type [error]. *)

From Stdlib Require Import ZArith Ascii String.
From stdpp Require Import base option list strings gmap fin_maps.

Local Open Scope Z_scope.
#[local] Set Warnings "-clear-no-such-hyp".
#[local] Set Warnings "-notation-incompatible-prefix".

(** ** Panics and errors *)

(** The outcome of running Go code that may panic. *)
Inductive exec (A : Type) : Type :=
  | Returns (a : A)
  | Panics.
Arguments Returns {A} a.
Arguments Panics {A}.

Global Instance exec_ret : MRet exec := @Returns.
Global Instance exec_bind : MBind exec := λ A B k m,
  match m with
  | Returns a => k a
  | Panics => Panics
  end.

(** ** Go maps *)

(** [range m] lists the entries a [for k, v := range m] loop visits.  Go
    fixes no order; the order taken here is that of [map_to_list], and the
    last part of the development shows that the loops of the package come
    out the same in every order. *)
Definition range {V} (m : option (gmap string V)) : list (string * V) :=
  match m with
  | None => []
  | Some g => map_to_list g
  end.

(** [m[k]] with the comma-ok form: [None] when the key is absent or the map
    is nil. *)
Definition index {V} (m : option (gmap string V)) (k : string) : option V :=
  match m with
  | None => None
  | Some g => g !! k
  end.

(** [m[k] = v]: panics on the nil map. *)
Definition store {V} (m : option (gmap string V)) (k : string) (v : V)
  : exec (option (gmap string V)) :=
  match m with
  | None => Panics
  | Some g => Returns (Some (<[k := v]> g))
  end.

(** [delete(m, k)]: a no-op on the nil map. *)
Definition remove {V} (m : option (gmap string V)) (k : string)
  : option (gmap string V) :=
  match m with
  | None => None
  | Some g => Some (delete k g)
  end.

(** [len(m)]. *)
Definition len {V} (m : option (gmap string V)) : nat :=
  match m with
  | None => 0%nat
  | Some g => size g
  end.

(** ** URLs and headers *)

(** [url.Userinfo]. *)
Record Userinfo := mkUserinfo {
  username : string;
  password : string;
  passwordSet : bool }.

(** [url.URL]. *)
Record URL := mkURL {
  Scheme : string;
  Opaque : string;
  User : option Userinfo;
  Host : string;
  Path : string;
  RawPath : string;
  ForceQuery : bool;
  RawQuery : string;
  Fragment : string }.

(** ** The platform and the library

    The package runs on a platform (a working directory and the syntax of
    its file paths) and calls library functions.  The library functions on
    whose result the statements below depend are embedded from the Go
    sources: parts of [strings], [strconv], [path] and [net/url].  The
    platform and the other library functions are taken as given, whatever
    they compute. *)
Class Env := {
  (** [os.Getwd]: the working directory, [None] when the call fails. *)
  Getwd : option string;
  (** [filepath.ToSlash]: the path with the platform's separator replaced by
      a slash. *)
  ToSlash : string → string;
  (** [filepath.VolumeName]: the leading volume name, empty on platforms
      without volumes. *)
  VolumeName : string → string;
  (** [parseAuthority] of [net/url]: the user and the host of the text
      between [//] and the path, [None] when it is malformed. *)
  parseAuthority : string → option (option Userinfo * string);
  (** [http.CanonicalHeaderKey]. *)
  CanonicalHeaderKey : string → string;
  (** [strings.TrimSpace]. *)
  TrimSpace : string → string }.

(** A value or an error. *)
Inductive result (E A : Type) : Type :=
  | Ok (a : A)
  | Err (e : E).
Arguments Ok {E A} a.
Arguments Err {E A} e.

(** ** Bytes and strings *)

Definition byte (c : ascii) : N := N_of_ascii c.

(** [lo <= c && c <= hi]. *)
Definition between (lo hi c : ascii) : bool :=
  (byte lo <=? byte c)%N && (byte c <=? byte hi)%N.

Definition isLetter (c : ascii) : bool :=
  between "a" "z" c || between "A" "Z" c.

Definition isDigit (c : ascii) : bool := between "0" "9" c.

(** [s[i]], [None] when [i] is out of range (the index expression
    panics). *)
Fixpoint at_ (s : string) (i : nat) : option ascii :=
  match s, i with
  | EmptyString, _ => None
  | String c _, O => Some c
  | String _ s, S i => at_ s i
  end.

(** [s[:n]] and [s[n:]], for [n] up to the length of [s]. *)
Fixpoint sliceTo (s : string) (n : nat) {struct n} : string :=
  match n, s with
  | S n, String c s => String c (sliceTo s n)
  | _, _ => EmptyString
  end.

Fixpoint sliceFrom (s : string) (n : nat) {struct n} : string :=
  match n, s with
  | S n, String _ s => sliceFrom s n
  | _, _ => s
  end.

(** The functions of package [strings] that are called, for separators of
    one byte, which is what every call passes. *)
Module strings.

Fixpoint HasPrefix (s prefix : string) {struct prefix} : bool :=
  match prefix, s with
  | EmptyString, _ => true
  | String p prefix, String c s => bool_decide (c = p) && HasPrefix s prefix
  | String _ _, EmptyString => false
  end.

Definition HasSuffix (s suffix : string) : bool :=
  bool_decide (String.length suffix ≤ String.length s)%nat
  && bool_decide
       (sliceFrom s (String.length s - String.length suffix) = suffix).

Definition TrimPrefix (s prefix : string) : string :=
  if HasPrefix s prefix then sliceFrom s (String.length prefix) else s.

(** [strings.Index(s, sep)]: the index of the first [sep], or [-1]. *)
Fixpoint Index (s : string) (sep : ascii) : Z :=
  match s with
  | EmptyString => -1
  | String c s =>
      if bool_decide (c = sep) then 0
      else let i := Index s sep in if i <? 0 then -1 else i + 1
  end.

(** [strings.LastIndex(s, sep)]: the index of the last [sep], or [-1]. *)
Fixpoint LastIndex (s : string) (sep : ascii) : Z :=
  match s with
  | EmptyString => -1
  | String c s =>
      let i := LastIndex s sep in
      if 0 <=? i then i + 1
      else if bool_decide (c = sep) then 0 else -1
  end.

Fixpoint Count (s : string) (sep : ascii) : nat :=
  match s with
  | EmptyString => 0
  | String c s => (if bool_decide (c = sep) then 1 else 0) + Count s sep
  end.

(** [strings.Split(s, sep)]: the pieces of [s] between the separators,
    one piece, [s], when there is none. *)
Fixpoint Split (s : string) (sep : ascii) : list string :=
  match s with
  | EmptyString => [EmptyString]
  | String c s =>
      if bool_decide (c = sep) then EmptyString :: Split s sep
      else match Split s sep with
           | piece :: pieces => String c piece :: pieces
           | [] => [String c EmptyString]
           end
  end.

(** [strings.SplitN(s, sep, n)] for [n >= 0]: at most [n] pieces, the
    last one the unsplit rest. *)
Fixpoint SplitN (s : string) (sep : ascii) (n : nat) : list string :=
  match n with
  | O => []
  | S O => [s]
  | S n =>
      let i := Index s sep in
      if i <? 0 then [s]
      else sliceTo s (Z.to_nat i)
             :: SplitN (sliceFrom s (Z.to_nat i + 1)) sep n
  end.

Fixpoint Join (elems : list string) (sep : string) : string :=
  match elems with
  | [] => EmptyString
  | [e] => e
  | e :: elems => e +:+ sep +:+ Join elems sep
  end.

(** [strings.ToLower] on the letters of ASCII; it is called on a URL
    scheme, which has no other letters. *)
Fixpoint ToLower (s : string) : string :=
  match s with
  | EmptyString => EmptyString
  | String c s =>
      String (if between "A" "Z" c then ascii_of_N (byte c + 32) else c)
        (ToLower s)
  end.

End strings.

(** [path.Base]. *)
Module path.

(** The loop that strips trailing slashes. *)
Fixpoint stripSlashes (rev_path : string) : string :=
  match rev_path with
  | String "/" s => stripSlashes s
  | _ => rev_path
  end.

Definition Base (path : string) : string :=
  if bool_decide (path = "") then "."
  else
    let path := String.rev (stripSlashes (String.rev path)) in
    let i := strings.LastIndex path "/" in
    let path := if 0 <=? i then sliceFrom path (Z.to_nat (i + 1))
                else path in
    if bool_decide (path = "") then "/" else path.

End path.

(** Package [net/url]: [Parse], [ResolveReference] and what they call. *)
Module url.

(** The errors of [Parse], by their cause. *)
Inductive Error :=
  (* "net/url: invalid control character in URL" *)
  | ErrControl
  (* "empty url" *)
  | ErrEmpty
  (* "missing protocol scheme" *)
  | ErrMissingScheme
  (* "invalid URI for request" *)
  | ErrRequestURI
  (* "first path segment in URL cannot contain colon" *)
  | ErrFirstSegmentColon
  (* the error of parseAuthority *)
  | ErrAuthority
  (* EscapeError: "invalid URL escape" and the offending text *)
  | EscapeError (s : string).

(** The two of the encoding modes that are reached: the host and the user
    are the business of [parseAuthority], and no query is decoded. *)
Inductive encoding := encodePath | encodeFragment.

Definition ishex (c : ascii) : bool :=
  isDigit c || between "a" "f" c || between "A" "F" c.

Definition unhex (c : ascii) : N :=
  if isDigit c then byte c - byte "0"
  else if between "a" "f" c then byte c - byte "a" + 10
  else if between "A" "F" c then byte c - byte "A" + 10
  else 0.

(** ["0123456789ABCDEF"[n]]. *)
Definition upperhex (n : N) : ascii :=
  if (n <? 10)%N then ascii_of_N (byte "0" + n)
  else ascii_of_N (byte "A" + (n - 10)).

Definition shouldEscape (c : ascii) (mode : encoding) : bool :=
  if isLetter c || isDigit c then false
  else if bool_decide (c ∈ ["-"; "_"; "."; "~"]%char) then false
  else if bool_decide
            (c ∈ ["$"; "&"; "+"; ","; "/"; ":"; ";"; "="; "?"; "@"]%char)
  then match mode with
       | encodePath => bool_decide (c = "?"%char)
       | encodeFragment => false
       end
  else match mode with
       | encodeFragment =>
           negb (bool_decide (c ∈ ["!"; "("; ")"; "*"]%char))
       | encodePath => true
       end.

(** [unescape]: every [%] must come with two hexadecimal digits, and
    stands for the byte they denote.  The error carries the [%] and up to
    two bytes after it. *)
Fixpoint unescape (s : string) (mode : encoding)
  : result Error string :=
  match s with
  | EmptyString => Ok EmptyString
  | String "%" rest =>
      match rest with
      | String a (String b rest') =>
          if ishex a && ishex b then
            match unescape rest' mode with
            | Ok t => Ok (String (ascii_of_N (unhex a * 16 + unhex b)) t)
            | Err e => Err e
            end
          else Err (EscapeError (sliceTo s 3))
      | _ => Err (EscapeError (sliceTo s 3))
      end
  | String c rest =>
      match unescape rest mode with
      | Ok t => Ok (String c t)
      | Err e => Err e
      end
  end.

Fixpoint escape (s : string) (mode : encoding) : string :=
  match s with
  | EmptyString => EmptyString
  | String c s =>
      if shouldEscape c mode then
        String "%"
          (String (upperhex (N.shiftr (byte c) 4))
             (String (upperhex (N.land (byte c) 15)) (escape s mode)))
      else String c (escape s mode)
  end.

(** [validEncoded]: whether [s] is a path in which everything that should
    be escaped is. *)
Fixpoint validEncoded (s : string) (mode : encoding) : bool :=
  match s with
  | EmptyString => true
  | String c s =>
      (if bool_decide
            (c ∈ ["!"; "$"; "&"; "'"; "("; ")"; "*"; "+"; ","; ";"; "=";
                  ":"; "@"; "["; "]"; "%"]%char)
       then true else negb (shouldEscape c mode))
      && validEncoded s mode
  end.

(** [split(s, sep, cutc)]: [s] around the first [sep], which goes to the
    second part unless [cutc]; [s] and the empty string when there is
    none. *)
Definition split (s : string) (sep : ascii) (cutc : bool)
  : string * string :=
  let i := strings.Index s sep in
  if i <? 0 then (s, EmptyString)
  else if cutc then (sliceTo s (Z.to_nat i), sliceFrom s (Z.to_nat i + 1))
  else (sliceTo s (Z.to_nat i), sliceFrom s (Z.to_nat i)).

(** [stringContainsCTLByte]. *)
Fixpoint stringContainsCTLByte (s : string) : bool :=
  match s with
  | EmptyString => false
  | String c s =>
      (byte c <? byte " ")%N || (byte c =? 127)%N
      || stringContainsCTLByte s
  end.

(** The loop of [getscheme], [i] bytes into [rawurl], [rest] ahead. *)
Fixpoint getscheme_loop (rawurl : string) (i : nat) (rest : string)
  : result Error (string * string) :=
  match rest with
  | EmptyString => Ok (EmptyString, rawurl)
  | String c rest =>
      if isLetter c then getscheme_loop rawurl (S i) rest
      else if isDigit c || bool_decide (c ∈ ["+"; "-"; "."]%char) then
        if bool_decide (i = 0%nat) then Ok (EmptyString, rawurl)
        else getscheme_loop rawurl (S i) rest
      else if bool_decide (c = ":"%char) then
        if bool_decide (i = 0%nat) then Err ErrMissingScheme
        else Ok (sliceTo rawurl i, sliceFrom rawurl (i + 1))
      else Ok (EmptyString, rawurl)
  end.

Definition getscheme (rawurl : string) : result Error (string * string) :=
  getscheme_loop rawurl 0 rawurl.

Definition emptyURL : URL :=
  mkURL "" "" None "" "" "" false "" "".

Definition set_Scheme (v : string) (u : URL) : URL :=
  mkURL v (Opaque u) (User u) (Host u) (Path u) (RawPath u) (ForceQuery u)
    (RawQuery u) (Fragment u).
Definition set_Opaque (v : string) (u : URL) : URL :=
  mkURL (Scheme u) v (User u) (Host u) (Path u) (RawPath u) (ForceQuery u)
    (RawQuery u) (Fragment u).
Definition set_User (v : option Userinfo) (u : URL) : URL :=
  mkURL (Scheme u) (Opaque u) v (Host u) (Path u) (RawPath u)
    (ForceQuery u) (RawQuery u) (Fragment u).
Definition set_Host (v : string) (u : URL) : URL :=
  mkURL (Scheme u) (Opaque u) (User u) v (Path u) (RawPath u)
    (ForceQuery u) (RawQuery u) (Fragment u).
Definition set_Path (v : string) (u : URL) : URL :=
  mkURL (Scheme u) (Opaque u) (User u) (Host u) v (RawPath u)
    (ForceQuery u) (RawQuery u) (Fragment u).
Definition set_RawPath (v : string) (u : URL) : URL :=
  mkURL (Scheme u) (Opaque u) (User u) (Host u) (Path u) v (ForceQuery u)
    (RawQuery u) (Fragment u).
Definition set_ForceQuery (v : bool) (u : URL) : URL :=
  mkURL (Scheme u) (Opaque u) (User u) (Host u) (Path u) (RawPath u) v
    (RawQuery u) (Fragment u).
Definition set_RawQuery (v : string) (u : URL) : URL :=
  mkURL (Scheme u) (Opaque u) (User u) (Host u) (Path u) (RawPath u)
    (ForceQuery u) v (Fragment u).
Definition set_Fragment (v : string) (u : URL) : URL :=
  mkURL (Scheme u) (Opaque u) (User u) (Host u) (Path u) (RawPath u)
    (ForceQuery u) (RawQuery u) v.

(** [URL.setPath]: the URL is left as it is when [p] cannot be
    unescaped. *)
Definition setPath (u : URL) (p : string) : URL * option Error :=
  match unescape p encodePath with
  | Err e => (u, Some e)
  | Ok path =>
      let u := set_Path path u in
      let escp := escape path encodePath in
      if bool_decide (p = escp) then (set_RawPath "" u, None)
      else (set_RawPath p u, None)
  end.

(** [URL.EscapedPath]. *)
Definition EscapedPath (u : URL) : string :=
  if negb (bool_decide (RawPath u = ""))
     && validEncoded (RawPath u) encodePath
     && match unescape (RawPath u) encodePath with
        | Ok p => bool_decide (p = Path u)
        | Err _ => false
        end
  then RawPath u
  else if bool_decide (Path u = "*") then "*"
  else escape (Path u) encodePath.

Section parse.
Context `{!Env}.

(** [parse(rawurl, viaRequest)]. *)
Definition parse (rawurl : string) (viaRequest : bool)
  : result Error URL :=
  if stringContainsCTLByte rawurl then Err ErrControl
  else if bool_decide (rawurl = "") && viaRequest then Err ErrEmpty
  else
    let url := emptyURL in
    if bool_decide (rawurl = "*") then Ok (set_Path "*" url)
    else
      match getscheme rawurl with
      | Err e => Err e
      | Ok (scheme, rest) =>
          let url := set_Scheme (strings.ToLower scheme) url in
          let '(url, rest) :=
            if strings.HasSuffix rest "?"
               && bool_decide (strings.Count rest "?" = 1%nat)
            then (set_ForceQuery true url,
                  sliceTo rest (String.length rest - 1))
            else let '(rest, query) := split rest "?" true in
                 (set_RawQuery query url, rest) in
          let slashless := negb (strings.HasPrefix rest "/") in
          if slashless && negb (bool_decide (Scheme url = "")) then
            Ok (set_Opaque rest url)
          else if slashless && viaRequest then Err ErrRequestURI
          else
            let colon := strings.Index rest ":" in
            let slash := strings.Index rest "/" in
            if slashless && (0 <=? colon)
               && ((slash <? 0) || (colon <? slash))
            then Err ErrFirstSegmentColon
            else
              let authorized :=
                if (negb (bool_decide (Scheme url = ""))
                    || negb viaRequest
                       && negb (strings.HasPrefix rest "///"))
                   && strings.HasPrefix rest "//"
                then
                  let '(authority, rest) :=
                    split (sliceFrom rest 2) "/" false in
                  match parseAuthority authority with
                  | None => Err ErrAuthority
                  | Some (user, host) =>
                      Ok (set_Host host (set_User user url), rest)
                  end
                else Ok (url, rest) in
              match authorized with
              | Err e => Err e
              | Ok (url, rest) =>
                  match setPath url rest with
                  | (_, Some e) => Err e
                  | (url, None) => Ok url
                  end
              end
      end.

(** [url.Parse]. *)
Definition Parse (rawurl : string) : result Error URL :=
  let '(u, frag) := split rawurl "#" true in
  match parse u false with
  | Err e => Err e
  | Ok url =>
      if bool_decide (frag = "") then Ok url
      else match unescape frag encodeFragment with
           | Err e => Err e
           | Ok f => Ok (set_Fragment f url)
           end
  end.

End parse.

(** [URL.IsAbs]. *)
Definition IsAbs (u : URL) : bool := negb (bool_decide (Scheme u = "")).

(** The loop of [resolvePath] over the segments. *)
Fixpoint resolveSegments (dst : list string) (src : list string)
  : list string :=
  match src with
  | [] => dst
  | elem :: src =>
      if bool_decide (elem = ".") then resolveSegments dst src
      else if bool_decide (elem = "..") then
        resolveSegments
          (if bool_decide (0 < length dst)%nat
           then take (length dst - 1) dst else dst) src
      else resolveSegments (dst ++ [elem]) src
  end.

(** [resolvePath(base, ref)], with [strings.Split] and [strings.Join] as
    in the releases of Go the package was written for; later releases walk
    the same segments with [strings.Cut]. *)
Definition resolvePath (base ref : string) : string :=
  let full :=
    if bool_decide (ref = "") then base
    else if negb (bool_decide (at_ ref 0 = Some "/"%char)) then
      let i := strings.LastIndex base "/" in
      sliceTo base (Z.to_nat (i + 1)) +:+ ref
    else ref in
  if bool_decide (full = "") then ""
  else
    let src := strings.Split full "/" in
    let dst := resolveSegments [] src in
    let dst := match last src with
               | Some l =>
                   if bool_decide (l = ".") || bool_decide (l = "..")
                   then dst ++ [""] else dst
               | None => dst
               end in
    "/" +:+ strings.TrimPrefix (strings.Join dst "/") "/".

(** [URL.ResolveReference], as in the releases of Go the package was
    written for.  Later releases differ where the base has a query, a
    fragment or an opaque part, which the base of [absFileURL] has not. *)
Definition ResolveReference (u ref : URL) : URL :=
  let url := ref in
  let url := if bool_decide (Scheme ref = "")
             then set_Scheme (Scheme u) url else url in
  if negb (bool_decide (Scheme ref = ""))
     || negb (bool_decide (Host ref = ""))
     || match User ref with Some _ => true | None => false end
  then (setPath url (resolvePath (EscapedPath ref) "")).1
  else if negb (bool_decide (Opaque ref = "")) then
    set_Path "" (set_Host "" (set_User None url))
  else
    let url :=
      if bool_decide (Path ref = "") && bool_decide (RawQuery ref = "")
      then
        let url := set_RawQuery (RawQuery u) url in
        if bool_decide (Fragment ref = "")
        then set_Fragment (Fragment u) url else url
      else url in
    let url := set_Host (Host u) url in
    let url := set_User (User u) url in
    (setPath url (resolvePath (EscapedPath u) (EscapedPath ref))).1.

End url.

(** [http.Header] is [map[string][]string]. *)
Abbreviation Header := (option (gmap string (list string))).

(** [DSConfig] - datasource config.  The fields are [URL] and [Header] in
    the source, names that are types here. *)
Record DSConfig := mkDSConfig {
  URL_ : option URL;
  Header_ : Header }.

(** [DSources] - map of datasource configs. *)
Abbreviation DSources := (option (gmap string DSConfig)).

(** ** Streams

    [PostExecInput] and [OutWriter] hold either nothing, one of the
    process's standard streams, or a pointer to a [bytes.Buffer].  Buffers
    live in a heap, a pointer is an address in it. *)
Inductive Stream :=
  | Stdin
  | Stdout
  | Buffer (addr : nat).

(** The buffers allocated so far, with their contents. *)
Abbreviation Heap := (list string) (only parsing).

(** [&bytes.Buffer{}]: a new empty buffer at the next free address. *)
Definition newBuffer (h : Heap) : nat * Heap := (length h, h ++ [""]).

(** ** The configuration document *)

Record Config := mkConfig {
  Input : string;
  InputFiles : list string;
  InputDir : string;
  ExcludeGlob : list string;
  OutputFiles : list string;
  OutputDir : string;
  OutputMap : string;
  SuppressEmpty : bool;
  ExecPipe : bool;
  PostExec : list string;
  OutMode : string;
  LDelim : string;
  RDelim : string;
  DataSources : DSources;
  Context : DSources;
  Plugins : option (gmap string string);
  PluginTimeout : Z;
  Templates : list string;
  ExtraHeaders : option (gmap string Header);
  PostExecInput : option Stream;
  OutWriter : option Stream }.

(** [&Config{}]: every field at its zero value. *)
Definition emptyConfig : Config :=
  mkConfig "" [] "" [] [] "" "" false false [] "" "" "" None None None 0 []
    None None None.

(** Field assignments [c.F = v]. *)
Definition set_Input (v : string) (c : Config) : Config :=
  let 'mkConfig _ b d e f g h i j k l m n o p q r s t u w := c in
  mkConfig v b d e f g h i j k l m n o p q r s t u w.
Definition set_InputFiles (v : list string) (c : Config) : Config :=
  let 'mkConfig a _ d e f g h i j k l m n o p q r s t u w := c in
  mkConfig a v d e f g h i j k l m n o p q r s t u w.
Definition set_InputDir (v : string) (c : Config) : Config :=
  let 'mkConfig a b _ e f g h i j k l m n o p q r s t u w := c in
  mkConfig a b v e f g h i j k l m n o p q r s t u w.
Definition set_ExcludeGlob (v : list string) (c : Config) : Config :=
  let 'mkConfig a b d _ f g h i j k l m n o p q r s t u w := c in
  mkConfig a b d v f g h i j k l m n o p q r s t u w.
Definition set_OutputFiles (v : list string) (c : Config) : Config :=
  let 'mkConfig a b d e _ g h i j k l m n o p q r s t u w := c in
  mkConfig a b d e v g h i j k l m n o p q r s t u w.
Definition set_OutputDir (v : string) (c : Config) : Config :=
  let 'mkConfig a b d e f _ h i j k l m n o p q r s t u w := c in
  mkConfig a b d e f v h i j k l m n o p q r s t u w.
Definition set_OutputMap (v : string) (c : Config) : Config :=
  let 'mkConfig a b d e f g _ i j k l m n o p q r s t u w := c in
  mkConfig a b d e f g v i j k l m n o p q r s t u w.
Definition set_ExecPipe (v : bool) (c : Config) : Config :=
  let 'mkConfig a b d e f g h i _ k l m n o p q r s t u w := c in
  mkConfig a b d e f g h i v k l m n o p q r s t u w.
Definition set_PostExec (v : list string) (c : Config) : Config :=
  let 'mkConfig a b d e f g h i j _ l m n o p q r s t u w := c in
  mkConfig a b d e f g h i j v l m n o p q r s t u w.
Definition set_OutMode (v : string) (c : Config) : Config :=
  let 'mkConfig a b d e f g h i j k _ m n o p q r s t u w := c in
  mkConfig a b d e f g h i j k v m n o p q r s t u w.
Definition set_LDelim (v : string) (c : Config) : Config :=
  let 'mkConfig a b d e f g h i j k l _ n o p q r s t u w := c in
  mkConfig a b d e f g h i j k l v n o p q r s t u w.
Definition set_RDelim (v : string) (c : Config) : Config :=
  let 'mkConfig a b d e f g h i j k l m _ o p q r s t u w := c in
  mkConfig a b d e f g h i j k l m v o p q r s t u w.
Definition set_DataSources (v : DSources) (c : Config) : Config :=
  let 'mkConfig a b d e f g h i j k l m n _ p q r s t u w := c in
  mkConfig a b d e f g h i j k l m n v p q r s t u w.
Definition set_Context (v : DSources) (c : Config) : Config :=
  let 'mkConfig a b d e f g h i j k l m n o _ q r s t u w := c in
  mkConfig a b d e f g h i j k l m n o v q r s t u w.
Definition set_Plugins (v : option (gmap string string)) (c : Config)
  : Config :=
  let 'mkConfig a b d e f g h i j k l m n o p _ r s t u w := c in
  mkConfig a b d e f g h i j k l m n o p v r s t u w.
Definition set_PluginTimeout (v : Z) (c : Config) : Config :=
  let 'mkConfig a b d e f g h i j k l m n o p q _ s t u w := c in
  mkConfig a b d e f g h i j k l m n o p q v s t u w.
Definition set_Templates (v : list string) (c : Config) : Config :=
  let 'mkConfig a b d e f g h i j k l m n o p q r _ t u w := c in
  mkConfig a b d e f g h i j k l m n o p q r v t u w.
Definition set_ExtraHeaders (v : option (gmap string Header)) (c : Config)
  : Config :=
  let 'mkConfig a b d e f g h i j k l m n o p q r s _ u w := c in
  mkConfig a b d e f g h i j k l m n o p q r s v u w.
Definition set_PostExecInput (v : option Stream) (c : Config) : Config :=
  let 'mkConfig a b d e f g h i j k l m n o p q r s t _ w := c in
  mkConfig a b d e f g h i j k l m n o p q r s t v w.
Definition set_OutWriter (v : option Stream) (c : Config) : Config :=
  let 'mkConfig a b d e f g h i j k l m n o p q r s t u _ := c in
  mkConfig a b d e f g h i j k l m n o p q r s t u v.

(** ** Zero values *)

(** The dynamic types [isZero] is called with, and any other. *)
Inductive iface :=
  | IString (v : string)
  | ISlice (v : list string)
  | IBool (v : bool)
  | IOther.

Definition isZero (value : iface) : bool :=
  match value with
  | IString v => bool_decide (v = "")
  | ISlice v => bool_decide (length v = 0%nat)
  | IBool v => negb v
  | IOther => false
  end.

(** ** Merging *)

(** [DSConfig.mergeFrom]. *)
Definition DSConfig_mergeFrom (d o : DSConfig) : DSConfig :=
  let d := match URL_ o with
           | Some u => mkDSConfig (Some u) (Header_ d)
           | None => d
           end in
  match Header_ d with
  | None => mkDSConfig (URL_ d) (Header_ o)
  | Some dh =>
      mkDSConfig (URL_ d)
        (Some (foldl (λ dh kv, <[kv.1 := kv.2]> dh) dh (range (Header_ o))))
  end.

(** One iteration of the loop of [DSources.mergeFrom]. *)
Definition DSources_mergeFrom_step (d : DSources) (kv : string * DSConfig)
  : exec DSources :=
  match index d kv.1 with
  | Some c => store d kv.1 (DSConfig_mergeFrom c kv.2)
  | None => store d kv.1 kv.2
  end.

(** A [for ... range] loop whose body may panic. *)
Fixpoint forRange {S A} (body : S → A → exec S) (s : S) (l : list A)
  : exec S :=
  match l with
  | [] => Returns s
  | x :: l => s ← body s x ; forRange body s l
  end.

(** [DSources.mergeFrom]. *)
Definition DSources_mergeFrom (d o : DSources) : exec DSources :=
  forRange DSources_mergeFrom_step d (range o).

(** The input group of [MergeFrom]: the [switch]. *)
Definition mergeInputs (c o : Config) : Config :=
  if negb (isZero (IString (Input o))) then
    let c := set_Input (Input o) c in
    let c := set_InputDir "" c in
    let c := set_InputFiles [] c in
    set_OutputDir "" c
  else if negb (isZero (IString (InputDir o))) then
    let c := set_Input "" c in
    let c := set_InputDir (InputDir o) c in
    set_InputFiles [] c
  else if negb (isZero (ISlice (InputFiles o))) then
    if negb (bool_decide (length (InputFiles o) = 1%nat)
             && bool_decide (InputFiles o !! 0%nat = Some "-")) then
      let c := set_Input "" c in
      let c := set_InputFiles (InputFiles o) c in
      let c := set_InputDir "" c in
      set_OutputDir "" c
    else c
  else c.

(** [if b { body }] on the receiver. *)
Definition when (b : bool) (body : Config → Config) (c : Config) : Config :=
  if b then body c else c.

(** The [if] statements of [MergeFrom] on the string, list and boolean
    fields, in the order of the source. *)
Definition mergeFields (c o : Config) : Config :=
  let c := mergeInputs c o in
  let c := when (negb (isZero (IString (OutputMap o))))
             (λ c, let c := set_OutputDir "" c in
                   let c := set_OutputFiles [] c in
                   set_OutputMap (OutputMap o) c) c in
  let c := when (negb (isZero (IString (OutputDir o))))
             (λ c, let c := set_OutputDir (OutputDir o) c in
                   let c := set_OutputFiles [] c in
                   set_OutputMap "" c) c in
  let c := when (negb (isZero (ISlice (OutputFiles o))))
             (λ c, let c := set_OutputDir "" c in
                   let c := set_OutputFiles (OutputFiles o) c in
                   set_OutputMap "" c) c in
  let c := when (negb (isZero (IBool (ExecPipe o))))
             (λ c, let c := set_ExecPipe (ExecPipe o) c in
                   let c := set_PostExec (PostExec o) c in
                   set_OutputFiles (OutputFiles o) c) c in
  let c := when (negb (isZero (ISlice (ExcludeGlob o))))
             (set_ExcludeGlob (ExcludeGlob o)) c in
  let c := when (negb (isZero (IString (OutMode o))))
             (set_OutMode (OutMode o)) c in
  let c := when (negb (isZero (IString (LDelim o))))
             (set_LDelim (LDelim o)) c in
  let c := when (negb (isZero (IString (RDelim o))))
             (set_RDelim (RDelim o)) c in
  when (negb (isZero (ISlice (Templates o))))
    (set_Templates (Templates o)) c.

(** [Config.MergeFrom]: the receiver as the call leaves it (the call returns
    the receiver), or a panic from a store into a nil map. *)
Definition MergeFrom (c o : Config) : exec Config :=
  let c := mergeFields c o in
  ds ← DSources_mergeFrom (DataSources c) (DataSources o) ;
  let c := set_DataSources ds c in
  cx ← DSources_mergeFrom (Context c) (Context o) ;
  let c := set_Context cx c in
  if bool_decide (0 < len (Plugins o))%nat then
    ps ← forRange (λ ps kv, store ps kv.1 kv.2) (Plugins c)
           (range (Plugins o)) ;
    Returns (set_Plugins ps c)
  else Returns c.

(** ** Header maps in a store

    An [http.Header] is a map, and a Go map is a reference: descriptors
    that were given the same header map share it, and an entry stored
    through one is read through the others.  [ParseDataSourceFlags] gives
    the context and the datasource of an alias the same map, and
    [DSConfig.mergeFrom] stores into the map of its receiver.  Where this
    matters the header maps live in a store, and a descriptor holds the
    address of its map. *)

(** The header maps there are, by address. *)
Abbreviation headerStore := (gmap nat (gmap string (list string))).

(** [DSConfig] with its header map by reference: nil, or an address. *)
Record DSConfigRef := mkDSConfigRef {
  URL_ref : option URL;
  Header_ref : option nat }.

(** [DSources] with the header maps by reference. *)
Abbreviation DSourcesRef := (option (gmap string DSConfigRef)).

(** The header map that a descriptor holds: nil, or the map at its address
    in the store. *)
Definition headerOf (hs : headerStore) (h : option nat) : Header :=
  (λ a, hs !!! a) <$> h.

(** [DSConfig.mergeFrom] on the store.  The receiver [d] is a copy of the
    struct, so that its header map is the map of the original: the loop
    stores into it, in the store.  The loop ranges over the entries that
    the override's map has when it starts; where that is the map it stores
    into, a store puts back the value that is there. *)
Definition DSConfig_mergeFrom_ref (hs : headerStore) (d o : DSConfigRef)
  : headerStore * DSConfigRef :=
  let d := match URL_ref o with
           | Some u => mkDSConfigRef (Some u) (Header_ref d)
           | None => d
           end in
  match Header_ref d with
  | None => (hs, mkDSConfigRef (URL_ref d) (Header_ref o))
  | Some a =>
      (foldl (λ hs kv, <[a := <[kv.1 := kv.2]> (hs !!! a)]> hs) hs
         (range (headerOf hs (Header_ref o))), d)
  end.

(** One iteration of the loop of [DSources.mergeFrom] on the store. *)
Definition DSources_mergeFrom_ref_step (s : headerStore * DSourcesRef)
    (kv : string * DSConfigRef) : exec (headerStore * DSourcesRef) :=
  match index s.2 kv.1 with
  | Some c =>
      let '(hs, c) := DSConfig_mergeFrom_ref s.1 c kv.2 in
      d ← store s.2 kv.1 c ; Returns (hs, d)
  | None => d ← store s.2 kv.1 kv.2 ; Returns (s.1, d)
  end.

(** [DSources.mergeFrom] on the store. *)
Definition DSources_mergeFrom_ref (hs : headerStore) (d o : DSourcesRef)
  : exec (headerStore * DSourcesRef) :=
  forRange DSources_mergeFrom_ref_step (hs, d) (range o).

(** The two calls of [MergeFrom] that merge descriptors,
    [c.DataSources.mergeFrom(o.DataSources)] and
    [c.Context.mergeFrom(o.Context)], on one store: the store and the two
    maps of the receiver as the calls leave them. *)
Definition mergeSources (hs : headerStore) (ds cx ods ocx : DSourcesRef)
  : exec (headerStore * DSourcesRef * DSourcesRef) :=
  '(hs, ds) ← DSources_mergeFrom_ref hs ds ods ;
  '(hs, cx) ← DSources_mergeFrom_ref hs cx ocx ;
  Returns (hs, ds, cx).

(** ** Errors *)

(** [strconv.NumError]: the function, the text, and which of
    [strconv.ErrSyntax], [strconv.ErrRange], an invalid base or an invalid
    bit size it is. *)
Inductive NumErrorKind := ErrSyntax | ErrRange | ErrBase | ErrBitSize.

(** The errors of the package, by the statement that makes them. *)
Inductive error :=
  (* "only one of these options is supported at a time: '%s', '%s'" *)
  | ErrNotTogether (found name : string)
  (* "these options must be set together: '%s', '%s'" *)
  | ErrMustTogether (left right : string)
  (* "must provide same number of 'outputFiles' (%d) as 'in' or
     'inputFiles' (%d) options" *)
  | ErrCount (o f : nat)
  (* "execPipe may only be used with a postExec command" *)
  | ErrExecPipePostExec
  (* "must not set 'outputFiles' when using 'execPipe'" *)
  | ErrExecPipeOutputFiles
  (* the error of strconv.ParseUint *)
  | NumError (func num : string) (kind : NumErrorKind)
  (* "can't get working directory", around the error of os.Getwd *)
  | ErrGetwd
  (* the error of url.Parse *)
  | ErrURL (e : url.Error)
  (* "can't parse value %s as URL: %w" *)
  | ErrAbsFileURL (value : string) (e : url.Error)
  (* "invalid datasource (%s): must provide an alias with files not in
     working directory" *)
  | ErrDatasource (value : string)
  (* "invalid datasource-header option '%s'" *)
  | ErrHeaderOption (arg : string)
  (* "invalid HTTP Header format '%s'" *)
  | ErrHeaderFormat (header : string).

(** ** Validation *)

(** The loop of [notTogether]; [names[i]] is always in range at the calls
    of the package, which pass three names and three values. *)
Fixpoint notTogether_loop (names : list string) (found : string) (i : nat)
    (values : list iface) : option error :=
  match values with
  | [] => None
  | value :: values =>
      if isZero value then notTogether_loop names found (S i) values
      else if negb (bool_decide (found = "")) then
        Some (ErrNotTogether found (names !!! i))
      else notTogether_loop names (names !!! i) (S i) values
  end.

Definition notTogether (names : list string) (values : list iface)
  : option error :=
  notTogether_loop names "" 0%nat values.

Definition mustTogether (left right : string) (lValue rValue : iface)
  : option error :=
  if negb (isZero lValue) && isZero rValue then
    Some (ErrMustTogether left right)
  else None.

(** [if err == nil { err = next }]. *)
Definition ifNil (err next : option error) : option error :=
  match err with
  | None => next
  | Some _ => err
  end.

(** [Config.Validate]; [None] is the nil error. *)
Definition Validate (c : Config) : option error :=
  let err := notTogether ["in"; "inputFiles"; "inputDir"]
               [IString (Input c); ISlice (InputFiles c);
                IString (InputDir c)] in
  let err := ifNil err
               (notTogether ["outputFiles"; "outputDir"; "outputMap"]
                  [ISlice (OutputFiles c); IString (OutputDir c);
                   IString (OutputMap c)]) in
  let err := ifNil err
               (notTogether ["outputDir"; "outputMap"; "execPipe"]
                  [IString (OutputDir c); IString (OutputMap c);
                   IBool (ExecPipe c)]) in
  let err := ifNil err
               (mustTogether "outputDir" "inputDir"
                  (IString (OutputDir c)) (IString (InputDir c))) in
  let err := ifNil err
               (mustTogether "outputMap" "inputDir"
                  (IString (OutputMap c)) (IString (InputDir c))) in
  let err := ifNil err
               (let f := length (InputFiles c) in
                let f := if bool_decide (f = 0%nat)
                            && negb (bool_decide (Input c = ""))
                         then 1%nat else f in
                let o := length (OutputFiles c) in
                if negb (bool_decide (f = o)) && negb (ExecPipe c)
                then Some (ErrCount o f) else None) in
  let err := ifNil err
               (if ExecPipe c && bool_decide (length (PostExec c) = 0%nat)
                then Some ErrExecPipePostExec else None) in
  let err := ifNil err
               (if ExecPipe c
                   && (bool_decide (0 < length (OutputFiles c))%nat
                       && negb (bool_decide
                                  (OutputFiles c !! 0%nat = Some "-")))
                then Some ErrExecPipeOutputFiles else None) in
  err.

(** ** Defaults *)

(** [5 * time.Second], a [time.Duration] in nanoseconds. *)
Definition fiveSeconds : Z := 5 * 1000000000.

(** [Config.ApplyDefaults]: the receiver and the heap as the call leaves
    them. *)
Definition ApplyDefaults (c : Config) (h : Heap) : Config * Heap :=
  let c := when (negb (bool_decide (InputDir c = ""))
                 && bool_decide (OutputDir c = "")
                 && bool_decide (OutputMap c = ""))
             (set_OutputDir ".") c in
  let c := when (bool_decide (Input c = "") && bool_decide (InputDir c = "")
                 && bool_decide (length (InputFiles c) = 0%nat))
             (set_InputFiles ["-"]) c in
  let c := when (bool_decide (OutputDir c = "")
                 && bool_decide (OutputMap c = "")
                 && bool_decide (length (OutputFiles c) = 0%nat)
                 && negb (ExecPipe c))
             (set_OutputFiles ["-"]) c in
  let c := when (bool_decide (LDelim c = "")) (set_LDelim "{{") c in
  let c := when (bool_decide (RDelim c = "")) (set_RDelim "}}") c in
  let '(c, h) :=
    if ExecPipe c then
      let '(a, h) := newBuffer h in
      let c := set_PostExecInput (Some (Buffer a)) c in
      let c := set_OutWriter (PostExecInput c) c in
      (set_OutputFiles ["-"] c, h)
    else
      let c := set_PostExecInput (Some Stdin) c in
      (set_OutWriter (Some Stdout) c, h) in
  let c := when (bool_decide (PluginTimeout c = 0))
             (set_PluginTimeout fiveSeconds) c in
  (c, h).

(** What a caller can tell of a stream: which standard stream it is, or
    the contents of the buffer it points to. *)
Definition sameStream (h1 : Heap) (s1 : option Stream) (h2 : Heap)
    (s2 : option Stream) : Prop :=
  match s1, s2 with
  | None, None => True
  | Some Stdin, Some Stdin => True
  | Some Stdout, Some Stdout => True
  | Some (Buffer a), Some (Buffer b) =>
      is_Some (h1 !! a) ∧ h1 !! a = h2 !! b
  | _, _ => False
  end.

(** Two configurations, each with its heap, are observably equal: the
    fields that are data are equal, the two streams are the same kind of
    stream with the same contents, and the output writer is the post-exec
    input in both or in neither. *)
Definition observablyEqual (x y : Config * Heap) : Prop :=
  let '(c1, h1) := x in
  let '(c2, h2) := y in
  set_PostExecInput None (set_OutWriter None c1)
    = set_PostExecInput None (set_OutWriter None c2)
  ∧ sameStream h1 (PostExecInput c1) h2 (PostExecInput c2)
  ∧ sameStream h1 (OutWriter c1) h2 (OutWriter c2)
  ∧ (PostExecInput c1 = OutWriter c1 ↔ PostExecInput c2 = OutWriter c2).

(** ** The output file mode *)

Module strconv.

(** [lower(c)]: [c | ('x' - 'X')]. *)
Definition lower (c : Z) : Z := Z.lor c 32.

(** The value of a digit byte, [None] for a byte that is no digit in any
    base. *)
Definition digit (c : Z) : option Z :=
  if (48 <=? c) && (c <=? 57) then Some (c - 48)
  else if (97 <=? lower c) && (lower c <=? 122) then
    Some (lower c - 97 + 10)
  else None.

Definition maxUint64 : Z := 2 ^ 64 - 1.

(** The loop of [ParseUint] for a base between 2 and 36, where no
    underscore is accepted.  The 64-bit arithmetic is on [Z]: [n] stays at
    most [maxVal], and [n1 < n] of the source, the wrap-around of
    [n + d], is [maxUint64 < n1] here. *)
Fixpoint parseLoop (base cutoff maxVal : Z) (n : Z) (s : string)
  : Z * option NumErrorKind :=
  match s with
  | EmptyString => (n, None)
  | String c s =>
      match digit (Z.of_N (N_of_ascii c)) with
      | None => (0, Some ErrSyntax)
      | Some d =>
          if base <=? d then (0, Some ErrSyntax)
          else if cutoff <=? n then (maxVal, Some ErrRange)
          else
            let n := n * base in
            let n1 := n + d in
            if (maxUint64 <? n1) || (maxVal <? n1) then
              (maxVal, Some ErrRange)
            else parseLoop base cutoff maxVal n1 s
      end
  end.

(** [strconv.ParseUint(s, base, bitSize)] for a base from 2 to 36 and a
    bit size from 1 to 64.  Base 0, which reads the base off a prefix of
    [s], and bit size 0, the size of [int], are not passed by the package
    and are not embedded: they are answered like an invalid base and an
    invalid bit size. *)
Definition ParseUint (s : string) (base bitSize : Z)
  : Z * option NumErrorKind :=
  if bool_decide (s = "") then (0, Some ErrSyntax)
  else if negb ((2 <=? base) && (base <=? 36)) then (0, Some ErrBase)
  else if (bitSize <? 1) || (64 <? bitSize) then (0, Some ErrBitSize)
  else
    let cutoff := maxUint64 / base + 1 in
    let maxVal := 2 ^ bitSize - 1 in
    parseLoop base cutoff maxVal 0 s.

End strconv.

(** The octal constant [0644]. *)
Definition mode0644 : Z := 6 * 8 ^ 2 + 4 * 8 + 4.

(** [Config.GetMode]: the mode, whether it is an override, the error. *)
Definition GetMode (c : Config) : Z * bool * option error :=
  let modeOverride := negb (bool_decide (OutMode c = "")) in
  let '(m, err) := strconv.ParseUint ("0" +:+ OutMode c) 8 32 in
  match err with
  | Some k => (0, false, Some (NumError "ParseUint" ("0" +:+ OutMode c) k))
  | None =>
      let mode := m in
      let mode := if bool_decide (mode = 0)
                     && negb (bool_decide (Input c = ""))
                  then mode0644 else mode in
      (mode, modeOverride, None)
  end.

(** ** Datasource locations *)

Section locations.
Context `{!Env}.

(** [absFileURL]: the URL, or the error, or the panic of the index
    expression [resolved.Path[2]]. *)
Definition absFileURL (value : string) : exec (result error URL) :=
  match Getwd with
  | None => Returns (Err ErrGetwd)
  | Some wd =>
      let wd := ToSlash wd in
      let baseURL := mkURL "file" "" None "" (wd +:+ "/") "" false "" "" in
      match url.Parse value with
      | Err e => Returns (Err (ErrAbsFileURL value e))
      | Ok relURL =>
          let resolved := url.ResolveReference baseURL relURL in
          if negb (strings.HasPrefix wd "/") then
            match at_ (Path resolved) 2 with
            | None => Panics
            | Some c =>
                if bool_decide (c = ":"%char) then
                  Returns (Ok (url.set_Path (sliceFrom (Path resolved) 1)
                                 resolved))
                else Returns (Ok resolved)
            end
          else Returns (Ok resolved)
      end
  end.

(** [parseSourceURL]. *)
Definition parseSourceURL (value : string) : exec (result error URL) :=
  let value := if bool_decide (value = "-") then "stdin://" else value in
  let value := ToSlash value in
  let volName := VolumeName value in
  let value :=
    if negb (bool_decide (volName = "")) then
      if bool_decide (2 < String.length volName)%nat
      then "file:" +:+ value else "file:///" +:+ value
    else value in
  match url.Parse value with
  | Err e => Returns (Err (ErrURL e))
  | Ok srcURL =>
      let srcURL :=
        if negb (bool_decide (volName = ""))
           && bool_decide (3 ≤ String.length (Path srcURL))%nat
        then
          if bool_decide (at_ (Path srcURL) 0 = Some "/"%char)
             && bool_decide (at_ (Path srcURL) 2 = Some ":"%char)
          then url.set_Path (sliceFrom (Path srcURL) 1) srcURL
          else srcURL
        else srcURL in
      if negb (url.IsAbs srcURL) then absFileURL value
      else Returns (Ok srcURL)
  end.

(** [parseDatasourceArg]: the key, the datasource and the error. *)
Definition parseDatasourceArg (value : string)
  : exec (string * DSConfig * option error) :=
  let parts := strings.SplitN value "=" 2 in
  if bool_decide (length parts = 1%nat) then
    let f := parts !!! 0%nat in
    let key := strings.SplitN value "." 2 !!! 0%nat in
    if negb (bool_decide (path.Base f = f)) then
      Returns (key, mkDSConfig None None, Some (ErrDatasource value))
    else
      r ← absFileURL f;
      match r with
      | Ok u => Returns (key, mkDSConfig (Some u) None, None)
      | Err e => Returns (key, mkDSConfig None None, Some e)
      end
  else if bool_decide (length parts = 2%nat) then
    let key := parts !!! 0%nat in
    r ← parseSourceURL (parts !!! 1%nat);
    match r with
    | Ok u => Returns (key, mkDSConfig (Some u) None, None)
    | Err e => Returns (key, mkDSConfig None None, Some e)
    end
  else Returns ("", mkDSConfig None None, None).

(** ** Header flags *)

(** [splitHeader]. *)
Definition splitHeader (header : string)
  : string * string * option error :=
  let parts := strings.SplitN header ":" 2 in
  if negb (bool_decide (length parts = 2%nat)) then
    ("", "", Some (ErrHeaderFormat header))
  else (CanonicalHeaderKey (parts !!! 0%nat), parts !!! 1%nat, None).

(** [splitHeaderArg]. *)
Definition splitHeaderArg (arg : string)
  : string * string * string * option error :=
  let parts := strings.SplitN arg "=" 2 in
  if negb (bool_decide (length parts = 2%nat)) then
    ("", "", "", Some (ErrHeaderOption arg))
  else
    let datasourceAlias := parts !!! 0%nat in
    let '(name, value, err) := splitHeader (parts !!! 1%nat) in
    (datasourceAlias, name, value, err).

(** The loop of [parseHeaderArgs].  [headers[ds]] is a reference to a
    map: the store into it is seen through [headers], which is the last
    store of the body here. *)
Fixpoint parseHeaderArgs_loop (headers : option (gmap string Header))
    (headerArgs : list string)
  : exec (option (gmap string Header) * option error) :=
  match headerArgs with
  | [] => Returns (headers, None)
  | v :: headerArgs =>
      let '(ds, name, value, err) := splitHeaderArg v in
      match err with
      | Some e => Returns (None, Some e)
      | None =>
          headers ← match index headers ds with
                    | Some _ => Returns headers
                    | None => store headers ds (Some ∅)
                    end;
          let h := default None (index headers ds) in
          h ← store h name
                (default [] (index h name) ++ [TrimSpace value]);
          headers ← store headers ds h;
          parseHeaderArgs_loop headers headerArgs
      end
  end.

(** [parseHeaderArgs]. *)
Definition parseHeaderArgs (headerArgs : list string)
  : exec (option (gmap string Header) * option error) :=
  parseHeaderArgs_loop (Some ∅) headerArgs.

(** ** Datasource flags *)

(** The first two loops of [ParseDataSourceFlags], over the datasources
    into [c.DataSources] and over the contexts into [c.Context]: [get]
    and [set] are the field. *)
Fixpoint parseInto (get : Config → DSources)
    (set : DSources → Config → Config) (c : Config) (args : list string)
  : exec (Config * option error) :=
  match args with
  | [] => Returns (c, None)
  | d :: args =>
      '(k, ds, err) ← parseDatasourceArg d;
      match err with
      | Some e => Returns (c, Some e)
      | None =>
          let c := match get c with
                   | None => set (Some ∅) c
                   | Some _ => c
                   end in
          m ← store (get c) k ds;
          parseInto get set (set m c) args
      end
  end.

(** The body of the loop over the parsed headers: the state is the
    receiver and the map [hdrs]. *)
Definition attachHeader (st : Config * option (gmap string Header))
    (kv : string * Header)
  : exec (Config * option (gmap string Header)) :=
  let '(c, hdrs) := st in
  let '(k, v) := kv in
  '(c, hdrs) ← match index (Context c) k with
                | Some d =>
                    m ← store (Context c) k (mkDSConfig (URL_ d) v);
                    Returns (set_Context m c, remove hdrs k)
                | None => Returns (c, hdrs)
                end;
  match index (DataSources c) k with
  | Some d =>
      m ← store (DataSources c) k (mkDSConfig (URL_ d) v);
      Returns (set_DataSources m c, remove hdrs k)
  | None => Returns (c, hdrs)
  end.

(** The end of [ParseDataSourceFlags], from the loop over the parsed
    headers on.  The loop deletes from [hdrs] only the key it is at, so
    it comes to every entry [hdrs] had when it started. *)
Definition attachHeaders (c : Config) (hdrs : option (gmap string Header))
  : exec Config :=
  '(c, hdrs) ← forRange attachHeader (c, hdrs) (range hdrs);
  Returns (if bool_decide (0 < len hdrs)%nat
           then set_ExtraHeaders hdrs c else c).

(** [Config.ParseDataSourceFlags]: the receiver as the call leaves it,
    and the error. *)
Definition ParseDataSourceFlags (c : Config)
    (datasources contexts headers : list string)
  : exec (Config * option error) :=
  '(c, err) ← parseInto DataSources set_DataSources c datasources;
  match err with
  | Some e => Returns (c, Some e)
  | None =>
      '(c, err) ← parseInto Context set_Context c contexts;
      match err with
      | Some e => Returns (c, Some e)
      | None =>
          '(hdrs, err) ← parseHeaderArgs headers;
          match err with
          | Some e => Returns (c, Some e)
          | None => c ← attachHeaders c hdrs; Returns (c, None)
          end
      end
  end.

End locations.

(** ** Plugin flags *)

(** The error of [ParsePluginFlags]. *)
Inductive pluginError :=
  (* "plugin requires both name and path" *)
  | ErrPluginNameAndPath.

(** [Config.ParsePluginFlags]: the receiver as the call leaves it, and the
    error. *)
Fixpoint ParsePluginFlags (c : Config) (plugins : list string)
  : exec (Config * option pluginError) :=
  match plugins with
  | [] => Returns (c, None)
  | plugin :: plugins =>
      let parts := strings.SplitN plugin "=" 2 in
      if bool_decide (length parts < 2)%nat then
        Returns (c, Some ErrPluginNameAndPath)
      else
        let c := match Plugins c with
                 | None => set_Plugins (Some ∅) c
                 | Some _ => c
                 end in
        ps ← store (Plugins c) (parts !!! 0%nat) (parts !!! 1%nat);
        ParsePluginFlags (set_Plugins ps c) plugins
  end.

(** ** YAML *)

(** The struct [raw] that a datasource is decoded into and encoded from. *)
Record raw := mkRaw {
  raw_URL : string;
  raw_Header : Header }.

Section marshal.

(** [escape(h, encodeHost)] and [Userinfo.String] of [net/url], taken as
    given. *)
Context (escapeHost : string → string) (Userinfo_String : Userinfo → string).

(** The field [OmitHost] of the URL that is written.  Go has it since
    release 1.19, and the record [URL] does not hold it: it is false on the
    releases before, and after them [url.Parse] sets it for a URL written
    [scheme:/path], with a scheme and a rooted path and no [//]. *)
Context (OmitHost : bool).

(** [URL.String]: [buf] is the [strings.Builder].  On a release without
    [OmitHost] the branch that omits the empty host is not there, which is
    this function at [OmitHost = false]. *)
Definition URL_String (u : URL) : string :=
  let buf := "" in
  let buf := if negb (bool_decide (Scheme u = ""))
             then buf +:+ Scheme u +:+ ":" else buf in
  let buf :=
    if negb (bool_decide (Opaque u = "")) then buf +:+ Opaque u
    else
      let buf :=
        if negb (bool_decide (Scheme u = ""))
           || negb (bool_decide (Host u = ""))
           || match User u with Some _ => true | None => false end
        then
          if OmitHost && bool_decide (Host u = "")
             && match User u with Some _ => false | None => true end
          then buf (* omit empty host *)
          else
            let buf :=
              if negb (bool_decide (Host u = ""))
                 || negb (bool_decide (Path u = ""))
                 || match User u with Some _ => true | None => false end
              then buf +:+ "//" else buf in
            let buf := match User u with
                       | Some ui => buf +:+ Userinfo_String ui +:+ "@"
                       | None => buf
                       end in
            if negb (bool_decide (Host u = ""))
            then buf +:+ escapeHost (Host u) else buf
        else buf in
      let path := url.EscapedPath u in
      let buf :=
        if negb (bool_decide (path = ""))
           && negb (bool_decide (at_ path 0 = Some "/"%char))
           && negb (bool_decide (Host u = ""))
        then buf +:+ "/" else buf in
      let buf :=
        if bool_decide (String.length buf = 0%nat) then
          let i := strings.Index path ":" in
          if (-1 <? i)
             && (strings.Index (sliceTo path (Z.to_nat i)) "/" =? -1)
          then buf +:+ "./" else buf
        else buf in
      buf +:+ path in
  let buf := if ForceQuery u || negb (bool_decide (RawQuery u = ""))
             then buf +:+ "?" +:+ RawQuery u else buf in
  if negb (bool_decide (Fragment u = ""))
  then buf +:+ "#" +:+ url.escape (Fragment u) url.encodeFragment
  else buf.

(** [DSConfig.MarshalYAML]: the struct handed to the encoder and the
    error, which is always nil, or the panic of [d.URL.String()] on the nil
    URL. *)
Definition MarshalYAML (d : DSConfig) : exec (raw * option error) :=
  match URL_ d with
  | None => Panics
  | Some u => Returns (mkRaw (URL_String u) (Header_ d), None)
  end.

End marshal.

(** The errors of [DSConfig.UnmarshalYAML]. *)
Inductive unmarshalError (E : Type) : Type :=
  (* the error of value.Decode *)
  | ErrDecode (e : E)
  (* "could not parse datasource URL %q: %w" *)
  | ErrDatasourceURL (url : string) (e : error).
Arguments ErrDecode {E} e.
Arguments ErrDatasourceURL {E} url e.

Section unmarshal.
Context `{!Env}.

(** A YAML node and [Node.Decode] into the struct [raw], taken as given:
    the struct or the error. *)
Context {Node DecodeError : Type} (Decode : Node → result DecodeError raw).

(** [DSConfig.UnmarshalYAML]: the receiver as the call leaves it, and the
    error. *)
Definition UnmarshalYAML (d : DSConfig) (value : Node)
  : exec (DSConfig * option (unmarshalError DecodeError)) :=
  match Decode value with
  | Err e => Returns (d, Some (ErrDecode e))
  | Ok r =>
      ru ← parseSourceURL (raw_URL r);
      match ru with
      | Err e => Returns (d, Some (ErrDatasourceURL (raw_URL r) e))
      | Ok u => Returns (mkDSConfig (Some u) (raw_Header r), None)
      end
  end.

End unmarshal.

(** ** Vocabulary of the statements *)

(** A merge stores into the destination map once for every entry of the
    source map: the stores succeed when the destination is not the nil map or
    the source has no entry. *)
Definition writable {V W} (dst : option (gmap string V))
    (src : option (gmap string W)) : Prop :=
  dst = None → range src = [].

(** The entries of a Go map as a finite map, the nil map having none. *)
Definition entries {V} (m : option (gmap string V)) : gmap string V :=
  default ∅ m.

(** The datasource [d] with the header [v] in place of its own. *)
Definition withHeader (v : Header) (d : DSConfig) : DSConfig :=
  mkDSConfig (URL_ d) v.

(** A segment [.] or [..], which resolving a reference removes. *)
Definition dotSegment (e : string) : bool :=
  bool_decide (e = ".") || bool_decide (e = "..").

(** No segment of the slash-separated [s] is [.] or [..]. *)
Definition noDotSegment (s : string) : bool :=
  forallb (λ e, negb (dotSegment e)) (strings.Split s "/").

Fixpoint allBytes (ok : ascii → bool) (s : string) : bool :=
  match s with
  | EmptyString => true
  | String c s => ok c && allBytes ok s
  end.

(** No byte of [s] is [sep]. *)
Definition without (sep : ascii) (s : string) : bool :=
  allBytes (λ c, negb (bool_decide (c = sep))) s.

(** A byte that is no control character and none of [?], [#], [%], which a
    URL reads as the start of the query, of the fragment and of an escape. *)
Definition plainByte (c : ascii) : bool :=
  negb ((byte c <? byte " ")%N || (byte c =? 127)%N)
  && negb (bool_decide (c ∈ ["?"; "#"; "%"]%char)).

(** There is a colon before the first slash. *)
Definition firstSegmentColon (s : string) : bool :=
  let colon := strings.Index s ":" in
  let slash := strings.Index s "/" in
  (0 <=? colon) && ((slash <? 0) || (colon <? slash)).

(** A relative path that a URL takes as it is written: plain bytes, no
    leading slash, no colon in the first segment, no [.] or [..]
    segment. *)
Definition relativePath (v : string) : bool :=
  allBytes plainByte v && negb (strings.HasPrefix v "/")
  && negb (firstSegmentColon v) && noDotSegment v.

(** A working directory that starts with a slash or with a drive letter
    and a colon, and has no [.] or [..] segment. *)
Definition rootedDir (w : string) : bool :=
  (strings.HasPrefix w "/" || bool_decide (at_ w 1 = Some ":"%char))
  && noDotSegment w.

(** How many of the values are not zero. *)
Definition howManySet (values : list iface) : nat :=
  length (filter (λ v, isZero v = false) values).

(** The number of inputs that [Validate] counts: the input files, or one
    for an inline input when there is no input file. *)
Definition inputCount (c : Config) : nat :=
  if bool_decide (InputFiles c = []) && negb (bool_decide (Input c = ""))
  then 1%nat else length (InputFiles c).

(** An octal digit, and the number that the octal digits [s] write after
    digits that wrote [n]. *)
Definition octalDigit (c : ascii) : bool := between "0" "7" c.

Fixpoint octal (n : Z) (s : string) : Z :=
  match s with
  | EmptyString => n
  | String c s => octal (8 * n + (Z.of_N (byte c) - 48)) s
  end.

(** The largest file mode: 32 bits. *)
Definition maxMode : Z := 2 ^ 32 - 1.

(** The merge of two Go maps of datasources: the entries of both, an alias
    of both with the descriptors merged. *)
Definition mergedSources (d o : DSources) : DSources :=
  (λ dm, union_with (λ c v, Some (DSConfig_mergeFrom c v)) dm (entries o))
  <$> d.

(** The stores of a list of entries into a map, the later over the
    earlier. *)
Definition stored {V} (l : list (string * V)) (m : gmap string V)
  : gmap string V :=
  foldl (λ m kv, <[kv.1 := kv.2]> m) m l.

(** The header values that the well-formed flags among [args] give to the
    header [name] of the alias [ds], in the order of the flags. *)
Definition headerValues `{!Env} (args : list string) (ds name : string)
  : list string :=
  omap (λ arg, let '(a, n, v, _) := splitHeaderArg arg in
               if bool_decide (a = ds ∧ n = name) then Some (TrimSpace v)
               else None) args.

(** The aliases of the well-formed flags among [args]. *)
Definition headerAliases `{!Env} (args : list string) : list string :=
  (λ arg, (splitHeaderArg arg).1.1.1) <$> args.

(** The plugins after a merge: in the base's map, the override's entries
    over the base's own. *)
Definition mergedPlugins (p o : option (gmap string string))
  : option (gmap string string) :=
  (λ pm, entries o ∪ pm) <$> p.

(** The names of the values that are not zero, in the order of the
    values. *)
Definition namesSet (names : list string) (values : list iface)
  : list string :=
  (filter (λ nv, isZero nv.2 = false) (zip names values)).*1.

(** The cutoff of [ParseUint] in base 8: the least number whose product
    with 8 does not fit 64 bits. *)
Definition cutoff8 : Z := strconv.maxUint64 / 8 + 1.

(** The key, the descriptor and the error that [parseDatasourceArg] makes
    of a location that resolved, or did not. *)
Definition located (key : string) (r : result error URL)
  : string * DSConfig * option error :=
  match r with
  | Ok u => (key, mkDSConfig (Some u) None, None)
  | Err e => (key, mkDSConfig None None, Some e)
  end.

(** A file name that is its own base: the root, or a name, not empty,
    without a slash. *)
Definition inWorkingDirectory (value : string) : bool :=
  bool_decide (value = "/")
  || negb (bool_decide (value = "")) && without "/" value.

(** The root [/], or a rooted path of one letter or digit. *)
Definition shortRooted (value : string) : bool :=
  match value with
  | String "/" EmptyString => true
  | String "/" (String x EmptyString) => isLetter x || isDigit x
  | _ => false
  end.

(** The values of the header [name] of the alias [ds] in the parsed
    headers [g]. *)
Definition valuesOf (g : gmap string Header) (ds name : string)
  : list string :=
  default [] (index (default None (g !! ds)) name).

(** A Go map after the stores of the flags [l]: as it was when there is
    no flag, and a map, made if it was nil, with the entries stored, the
    later over the earlier, when there is one. *)
Definition storedInto {V} (l : list (string * V))
    (m : option (gmap string V)) : option (gmap string V) :=
  match l with
  | [] => m
  | _ => Some (stored l (entries m))
  end.

(** A byte of an escaped path: one that needs no escape, or the [%] of an
    escape. *)
Definition escapedByte (c : ascii) : bool :=
  negb (url.shouldEscape c url.encodePath) || bool_decide (c = "%"%char).

(** The descriptor that [DSConfig.mergeFrom] returns, by reference: the
    URL of the override if it has one, and the header map of the receiver
    if it has one. *)
Definition mergedRef (d o : DSConfigRef) : DSConfigRef :=
  mkDSConfigRef
    (match URL_ref o with Some u => Some u | None => URL_ref d end)
    (match Header_ref d with Some a => Some a | None => Header_ref o end).

(** The addresses of the header maps that the descriptors of [m] hold. *)
Definition addresses (m : DSourcesRef) : list nat :=
  omap (λ kd, Header_ref kd.2) (range m).

(** The aliases under which [m] holds the header map at [a]. *)
Definition holders (m : DSourcesRef) (a : nat) : list string :=
  (filter (λ kd, Header_ref kd.2 = Some a) (range m)).*1.

(** The descriptor of the alias [k] in [m] holds the header map at [a]. *)
Definition held (m : DSourcesRef) (k : string) (a : nat) : bool :=
  bool_decide (index m k ≫= Header_ref = Some a).

(** The header entries that the override [o] has for the alias [k]: none
    when it has no such alias or its header map is nil. *)
Definition given (hs : headerStore) (o : DSourcesRef) (k : string)
  : gmap string (list string) :=
  entries (headerOf hs (index o k ≫= Header_ref)).

(** A descriptor read from the store: its URL and the header map that it
    holds. *)
Definition readDS (hs : headerStore) (d : DSConfigRef) : DSConfig :=
  mkDSConfig (URL_ref d) (headerOf hs (Header_ref d)).

(** A map of descriptors read from the store. *)
Definition readAll (hs : headerStore) (m : DSourcesRef) : DSources :=
  (λ g : gmap string DSConfigRef, readDS hs <$> g) <$> m.

(** ** An environment for the examples

    A Unix platform with the given working directory: paths are written
    with slashes and have no volume.  The three text functions are given
    for ASCII text: the authority of a URL is accepted when it is a plain
    host name, a header key gets its letters capitalised after the start and
    after each dash, and the ASCII white space is trimmed. *)

Definition plainHost (authority : string) : bool :=
  forallb (λ c, isLetter c || isDigit c || bool_decide (c ∈ ["."; "-"]%char))
    (list_ascii_of_string authority).

Definition validHeaderFieldByte (c : ascii) : bool :=
  isLetter c || isDigit c
  || bool_decide
       (c ∈ ["!"; "#"; "$"; "%"; "&"; "'"; "*"; "+"; "-"; "."; "^"; "_";
             "`"; "|"; "~"]%char).

Fixpoint canonicalKey (upper : bool) (s : string) : string :=
  match s with
  | EmptyString => EmptyString
  | String c s =>
      let c := if upper && between "a" "z" c then ascii_of_N (byte c - 32)
               else if negb upper && between "A" "Z" c
               then ascii_of_N (byte c + 32) else c in
      String c (canonicalKey (bool_decide (c = "-"%char)) s)
  end.

Fixpoint trimLeft (s : string) : string :=
  match s with
  | String c s' => if Ascii.is_space c then trimLeft s' else s
  | EmptyString => EmptyString
  end.

Definition unix (wd : string) : Env := {|
  Getwd := Some wd;
  ToSlash := λ path, path;
  VolumeName := λ _, "";
  parseAuthority := λ authority,
    if plainHost authority then Some (None, authority) else None;
  CanonicalHeaderKey := λ s,
    if forallb validHeaderFieldByte (list_ascii_of_string s)
    then canonicalKey true s else s;
  TrimSpace := λ s, String.rev (trimLeft (String.rev (trimLeft s))) |}.

(** A platform with drive letters and the given working directory: paths
    are written with backslashes, and the volume of a path is its drive
    letter and colon (the volumes of UNC paths are left out). *)

Fixpoint toSlash (path : string) : string :=
  match path with
  | EmptyString => EmptyString
  | String c path =>
      String (if bool_decide (c = "\"%char) then "/"%char else c)
        (toSlash path)
  end.

Definition driveName (path : string) : string :=
  match path with
  | String c (String ":" _) =>
      if isLetter c then String c ":" else ""
  | _ => ""
  end.

Definition windows (wd : string) : Env := {|
  Getwd := Some wd;
  ToSlash := toSlash;
  VolumeName := driveName;
  parseAuthority := @parseAuthority (unix wd);
  CanonicalHeaderKey := @CanonicalHeaderKey (unix wd);
  TrimSpace := @TrimSpace (unix wd) |}.

(** ** Example configurations *)

(** [inputDir: in], [outputDir: out]. *)
Definition dirConfig : Config :=
  set_OutputDir "out" (set_InputDir "in" emptyConfig).

(** [in: hello]. *)
Definition inlineConfig : Config := set_Input "hello" emptyConfig.

(** A datasource with no URL and no header. *)
Definition blankDS : DSConfig := mkDSConfig None None.



(** [execPipe: true], [postExec: [cat]] and the given files. *)
Definition pipeConfig (inputFiles outputFiles : list string) : Config :=
  set_InputFiles inputFiles
    (set_OutputFiles outputFiles
       (set_PostExec ["cat"] (set_ExecPipe true emptyConfig))).

(** The URL of a file. *)
Definition dataURL (path : string) : URL :=
  mkURL "file" "" None "" path "" false "" "".

(** The header set of the flag [-H "foo=X-Api-Key: abc123"]. *)
Definition apiKey : Header := Some {["X-Api-Key" := ["abc123"]]}.

(** The datasource [foo] at [bar/data.json] in [/home/user]. *)
Definition fooData : Config :=
  set_DataSources
    (Some {["foo" := mkDSConfig (Some (dataURL "/home/user/bar/data.json"))
                       None]})
    emptyConfig.


(** A datasource [foo] that has a header already. *)
Definition fooAccept : Config :=
  set_DataSources
    (Some {["foo" := mkDSConfig None (Some {["Accept" := ["text/plain"]]})]})
    emptyConfig.

(** [suppressEmpty: true], [pluginTimeout: 1s]. *)
Definition quietConfig : Config :=
  mkConfig "" [] "" [] [] "" "" true false [] "" "" "" None None None
    1000000000 [] None None None.

(** [inputDir: in], [outputFiles: [out.txt]]. *)
Definition fileConfig : Config :=
  set_OutputFiles ["out.txt"] (set_InputDir "in" emptyConfig).

(** [inputDir: in], [execPipe: true], [postExec: [cat]]. *)
Definition pipeDirConfig : Config := set_InputDir "in" (pipeConfig [] []).

(** The datasource [foo] with the location of [fooData] and the header of
    [fooAccept]. *)
Definition fooMerged : Config :=
  set_DataSources
    (Some {["foo" := mkDSConfig (Some (dataURL "/home/user/bar/data.json"))
                       (Some {["Accept" := ["text/plain"]]})]})
    emptyConfig.

(** The datasources [a], with a header, and [b]. *)
Definition twoSources : DSources :=
  Some {["a" := mkDSConfig None apiKey; "b" := blankDS]}.

(** The plugin [jq]. *)
Definition jqPlugin : Config :=
  set_Plugins (Some {["jq" := "/usr/bin/jq"]}) emptyConfig.

(** The header sets of the aliases [foo] and [bar]. *)
Definition twoHeaders : gmap string Header :=
  {["foo" := apiKey; "bar" := Some {["Accept" := ["text/plain"]]}]}.


(** A store of two header maps. *)
Definition twoMaps : headerStore :=
  {[0%nat := {["X-Api-Key" := ["abc123"]]};
    1%nat := {["Accept" := ["text/plain"]]}]}.

(** The alias [foo] at [path], with the header map at [a]. *)
Definition fooRef (path : string) (a : nat) : DSourcesRef :=
  Some {["foo" := mkDSConfigRef (Some (dataURL path)) (Some a)]}.

(** An override for the alias [foo]: no URL, and the header map at [a]. *)
Definition fooOver (a : nat) : DSourcesRef :=
  Some {["foo" := mkDSConfigRef None (Some a)]}.

(** The store [twoMaps] with the entries of the map at [1] stored into the
    map at [0]. *)
Definition bothHeaders : headerStore :=
  {[0%nat := {["X-Api-Key" := ["abc123"]; "Accept" := ["text/plain"]]};
    1%nat := {["Accept" := ["text/plain"]]}]}.

(** * Verification *)

(** ** Loops over maps *)

Lemma forRange_nil {S A} (body : S → A → exec S) (s : S) :
  forRange body s [] = Returns s.
Proof. reflexivity. Qed.

Lemma forRange_cons {S A} (body : S → A → exec S) (s : S) x l :
  forRange body s (x :: l) = body s x ≫= λ s, forRange body s l.
Proof. reflexivity. Qed.

Lemma range_nil_len {V} (m : option (gmap string V)) :
  range m = [] ↔ len m = 0%nat.
Proof.
  destruct m as [g|]; simpl; [|done].
  by rewrite map_to_list_empty_iff, map_size_empty_iff.
Qed.

Lemma range_nil_entries {V} (m : option (gmap string V)) :
  range m = [] → entries m = ∅.
Proof.
  destruct m as [g|]; simpl; [|done]. by rewrite map_to_list_empty_iff.
Qed.

Lemma range_entries {V} (m : option (gmap string V)) :
  range m = map_to_list (entries m).
Proof. destruct m; simpl; [done|]. by rewrite map_to_list_empty. Qed.

Lemma DSources_mergeFrom_Some (dm : gmap string DSConfig) o :
  ∃ dm', DSources_mergeFrom (Some dm) o = Returns (Some dm').
Proof.
  unfold DSources_mergeFrom. generalize (range o) as l. intros l.
  revert dm. induction l as [|kv l IH]; intros dm; [by eexists|].
  rewrite forRange_cons. unfold DSources_mergeFrom_step. simpl.
  destruct (dm !! kv.1); simpl; apply IH.
Qed.

Lemma DSources_mergeFrom_writable d o :
  writable d o → ∃ d', DSources_mergeFrom d o = Returns d'.
Proof.
  destruct d as [dm|]; intros Hw.
  - destruct (DSources_mergeFrom_Some dm o) as [dm' ->]. by eexists.
  - unfold DSources_mergeFrom. rewrite Hw by done. by eexists.
Qed.

Lemma store_loop_Some {V} (pm : gmap string V) l :
  forRange (λ ps kv, store ps kv.1 kv.2) (Some pm) l
  = Returns (Some (foldl (λ m kv, <[kv.1 := kv.2]> m) pm l)).
Proof.
  revert pm. induction l as [|kv l IH]; intros pm; [done|].
  rewrite forRange_cons. simpl. apply IH.
Qed.

Lemma store_loop_None {V} (l : list (string * V)) :
  l ≠ [] → forRange (λ ps kv, store ps kv.1 kv.2) None l = Panics.
Proof. by destruct l. Qed.

Lemma foldl_insert_union {V} (pm : gmap string V) l :
  NoDup l.*1 →
  foldl (λ m kv, <[kv.1 := kv.2]> m) pm l = list_to_map l ∪ pm.
Proof.
  revert pm. induction l as [|[k v] l IH]; intros pm Hnd; simpl.
  - by rewrite (left_id_L ∅ (∪)).
  - apply NoDup_cons in Hnd as [Hk Hnd]. rewrite IH by done.
    rewrite <-insert_union_l, <-insert_union_r; [done|].
    by apply not_elem_of_list_to_map_1.
Qed.

Lemma store_loop_union {V} (pm : gmap string V) (o : option (gmap string V)) :
  forRange (λ ps kv, store ps kv.1 kv.2) (Some pm) (range o)
  = Returns (Some (entries o ∪ pm)).
Proof.
  rewrite store_loop_Some, range_entries, foldl_insert_union.
  - by rewrite list_to_map_to_list.
  - apply NoDup_fst_map_to_list.
Qed.

(** ** Merging *)

Lemma set_DataSources_id c : set_DataSources (DataSources c) c = c.
Proof. by destruct c. Qed.

Lemma set_Context_id c : set_Context (Context c) c = c.
Proof. by destruct c. Qed.

Lemma mergeFields_empty c : mergeFields c emptyConfig = c.
Proof. reflexivity. Qed.

Lemma when_frame {B} (proj : Config → B) b f c :
  (∀ c, proj (f c) = proj c) → proj (when b f c) = proj c.
Proof. intros Hf. unfold when. by destruct b. Qed.

(** The maps of a configuration: what [mergeFields] leaves alone. *)
Lemma mergeInputs_maps c o :
  DataSources (mergeInputs c o) = DataSources c
  ∧ Context (mergeInputs c o) = Context c
  ∧ Plugins (mergeInputs c o) = Plugins c.
Proof. destruct c. unfold mergeInputs. by repeat case_match. Qed.

Lemma mergeFields_maps c o :
  DataSources (mergeFields c o) = DataSources c
  ∧ Context (mergeFields c o) = Context c
  ∧ Plugins (mergeFields c o) = Plugins c.
Proof.
  destruct (mergeInputs_maps c o) as (Hd & Hc & Hp).
  unfold mergeFields. cbv zeta.
  split_and!; repeat (rewrite when_frame; [|by intros []]); done.
Qed.

(** [MergeFrom] returns when every store it makes finds a map, and then
    its result is the merge of the fields with the three maps replaced. *)
Lemma MergeFrom_Returns c o :
  writable (DataSources c) (DataSources o) →
  writable (Context c) (Context o) →
  writable (Plugins c) (Plugins o) →
  ∃ ds cx ps,
    MergeFrom c o
    = Returns (set_Plugins ps (set_Context cx (set_DataSources ds
                 (mergeFields c o))))
    ∧ ps = match Plugins c with
           | Some pm => Some (entries (Plugins o) ∪ pm)
           | None => None
           end.
Proof.
  intros Hd Hc Hp. unfold MergeFrom.
  destruct (mergeFields_maps c o) as (Ed & Ec & Ep).
  set (c1 := mergeFields c o) in *. clearbody c1.
  rewrite Ed. destruct (DSources_mergeFrom_writable _ _ Hd) as [ds ->].
  simpl. replace (Context (set_DataSources ds c1)) with (Context c)
    by (by destruct c1).
  destruct (DSources_mergeFrom_writable _ _ Hc) as [cx ->]. simpl.
  replace (Plugins (set_Context cx (set_DataSources ds c1)))
    with (Plugins c) by (by destruct c1).
  exists ds, cx. case_bool_decide as Hlen.
  - destruct (Plugins c) as [pm|] eqn:Epm.
    + rewrite store_loop_union. simpl. by eexists.
    + specialize (Hp eq_refl). apply range_nil_len in Hp. lia.
  - assert (range (Plugins o) = []) as Hnil
      by (apply range_nil_len; lia).
    exists (Plugins c). split.
    + f_equal. destruct c1; simpl in *. by subst.
    + destruct (Plugins c); [|done].
      by rewrite (range_nil_entries _ Hnil), (left_id_L ∅ (∪)).
Qed.

(** C1: merging the empty configuration into [c] returns [c] with every
    field as it was: the all-zero override is a no-op. *)
Theorem MergeFrom_emptyConfig (c : Config) :
  MergeFrom c emptyConfig = Returns c.
Proof.
  unfold MergeFrom. rewrite mergeFields_empty. simpl.
  unfold DSources_mergeFrom. simpl.
  by rewrite set_DataSources_id, set_Context_id.
Qed.

Lemma mergeInputs_OutputDir c o :
  OutputDir (mergeInputs c o)
  = if decide (Input o ≠ ""
               ∨ (InputDir o = "" ∧ InputFiles o ≠ []
                  ∧ InputFiles o ≠ ["-"]))
    then "" else OutputDir c.
Proof.
  destruct c. unfold mergeInputs.
  destruct (Input o) as [|a i]; simpl;
    [destruct (InputDir o) as [|b d]; simpl;
       [destruct (InputFiles o) as [|f [|g fs]]; simpl|]|];
    try (case_bool_decide as Hf; simpl; simplify_eq);
    try case_decide; naive_solver.
Qed.

Lemma mergeFields_OutputDir c o :
  OutputDir o = "" → OutputFiles o = [] → OutputMap o = "" →
  ExecPipe o = false →
  OutputDir (mergeFields c o) = OutputDir (mergeInputs c o).
Proof.
  intros Hd Hf Hm He. unfold mergeFields. cbv zeta.
  rewrite Hd, Hf, Hm, He. simpl.
  by repeat (rewrite when_frame; [|by intros []]).
Qed.

(** C4 (amended): with an override whose output fields and [ExecPipe] are
    zero (and maps that can take the override's entries), [MergeFrom]
    returns, and it leaves the base's [OutputDir] as it was when the
    override has no inline [Input] and either has an [InputDir] or has
    [InputFiles] that are empty or exactly [["-"]]; when the override has an
    inline [Input], or has no [InputDir] and [InputFiles] other than
    [["-"]], the input rule also clears the base's [OutputDir]. *)
Theorem MergeFrom_OutputDir (c o : Config) :
  OutputDir o = "" → OutputFiles o = [] → OutputMap o = "" →
  ExecPipe o = false →
  writable (DataSources c) (DataSources o) →
  writable (Context c) (Context o) →
  writable (Plugins c) (Plugins o) →
  ∃ c', MergeFrom c o = Returns c'
    ∧ (Input o = "" →
       InputDir o ≠ "" ∨ InputFiles o = [] ∨ InputFiles o = ["-"] →
       OutputDir c' = OutputDir c)
    ∧ (Input o ≠ ""
       ∨ (InputDir o = "" ∧ InputFiles o ≠ [] ∧ InputFiles o ≠ ["-"]) →
       OutputDir c' = "").
Proof.
  intros Hd Hf Hm He Wd Wc Wp.
  destruct (MergeFrom_Returns c o Wd Wc Wp) as (ds & cx & ps & -> & _).
  eexists. split; [done|].
  assert (OutputDir (set_Plugins ps (set_Context cx (set_DataSources ds
            (mergeFields c o)))) = OutputDir (mergeInputs c o)) as ->.
  { rewrite <-mergeFields_OutputDir by done. by destruct (mergeFields c o). }
  rewrite mergeInputs_OutputDir. split.
  - intros Hi Hrest. case_decide; [|done]. naive_solver.
  - intros Hclear. by case_decide.
Qed.

(** The theorem at [in: hello] merged into [inputDir: in, outputDir: out]. *)
Lemma MergeFrom_OutputDir_witness :
  ∃ c', MergeFrom dirConfig inlineConfig = Returns c'
    ∧ (Input inlineConfig = "" →
       InputDir inlineConfig ≠ "" ∨ InputFiles inlineConfig = []
       ∨ InputFiles inlineConfig = ["-"] →
       OutputDir c' = OutputDir dirConfig)
    ∧ (Input inlineConfig ≠ ""
       ∨ (InputDir inlineConfig = "" ∧ InputFiles inlineConfig ≠ []
          ∧ InputFiles inlineConfig ≠ ["-"]) →
       OutputDir c' = "").
Proof.
  apply (MergeFrom_OutputDir dirConfig inlineConfig);
    solve [reflexivity | intros _; reflexivity].
Defined.

(** C4, as stated, fails: the override [in: hello] has zero [OutputDir],
    [OutputFiles], [OutputMap] and [ExecPipe], and merging it into
    [inputDir: in, outputDir: out] clears [OutputDir]. *)
Lemma MergeFrom_OutputDir_counterexample :
  OutputDir inlineConfig = "" ∧ OutputFiles inlineConfig = []
  ∧ OutputMap inlineConfig = "" ∧ ExecPipe inlineConfig = false
  ∧ OutputDir dirConfig = "out"
  ∧ MergeFrom dirConfig inlineConfig = Returns inlineConfig
  ∧ OutputDir inlineConfig ≠ OutputDir dirConfig.
Proof. by split_and!. Qed.




(** ** Validation *)

Lemma ifNil_None err next :
  ifNil err next = None ↔ err = None ∧ next = None.
Proof. destruct err; naive_solver. Qed.

(** With [ExecPipe], what [Validate] asks of the output files is that the
    first one, if there is one, is ["-"]. *)
Lemma Validate_execPipe_first_output (c : Config) :
  ExecPipe c = true → Validate c = None →
  OutputFiles c !! 0%nat = None ∨ OutputFiles c !! 0%nat = Some "-".
Proof.
  intros Hpipe. unfold Validate. rewrite !ifNil_None, Hpipe.
  intros (_ & Hlast). cbn [andb] in Hlast.
  destruct (OutputFiles c) as [|f fs]; [by left|right].
  simpl in *. by case_bool_decide.
Qed.

(** C3: the configuration [execPipe: true, postExec: [cat],
    outputFiles: ["-", "x"]] has [ExecPipe] set and output files that are
    neither none nor just ["-"], and [Validate] accepts it: its last check
    reads only the first output file. *)
Theorem Validate_execPipe_second_output :
  ExecPipe (pipeConfig [] ["-"; "x"]) = true
  ∧ OutputFiles (pipeConfig [] ["-"; "x"]) = ["-"; "x"]
  ∧ Validate (pipeConfig [] ["-"; "x"]) = None.
Proof. split_and!; reflexivity. Qed.

(** C6 (amended): a configuration with two input files and one output
    file is rejected when [ExecPipe] is false; when [ExecPipe] is true the
    count of files is not checked, and the configuration is accepted
    exactly when the other checks pass: no inline input, no input
    directory, no output directory, no output map, a post-exec command, and
    ["-"] as the output file. *)
Theorem Validate_two_inputs_one_output (c : Config) :
  length (InputFiles c) = 2%nat → length (OutputFiles c) = 1%nat →
  (ExecPipe c = false → Validate c ≠ None)
  ∧ (ExecPipe c = true →
     Validate c = None
     ↔ Input c = "" ∧ InputDir c = "" ∧ OutputDir c = ""
       ∧ OutputMap c = "" ∧ PostExec c ≠ [] ∧ OutputFiles c = ["-"]).
Proof.
  destruct c as [i ifs id eg ofs od om se ep pe omo ld rd dss cx pl pt tp eh
                 pei ow]; simpl.
  intros Hin Hout.
  destruct ifs as [|f1 [|f2 [|]]]; simplify_eq/=.
  destruct ofs as [|x [|]]; simplify_eq/=.
  split; intros ->.
  - destruct i, id, od, om; done.
  - destruct i, id, od, om, pe; unfold Validate; simpl;
      try case_bool_decide; naive_solver.
Qed.

(** The theorem at two input files piped to a command. *)
Lemma Validate_two_inputs_one_output_witness :
  (ExecPipe (pipeConfig ["a"; "b"] ["-"]) = false →
   Validate (pipeConfig ["a"; "b"] ["-"]) ≠ None)
  ∧ (ExecPipe (pipeConfig ["a"; "b"] ["-"]) = true →
     Validate (pipeConfig ["a"; "b"] ["-"]) = None
     ↔ Input (pipeConfig ["a"; "b"] ["-"]) = ""
       ∧ InputDir (pipeConfig ["a"; "b"] ["-"]) = ""
       ∧ OutputDir (pipeConfig ["a"; "b"] ["-"]) = ""
       ∧ OutputMap (pipeConfig ["a"; "b"] ["-"]) = ""
       ∧ PostExec (pipeConfig ["a"; "b"] ["-"]) ≠ []
       ∧ OutputFiles (pipeConfig ["a"; "b"] ["-"]) = ["-"]).
Proof.
  apply (Validate_two_inputs_one_output (pipeConfig ["a"; "b"] ["-"]));
    reflexivity.
Defined.

(** C6, as stated, fails: with [ExecPipe] true, two input files and the
    one output file [out], the configuration is rejected. *)
Lemma Validate_two_inputs_one_output_counterexample :
  length (InputFiles (pipeConfig ["a"; "b"] ["out"])) = 2%nat
  ∧ length (OutputFiles (pipeConfig ["a"; "b"] ["out"])) = 1%nat
  ∧ ExecPipe (pipeConfig ["a"; "b"] ["out"]) = true
  ∧ Validate (pipeConfig ["a"; "b"] ["out"]) = Some ErrExecPipeOutputFiles.
Proof. by split_and!. Qed.

(** ** Defaults *)

Lemma newBuffer_lookup (h : Heap) : (h ++ [""]) !! length h = Some "".
Proof. by rewrite lookup_app_r, Nat.sub_diag by lia. Qed.

(** [ApplyDefaults] field by field. *)
Lemma ApplyDefaults_mkConfig i ifs id eg ofs od om se ep pe omo ld rd dss cx
    pl pt tp eh pei ow (h : Heap) :
  ApplyDefaults
    (mkConfig i ifs id eg ofs od om se ep pe omo ld rd dss cx pl pt tp eh
       pei ow) h =
  let od' := if negb (bool_decide (id = "")) && bool_decide (od = "")
                && bool_decide (om = "") then "." else od in
  let ifs' := if bool_decide (i = "") && bool_decide (id = "")
                 && bool_decide (length ifs = 0%nat) then ["-"] else ifs in
  let ofs' := if ep then ["-"]
              else if bool_decide (od' = "") && bool_decide (om = "")
                      && bool_decide (length ofs = 0%nat)
              then ["-"] else ofs in
  (mkConfig i ifs' id eg ofs' od' om se ep pe omo
     (if bool_decide (ld = "") then "{{" else ld)
     (if bool_decide (rd = "") then "}}" else rd)
     dss cx pl (if bool_decide (pt = 0) then fiveSeconds else pt) tp eh
     (Some (if ep then Buffer (length h) else Stdin))
     (Some (if ep then Buffer (length h) else Stdout)),
   if ep then h ++ [""] else h).
Proof. destruct i, ifs, id, ofs, od, om, ep, ld, rd, pt; reflexivity. Qed.

(** C5: applying [ApplyDefaults] to the configuration and heap that
    [ApplyDefaults] produced gives a configuration observably equal to the
    one it was applied to: the same data, the same standard streams or an
    empty buffer where there was an empty buffer, shared in the same way. *)
Theorem ApplyDefaults_idempotent (c : Config) (h : Heap) :
  observablyEqual
    (ApplyDefaults (ApplyDefaults c h).1 (ApplyDefaults c h).2)
    (ApplyDefaults c h).
Proof.
  destruct c as [i ifs id eg ofs od om se ep pe omo ld rd dss cx pl pt tp eh
                 pei ow].
  rewrite (ApplyDefaults_mkConfig i). cbv zeta. cbn [fst snd].
  rewrite ApplyDefaults_mkConfig. cbv zeta.
  unfold observablyEqual.
  cbn [set_PostExecInput set_OutWriter PostExecInput OutWriter].
  split; [f_equal|].
  1-6: try destruct ep; try done;
    repeat (case_bool_decide; simplify_eq/=; try done).
  destruct ep; simpl; [|done].
  rewrite !newBuffer_lookup. by split_and!.
Qed.

(** ** The output file mode *)

(** C8: with no [OutMode] and an inline [Input], [GetMode] returns the
    mode 0644 (decimal 420), no override, and no error. *)
Theorem GetMode_inline_default (c : Config) :
  OutMode c = "" → Input c ≠ "" →
  GetMode c = (mode0644, false, None) ∧ mode0644 = 420.
Proof.
  intros Hm Hi. unfold GetMode. rewrite Hm. simpl.
  by rewrite bool_decide_false.
Qed.

(** The theorem at [in: hello]. *)
Lemma GetMode_inline_default_witness :
  GetMode inlineConfig = (mode0644, false, None) ∧ mode0644 = 420.
Proof. by apply (GetMode_inline_default inlineConfig). Defined.

(** * Datasource locations *)

(** ** Strings *)

Lemma app_cons_s x (a b : string) : String x a +:+ b = String x (a +:+ b).
Proof. reflexivity. Qed.

Lemma app_assoc_s (a b c : string) : (a +:+ b) +:+ c = a +:+ (b +:+ c).
Proof.
  induction a as [|x a IH]; [done|]. by rewrite !app_cons_s, IH.
Qed.

Lemma app_nil_r_s (a : string) : a +:+ "" = a.
Proof. induction a as [|x a IH]; [done|]. by rewrite app_cons_s, IH. Qed.

Lemma sliceTo_app (a b : string) : sliceTo (a +:+ b) (String.length a) = a.
Proof.
  induction a as [|x a IH]; [by destruct b|].
  rewrite app_cons_s. simpl. by rewrite IH.
Qed.

Lemma length_app_s (a b : string) :
  String.length (a +:+ b) = (String.length a + String.length b)%nat.
Proof.
  induction a as [|x a IH]; [done|]. rewrite app_cons_s. simpl.
  by rewrite IH.
Qed.

Lemma allBytes_impl (P Q : ascii → bool) s :
  (∀ c, P c = true → Q c = true) →
  allBytes P s = true → allBytes Q s = true.
Proof.
  intros HPQ. induction s as [|c s IH]; simpl; [done|].
  intros [Hc Hs]%andb_prop. by rewrite (HPQ _ Hc), IH.
Qed.

Lemma allBytes_cons P c s :
  allBytes P (String c s) = true ↔ P c = true ∧ allBytes P s = true.
Proof. simpl. by rewrite andb_true_iff. Qed.

Lemma without_cons sep c s :
  without sep (String c s) = true ↔ c ≠ sep ∧ without sep s = true.
Proof.
  unfold without. simpl. rewrite andb_true_iff, negb_true_iff.
  by rewrite bool_decide_eq_false.
Qed.

Lemma Index_absent s sep : without sep s = true → strings.Index s sep = -1.
Proof.
  induction s as [|c s IH]; [done|]. intros [Hc Hs]%without_cons. simpl.
  by rewrite bool_decide_false, IH.
Qed.

Lemma Count_absent s sep :
  without sep s = true → strings.Count s sep = 0%nat.
Proof.
  induction s as [|c s IH]; [done|]. intros [Hc Hs]%without_cons. simpl.
  by rewrite bool_decide_false, IH.
Qed.

Lemma LastIndex_app_sep a sep :
  strings.LastIndex (a +:+ String sep "") sep = Z.of_nat (String.length a).
Proof.
  induction a as [|x a IH].
  - simpl. by rewrite bool_decide_true.
  - rewrite app_cons_s. simpl. rewrite IH. case_match; lia.
Qed.

(** ** Splitting and joining *)

Lemma Split_nonempty s sep : strings.Split s sep ≠ [].
Proof. induction s as [|c s IH]; simpl; [done|]. by repeat case_match. Qed.

Lemma Split_app_sep a b sep :
  strings.Split (a +:+ String sep b) sep
  = strings.Split a sep ++ strings.Split b sep.
Proof.
  induction a as [|c a IH].
  - simpl. by rewrite bool_decide_true.
  - rewrite app_cons_s. simpl. rewrite IH. case_bool_decide; [done|].
    pose proof (Split_nonempty a sep).
    by destruct (strings.Split a sep).
Qed.

Lemma Join_cons e elems sep :
  elems ≠ [] →
  strings.Join (e :: elems) sep = e +:+ sep +:+ strings.Join elems sep.
Proof. by destruct elems. Qed.

Lemma Join_Split s sep :
  strings.Join (strings.Split s sep) (String sep "") = s.
Proof.
  induction s as [|c s IH]; [done|]. simpl. case_bool_decide as Hc.
  - rewrite Join_cons by apply Split_nonempty. by rewrite IH, Hc.
  - pose proof (Split_nonempty s sep).
    destruct (strings.Split s sep) as [|piece [|p pieces]]; [done| |].
    + simpl in *. by rewrite IH.
    + rewrite Join_cons in * by done. by rewrite app_cons_s, IH.
Qed.

(** ** Resolving paths *)

Lemma resolveSegments_plain dst src :
  forallb (λ e, negb (dotSegment e)) src = true →
  url.resolveSegments dst src = dst ++ src.
Proof.
  revert dst. induction src as [|e src IH]; intros dst Hsrc; simpl.
  - by rewrite app_nil_r.
  - simpl in Hsrc. apply andb_prop in Hsrc as [He Hsrc].
    apply negb_true_iff, orb_false_elim in He as [He1 He2].
    rewrite He1, He2, IH by done. by rewrite <-app_assoc.
Qed.

Lemma last_plain src :
  forallb (λ e, negb (dotSegment e)) src = true →
  match last src with
  | Some l => bool_decide (l = ".") || bool_decide (l = "..") = false
  | None => True
  end.
Proof.
  intros Hsrc. destruct (last src) as [l|] eqn:El; [|done].
  apply last_Some_elem_of in El.
  rewrite forallb_forall in Hsrc. apply list_elem_of_In, Hsrc in El.
  by apply negb_true_iff in El.
Qed.

(** A path with a slash-terminated base and a plain reference resolves to
    the two put together, behind one slash. *)
Lemma resolvePath_plain base e :
  noDotSegment base = true → noDotSegment e = true →
  (e = "" ∨ strings.HasPrefix e "/" = false) →
  url.resolvePath (base +:+ "/") e
  = "/" +:+ strings.TrimPrefix (base +:+ "/" +:+ e) "/".
Proof.
  intros Hb He Hrel. unfold url.resolvePath.
  assert ((if bool_decide (e = "") then base +:+ "/"
           else if negb (bool_decide (at_ e 0 = Some "/"%char))
                then sliceTo (base +:+ "/")
                       (Z.to_nat (strings.LastIndex (base +:+ "/") "/" + 1))
                     +:+ e
                else e) = base +:+ "/" +:+ e) as ->.
  { case_bool_decide as Hnil; [subst; by rewrite app_nil_r_s|].
    destruct Hrel as [?|Hrel]; [done|].
    destruct e as [|c e]; [done|]. simpl in Hrel.
    rewrite andb_true_r in Hrel. apply bool_decide_eq_false in Hrel.
    rewrite bool_decide_false by (simpl; congruence). simpl.
    rewrite LastIndex_app_sep.
    replace (Z.to_nat (Z.of_nat (String.length base) + 1))
      with (String.length (base +:+ "/"))
      by (rewrite length_app_s; simpl; lia).
    rewrite <-(app_nil_r_s (base +:+ "/")) at 1.
    by rewrite sliceTo_app, app_assoc_s. }
  rewrite bool_decide_false by (by destruct base).
  cbv zeta. change ("/" +:+ e) with (String "/"%char e).
  rewrite Split_app_sep.
  assert (forallb (λ e, negb (dotSegment e))
            (strings.Split base "/" ++ strings.Split e "/") = true) as Hall.
  { rewrite forallb_app. unfold noDotSegment in *. by rewrite Hb, He. }
  rewrite resolveSegments_plain by done. simpl.
  pose proof (last_plain _ Hall) as Hlast.
  destruct (last _) as [l|]; [rewrite Hlast|];
    by rewrite <-Split_app_sep, Join_Split.
Qed.

(** ** Escaping *)

Lemma unescape_cons c rest mode :
  c ≠ "%"%char →
  url.unescape (String c rest) mode
  = match url.unescape rest mode with
    | Ok t => Ok (String c t)
    | Err e => Err e
    end.
Proof. destruct c as [[] [] [] [] [] [] [] []]; done. Qed.

Lemma unescape_percent a b rest mode :
  url.ishex a = true → url.ishex b = true →
  url.unescape (String "%" (String a (String b rest))) mode
  = match url.unescape rest mode with
    | Ok t => Ok (String (ascii_of_N (url.unhex a * 16 + url.unhex b)) t)
    | Err e => Err e
    end.
Proof. intros Ha Hb. simpl. by rewrite Ha, Hb. Qed.

(** The two digits [escape] writes for a byte are hexadecimal digits, are
    not slashes, and denote the byte. *)
Lemma hex_roundtrip c :
  let hi := url.upperhex (N.shiftr (byte c) 4) in
  let lo := url.upperhex (N.land (byte c) 15) in
  url.ishex hi = true ∧ url.ishex lo = true
  ∧ ascii_of_N (url.unhex hi * 16 + url.unhex lo) = c
  ∧ hi ≠ "/"%char ∧ lo ≠ "/"%char.
Proof. destruct c as [[] [] [] [] [] [] [] []]; by vm_compute. Qed.

Lemma shouldEscape_false_ne c :
  url.shouldEscape c url.encodePath = false → c ≠ "%"%char.
Proof. by intros Hc ->. Qed.

Lemma unescape_escape_app x t :
  url.unescape (url.escape x url.encodePath +:+ t) url.encodePath
  = match url.unescape t url.encodePath with
    | Ok t' => Ok (x +:+ t')
    | Err e => Err e
    end.
Proof.
  induction x as [|c x IH].
  { change (url.escape "" url.encodePath +:+ t) with t.
    by destruct (url.unescape t _). }
  simpl url.escape. destruct (url.shouldEscape c _) eqn:Hc.
  - destruct (hex_roundtrip c) as (Hhi & Hlo & Hbyte & _).
    rewrite !app_cons_s, unescape_percent, IH, Hbyte by done.
    by destruct (url.unescape t _).
  - rewrite app_cons_s, unescape_cons, IH by (by apply shouldEscape_false_ne).
    by destruct (url.unescape t _).
Qed.

Lemma unescape_escape x :
  url.unescape (url.escape x url.encodePath) url.encodePath = Ok x.
Proof.
  rewrite <-(app_nil_r_s (url.escape _ _)), unescape_escape_app. simpl.
  by rewrite app_nil_r_s.
Qed.

Lemma unescape_plain v mode :
  without "%" v = true → url.unescape v mode = Ok v.
Proof.
  induction v as [|c v IH]; [done|]. intros [Hc Hv]%without_cons.
  by rewrite unescape_cons, IH.
Qed.

Lemma escape_app a b mode :
  url.escape (a +:+ b) mode = url.escape a mode +:+ url.escape b mode.
Proof.
  induction a as [|c a IH]; [done|]. rewrite app_cons_s. simpl.
  rewrite IH. by destruct (url.shouldEscape c mode).
Qed.

Lemma Split_cons_ne c s sep :
  c ≠ sep →
  strings.Split (String c s) sep
  = match strings.Split s sep with
    | piece :: pieces => String c piece :: pieces
    | [] => [String c ""]
    end.
Proof. intros Hc. simpl. by rewrite bool_decide_false. Qed.

Lemma Split_escape s :
  strings.Split (url.escape s url.encodePath) "/"
  = (λ e, url.escape e url.encodePath) <$> strings.Split s "/".
Proof.
  induction s as [|c s IH]; [done|].
  destruct (decide (c = "/"%char)) as [->|Hc].
  - simpl. by rewrite IH.
  - rewrite (Split_cons_ne c s) by done.
    pose proof (Split_nonempty s "/") as Hne.
    destruct (strings.Split s "/") as [|piece pieces]; [done|].
    simpl url.escape. destruct (url.shouldEscape c _) eqn:Hesc.
    + destruct (hex_roundtrip c) as (_ & _ & _ & Hhi & Hlo).
      rewrite !Split_cons_ne, IH by done. simpl. by rewrite Hesc.
    + rewrite Split_cons_ne, IH by done. simpl. by rewrite Hesc.
Qed.

Lemma escape_nil_inv e mode : url.escape e mode = "" → e = "".
Proof. destruct e as [|c e]; [done|]. simpl. by case_match. Qed.

Lemma shouldEscape_dot : url.shouldEscape "." url.encodePath = false.
Proof. reflexivity. Qed.

Lemma escape_dot_iff e :
  url.escape e url.encodePath = "." ↔ e = ".".
Proof.
  split; [|by intros ->].
  destruct e as [|c e]; [done|]. simpl.
  destruct (url.shouldEscape c _) eqn:Hc; [done|].
  intros [= -> He]. by rewrite (escape_nil_inv _ _ He).
Qed.

Lemma escape_dotdot_iff e :
  url.escape e url.encodePath = ".." ↔ e = "..".
Proof.
  split; [|by intros ->].
  destruct e as [|c e]; [done|]. simpl.
  destruct (url.shouldEscape c _) eqn:Hc; [done|].
  intros [= -> He]. f_equal. by apply escape_dot_iff.
Qed.

Lemma dotSegment_escape e :
  dotSegment (url.escape e url.encodePath) = dotSegment e.
Proof.
  unfold dotSegment.
  by rewrite (bool_decide_ext _ _ (escape_dot_iff e)),
    (bool_decide_ext _ _ (escape_dotdot_iff e)).
Qed.

Lemma noDotSegment_escape s :
  noDotSegment (url.escape s url.encodePath) = noDotSegment s.
Proof.
  unfold noDotSegment. rewrite Split_escape.
  induction (strings.Split s "/") as [|e l IH]; [done|].
  rewrite fmap_cons. cbn [forallb]. by rewrite dotSegment_escape, IH.
Qed.

Lemma escape_relative v :
  strings.HasPrefix v "/" = false →
  strings.HasPrefix (url.escape v url.encodePath) "/" = false.
Proof.
  destruct v as [|c v]; [done|]. simpl.
  rewrite !andb_true_r. intros Hc%bool_decide_eq_false.
  destruct (url.shouldEscape c _); simpl; [done|].
  by rewrite andb_true_r, bool_decide_false.
Qed.

(** ** Parsing a relative path *)

Lemma Index_ge s sep : -1 ≤ strings.Index s sep.
Proof.
  induction s as [|c s IH]; simpl; [done|]. repeat case_match; lia.
Qed.

Lemma firstSegmentColon_cons c s :
  c ≠ ":"%char → c ≠ "/"%char →
  firstSegmentColon (String c s) = firstSegmentColon s.
Proof.
  intros Hc Hs. unfold firstSegmentColon. simpl.
  rewrite !bool_decide_false by done.
  pose proof (Index_ge s ":"). pose proof (Index_ge s "/").
  apply eq_iff_eq_true.
  rewrite !andb_true_iff, !orb_true_iff, !Z.leb_le, !Z.ltb_lt.
  repeat case_match; lia.
Qed.

Lemma firstSegmentColon_colon s : firstSegmentColon (String ":" s) = true.
Proof.
  unfold firstSegmentColon. simpl. pose proof (Index_ge s "/").
  rewrite orb_true_iff, !Z.ltb_lt. case_match; lia.
Qed.

Lemma getscheme_none rest :
  firstSegmentColon rest = false →
  ∀ rawurl i, url.getscheme_loop rawurl i rest = Ok ("", rawurl).
Proof.
  induction rest as [|c rest IH]; intros Hrest rawurl i; [done|]. simpl.
  destruct (isLetter c) eqn:Hl.
  { apply IH. rewrite <-Hrest. symmetry.
    apply firstSegmentColon_cons; by intros ->. }
  destruct (isDigit c || _) eqn:Hd.
  { destruct (bool_decide (i = 0%nat)); [done|].
    apply IH. rewrite <-Hrest. symmetry.
    apply firstSegmentColon_cons; by intros ->. }
  destruct (decide (c = ":"%char)) as [->|Hc];
    [|by rewrite bool_decide_false].
  by rewrite firstSegmentColon_colon in Hrest.
Qed.

Lemma plainByte_without sep s :
  plainByte sep = false → allBytes plainByte s = true →
  without sep s = true.
Proof.
  intros Hsep. apply allBytes_impl. intros c Hc.
  apply negb_true_iff, bool_decide_eq_false. by intros ->; congruence.
Qed.

Lemma plainByte_noCTL s :
  allBytes plainByte s = true → url.stringContainsCTLByte s = false.
Proof.
  induction s as [|c s IH]; [done|]. intros [Hc Hs]%allBytes_cons. simpl.
  rewrite IH, orb_false_r by done.
  unfold plainByte in Hc. apply andb_prop in Hc as [Hc _].
  by apply negb_true_iff in Hc.
Qed.

Lemma split_absent s sep cutc :
  without sep s = true → url.split s sep cutc = (s, "").
Proof. intros Hs. unfold url.split. by rewrite Index_absent. Qed.

Section relative.
Context `{!Env}.

(** A relative path parses as a URL that is only a path. *)
Lemma Parse_relative v :
  relativePath v = true →
  ∃ r, url.Parse v = Ok (mkURL "" "" None "" v r false "" "")
       ∧ (r = "" ∨ r = v).
Proof.
  unfold relativePath. rewrite !andb_true_iff, !negb_true_iff.
  intros [[[Hplain Hrel] Hcolon] _].
  unfold url.Parse.
  rewrite split_absent by (by apply plainByte_without).
  unfold url.parse.
  rewrite plainByte_noCTL, andb_false_r by done.
  case_bool_decide as Hstar.
  { subst. exists "". by split; [|left]. }
  unfold url.getscheme. rewrite getscheme_none by done.
  rewrite Count_absent by (by apply plainByte_without).
  rewrite (bool_decide_false (0 = 1)%nat), andb_false_r by done.
  rewrite split_absent by (by apply plainByte_without).
  cbn -[strings.Index strings.HasPrefix url.setPath].
  rewrite Hrel. cbn -[strings.Index strings.HasPrefix url.setPath].
  unfold firstSegmentColon in Hcolon. cbv zeta in Hcolon.
  rewrite Hcolon.
  assert (strings.HasPrefix v "//" = false) as ->.
  { destruct v as [|c v]; [done|]. simpl in *.
    rewrite andb_true_r in Hrel. by rewrite Hrel. }
  rewrite andb_false_r. unfold url.setPath.
  rewrite unescape_plain by (by apply plainByte_without).
  destruct (bool_decide (v = url.escape v url.encodePath)); simpl;
    eexists; (split; [reflexivity|]); eauto.
Qed.

End relative.

(** ** Resolving a relative path *)

Lemma EscapedPath_relative v r :
  r = "" ∨ r = v →
  let e := url.EscapedPath (mkURL "" "" None "" v r false "" "") in
  e = v ∨ e = url.escape v url.encodePath.
Proof.
  intros Hr. unfold url.EscapedPath. simpl.
  destruct (negb _ && _ && _) eqn:Hraw.
  - destruct Hr as [->| ->]; [|by left].
    by rewrite (bool_decide_true ("" = "")) in Hraw.
  - destruct (decide (v = "*")) as [->|Hv]; [by left|].
    rewrite bool_decide_false by done. by right.
Qed.

Lemma EscapedPath_base w :
  url.EscapedPath (mkURL "file" "" None "" (w +:+ "/") "" false "" "")
  = url.escape w url.encodePath +:+ "/".
Proof.
  unfold url.EscapedPath. simpl.
  rewrite bool_decide_false by (by destruct w as [|c [|d w]]).
  by rewrite escape_app.
Qed.

Lemma setPath_Ok u p path :
  url.unescape p url.encodePath = Ok path →
  Path (url.setPath u p).1 = path
  ∧ Scheme (url.setPath u p).1 = Scheme u.
Proof. intros Hp. unfold url.setPath. rewrite Hp. by case_bool_decide. Qed.

Lemma escaped_relative v e :
  relativePath v = true →
  e = v ∨ e = url.escape v url.encodePath →
  url.unescape e url.encodePath = Ok v
  ∧ noDotSegment e = true
  ∧ (e = "" ∨ strings.HasPrefix e "/" = false).
Proof.
  unfold relativePath. rewrite !andb_true_iff, !negb_true_iff.
  intros [[[Hplain Hrel] _] Hdot] [->| ->].
  - split_and!; [|done|by right].
    by apply unescape_plain, plainByte_without.
  - split_and!; [apply unescape_escape| |right; by apply escape_relative].
    by rewrite noDotSegment_escape.
Qed.

Lemma unescape_dir x e v :
  url.unescape e url.encodePath = Ok v →
  url.unescape (url.escape x url.encodePath +:+ String "/" e) url.encodePath
  = Ok (x +:+ String "/" v).
Proof.
  intros He. by rewrite unescape_escape_app, unescape_cons, He.
Qed.

Lemma TrimPrefix_slash s : strings.TrimPrefix (String "/" s) "/" = s.
Proof. reflexivity. Qed.

Lemma TrimPrefix_other c s :
  c ≠ "/"%char → strings.TrimPrefix (String c s) "/" = String c s.
Proof.
  intros Hc. unfold strings.TrimPrefix. simpl.
  by rewrite bool_decide_false.
Qed.

(** The path that resolving the reference [v] against the directory [w]
    computes: [w], a slash and [v], behind a slash when [w] starts with
    none. *)
Lemma resolved_relative w v e :
  rootedDir w = true → relativePath v = true →
  e = v ∨ e = url.escape v url.encodePath →
  url.unescape
    (url.resolvePath (url.escape w url.encodePath +:+ "/") e) url.encodePath
  = Ok (if strings.HasPrefix w "/" then w +:+ String "/" v
        else String "/" (w +:+ String "/" v)).
Proof.
  unfold rootedDir. rewrite andb_true_iff, orb_true_iff.
  intros [Hroot Hdot] Hv He.
  destruct (escaped_relative v e Hv He) as (Hun & Hedot & Herel).
  rewrite resolvePath_plain by (by rewrite ?noDotSegment_escape).
  change ("/" +:+ e) with (String "/"%char e).
  change ("/" +:+ ?s) with (String "/"%char s).
  destruct w as [|c w].
  { destruct Hroot as [?|Hroot]; [done|].
    by apply bool_decide_eq_true in Hroot. }
  destruct (decide (c = "/"%char)) as [->|Hc].
  - change (url.escape (String "/" w) url.encodePath)
      with (String "/"%char (url.escape w url.encodePath)).
    rewrite app_cons_s, TrimPrefix_slash, unescape_cons by done.
    by rewrite (unescape_dir w e v).
  - assert (strings.HasPrefix (String c w) "/" = false) as ->.
    { simpl. by rewrite bool_decide_false. }
    assert (strings.TrimPrefix
              (url.escape (String c w) url.encodePath +:+ String "/" e) "/"
            = url.escape (String c w) url.encodePath +:+ String "/" e) as ->.
    { simpl url.escape.
      destruct (url.shouldEscape c _); rewrite app_cons_s;
        by apply TrimPrefix_other. }
    rewrite unescape_cons by done. by rewrite (unescape_dir _ e v).
Qed.

Section resolve.
Context `{!Env}.

Lemma ResolveReference_relative w v r :
  rootedDir w = true → relativePath v = true → r = "" ∨ r = v →
  let resolved :=
    url.ResolveReference
      (mkURL "file" "" None "" (w +:+ "/") "" false "" "")
      (mkURL "" "" None "" v r false "" "") in
  Scheme resolved = "file"
  ∧ Path resolved = if strings.HasPrefix w "/" then w +:+ String "/" v
                    else String "/" (w +:+ String "/" v).
Proof.
  intros Hw Hv Hr resolved. subst resolved.
  unfold url.ResolveReference. cbv zeta.
  cbn [Scheme Host User Opaque Path RawQuery Fragment].
  rewrite !(bool_decide_true ("" = "")) by done.
  cbn [negb orb andb].
  rewrite EscapedPath_base.
  pose proof (EscapedPath_relative v r Hr) as He. cbv zeta in He.
  pose proof (resolved_relative w v _ Hw Hv He) as Hun.
  match goal with
  | |- context [url.setPath ?u ?p] =>
      destruct (setPath_Ok u p _ Hun) as [HP HS]
  end.
  rewrite HP, HS. split; [|done].
  by destruct (bool_decide (v = "")).
Qed.

Lemma absFileURL_relative wd v :
  Getwd = Some wd →
  rootedDir (ToSlash wd) = true → relativePath v = true →
  ∃ u, absFileURL v = Returns (Ok u) ∧ Scheme u = "file"
       ∧ Path u = ToSlash wd +:+ "/" +:+ v.
Proof.
  intros Hwd Hw Hv. unfold absFileURL. rewrite Hwd.
  destruct (Parse_relative v Hv) as (r & -> & Hr). cbv zeta.
  destruct (ResolveReference_relative _ v r Hw Hv Hr) as [HS HP].
  cbv zeta in HS, HP.
  destruct (strings.HasPrefix (ToSlash wd) "/") eqn:Hpre; simpl.
  { by eexists. }
  rewrite HP.
  unfold rootedDir in Hw. rewrite Hpre in Hw. simpl in Hw.
  apply andb_prop in Hw as [Hcolon%bool_decide_eq_true _].
  change (at_ (String "/" ?a) 2) with (at_ a 1).
  assert (at_ (ToSlash wd +:+ String "/" v) 1 = Some ":"%char) as ->.
  { destruct (ToSlash wd) as [|c [|d w]]; done. }
  rewrite bool_decide_true by done. by eexists.
Qed.

End resolve.

(** C7 (amended): a relative path [p] that is not ["-"], has no volume
    name and, written with slashes, has plain bytes (no control character,
    [?], [#] or [%]), no colon in its first segment and no [.] or [..]
    segment, resolves, in a working directory that starts with a slash or a
    drive letter and has no [.] or [..] segment, to an absolute URL with
    the scheme [file] whose path is the working directory, a slash and [p],
    both written with slashes. *)
Theorem parseSourceURL_relative `{!Env} (p wd : string) :
  Getwd = Some wd → p ≠ "-" → VolumeName (ToSlash p) = "" →
  relativePath (ToSlash p) = true → rootedDir (ToSlash wd) = true →
  ∃ u, parseSourceURL p = Returns (Ok u)
    ∧ url.IsAbs u = true ∧ Scheme u = "file"
    ∧ Path u = ToSlash wd +:+ "/" +:+ ToSlash p.
Proof.
  intros Hwd Hp Hvol Hrel Hroot. unfold parseSourceURL.
  rewrite (bool_decide_false (p = "-")) by done. cbv zeta. rewrite Hvol.
  rewrite (bool_decide_true ("" = "")) by done. cbn [negb andb].
  destruct (Parse_relative _ Hrel) as (r & HParse & Hr). rewrite HParse.
  unfold url.IsAbs at 1. cbn [Scheme].
  rewrite (bool_decide_true ("" = "")) by done. cbn [negb].
  destruct (absFileURL_relative wd _ Hwd Hroot Hrel) as (u & -> & HS & HP).
  exists u. unfold url.IsAbs. rewrite HS, HP. by split_and!.
Qed.

(** The theorem at [bar/data.json] in [/home/user]. *)
Lemma parseSourceURL_relative_witness :
  ∃ u, @parseSourceURL (unix "/home/user") "bar/data.json" = Returns (Ok u)
    ∧ url.IsAbs u = true ∧ Scheme u = "file"
    ∧ Path u = "/home/user" +:+ "/" +:+ "bar/data.json".
Proof.
  apply (@parseSourceURL_relative (unix "/home/user") "bar/data.json"
           "/home/user"); [reflexivity|discriminate|reflexivity..].
Defined.

(** C7, as stated, fails.  In [/home/user], none of these relative paths
    resolves to the working directory, a slash and the path: [..] is
    resolved away, [?] and [#] start the query and the fragment, [%41] is
    read as the byte it escapes, and a colon in the first segment is an
    error. *)
Lemma parseSourceURL_relative_counterexample :
  (∃ u, @parseSourceURL (unix "/home/user") "../data.json" = Returns (Ok u)
     ∧ Path u = "/home/data.json")
  ∧ (∃ u, @parseSourceURL (unix "/home/user") "data?.json" = Returns (Ok u)
       ∧ Path u = "/home/user/data" ∧ RawQuery u = ".json")
  ∧ (∃ u, @parseSourceURL (unix "/home/user") "data#1.json" = Returns (Ok u)
       ∧ Path u = "/home/user/data" ∧ Fragment u = "1.json")
  ∧ (∃ u, @parseSourceURL (unix "/home/user") "data%41.json" = Returns (Ok u)
       ∧ Path u = "/home/user/dataA.json")
  ∧ @parseSourceURL (unix "/home/user") "1:data.json"
    = Returns (Err (ErrURL url.ErrFirstSegmentColon)).
Proof. split_and!; try eexists; by vm_compute. Qed.

(** * Datasource flags *)

(** ** Parsing the header flags *)

Section headers.
Context `{!Env}.

(** [parseHeaderArgs] does not panic: it returns the parsed headers, or an
    error and no headers. *)
Lemma parseHeaderArgs_loop_returns args : ∀ g : gmap string Header,
  (∀ k, g !! k ≠ Some None) →
  (∃ g', parseHeaderArgs_loop (Some g) args = Returns (Some g', None))
  ∨ (∃ e, parseHeaderArgs_loop (Some g) args = Returns (None, Some e)).
Proof.
  induction args as [|v args IH]; intros g Hg; [left; by eexists|].
  simpl. destruct (splitHeaderArg v) as [[[ds name] value] [e|]];
    [right; by eexists|].
  cbn [index].
  destruct (g !! ds) as [[hm|]|] eqn:Eds; [|by destruct (Hg ds)|]; cbn;
    rewrite ?lookup_insert_eq, ?Eds; cbn; apply IH; intros k;
    (destruct (decide (k = ds)) as [->|Hk];
     [by rewrite lookup_insert_eq
     |rewrite !lookup_insert_ne by done; apply Hg]).
Qed.

Lemma parseHeaderArgs_returns args :
  (∃ g, parseHeaderArgs args = Returns (Some g, None))
  ∨ (∃ e, parseHeaderArgs args = Returns (None, Some e)).
Proof.
  apply parseHeaderArgs_loop_returns. intros k. by rewrite lookup_empty.
Qed.

End headers.

(** ** Attaching the parsed headers *)

Lemma index_store {V} (m : gmap string V) k v j :
  index (Some (<[k := v]> m)) j = if decide (j = k) then Some v else m !! j.
Proof.
  simpl. case_decide as Hj; [subst; apply lookup_insert_eq|].
  by apply lookup_insert_ne.
Qed.

Lemma index_remove {V} (m : option (gmap string V)) k j :
  index (remove m k) j = if decide (j = k) then None else index m j.
Proof.
  destruct m as [g|]; simpl; [|by case_decide].
  case_decide as Hj; [subst; apply lookup_delete_eq|].
  by apply lookup_delete_ne.
Qed.

(** One pass of the loop body: it returns, it replaces the header of the
    context and of the datasource named [k], where there is one, it removes
    [k] from the pending headers if there was either, and it leaves the
    rest of the receiver alone. *)
Lemma attachHeader_spec c hdrs k v :
  ∃ c' hdrs',
    attachHeader (c, hdrs) (k, v) = Returns (c', hdrs')
    ∧ (∀ j, index (Context c') j
            = if decide (j = k) then withHeader v <$> index (Context c) k
              else index (Context c) j)
    ∧ (∀ j, index (DataSources c') j
            = if decide (j = k) then withHeader v <$> index (DataSources c) k
              else index (DataSources c) j)
    ∧ (∀ j, index hdrs' j
            = if decide (j = k ∧ (is_Some (index (Context c) k)
                                  ∨ is_Some (index (DataSources c) k)))
              then None else index hdrs j)
    ∧ set_Context (Context c) (set_DataSources (DataSources c) c') = c.
Proof.
  destruct c as [i ifs id eg ofs od om se ep pe omo ld rd dss cx pl pt tp eh
                 pei ow].
  unfold attachHeader. cbn [Context DataSources].
  destruct cx as [cm|]; [destruct (cm !! k) as [d|] eqn:Ec|];
    cbn [index]; rewrite ?Ec; cbn;
    (destruct dss as [dm|]; [destruct (dm !! k) as [d'|] eqn:Ed|]);
    cbn [index]; rewrite ?Ed; cbn;
    do 2 eexists; (split; [reflexivity|]); cbn;
    split_and!; try done; intros j;
    rewrite ?index_remove; repeat case_decide; subst;
    rewrite ?lookup_insert_eq, ?lookup_insert_ne, ?Ec, ?Ed by done;
    try done; naive_solver.
Qed.

(** The loop over the parsed headers [l], whose keys are distinct: every
    context and datasource named in [l] gets the header [l] has for it, the
    names that matched leave the pending headers, and nothing else of the
    receiver changes. *)
Lemma attachHeader_loop l :
  NoDup l.*1 → ∀ c hdrs,
  ∃ c' hdrs',
    forRange attachHeader (c, hdrs) l = Returns (c', hdrs')
    ∧ (∀ j, index (Context c') j
            = match (list_to_map l : gmap string Header) !! j with
              | Some v => withHeader v <$> index (Context c) j
              | None => index (Context c) j
              end)
    ∧ (∀ j, index (DataSources c') j
            = match (list_to_map l : gmap string Header) !! j with
              | Some v => withHeader v <$> index (DataSources c) j
              | None => index (DataSources c) j
              end)
    ∧ (∀ j, index hdrs' j
            = if decide (j ∈ l.*1 ∧ (is_Some (index (Context c) j)
                                     ∨ is_Some (index (DataSources c) j)))
              then None else index hdrs j)
    ∧ set_Context (Context c) (set_DataSources (DataSources c) c') = c.
Proof.
  induction l as [|[k v] l IH]; intros Hnd c hdrs.
  { exists c, hdrs. split_and!; [done|done|done| |by destruct c].
    intros j. case_decide as Hj; [|done].
    by destruct Hj as [?%elem_of_nil _]. }
  apply NoDup_cons in Hnd as [Hk Hnd].
  destruct (attachHeader_spec c hdrs k v) as (c1 & h1 & E1 & C1 & D1 & H1 & F1).
  destruct (IH Hnd c1 h1) as (c' & hdrs' & E2 & C2 & D2 & H2 & F2).
  exists c', hdrs'. split.
  { rewrite forRange_cons, E1. exact E2. }
  assert ((list_to_map l : gmap string Header) !! k = None) as Hfresh
    by (by apply not_elem_of_list_to_map_1).
  split_and!.
  - intros j. rewrite C2, C1. cbn [list_to_map foldr uncurry fst snd].
    destruct (decide (j = k)) as [->|Hj].
    + by rewrite Hfresh, lookup_insert_eq.
    + by rewrite lookup_insert_ne.
  - intros j. rewrite D2, D1. cbn [list_to_map foldr uncurry fst snd].
    destruct (decide (j = k)) as [->|Hj].
    + by rewrite Hfresh, lookup_insert_eq.
    + by rewrite lookup_insert_ne.
  - intros j. rewrite H2, H1, C1, D1. rewrite fmap_cons. cbn [fst].
    destruct (decide (j = k)) as [->|Hj]; repeat case_decide; try done;
      exfalso; rewrite ?fmap_is_Some in *; set_solver.
  - rewrite <-F1 at 3. rewrite <-F2.
    destruct c', c1; simpl in *. by simplify_eq.
Qed.

Lemma attachHeaders_frame h c :
  Context (set_ExtraHeaders h c) = Context c
  ∧ DataSources (set_ExtraHeaders h c) = DataSources c
  ∧ ExtraHeaders (set_ExtraHeaders h c) = h.
Proof. by destruct c. Qed.

(** [attachHeaders] on the parsed headers [g]. *)
Lemma attachHeaders_spec c (g : gmap string Header) :
  ∃ c' st,
    attachHeaders c (Some g) = Returns c'
    ∧ forRange attachHeader (c, Some g) (range (Some g)) = Returns st
    ∧ (∀ j, index (Context c') j
            = match g !! j with
              | Some v => withHeader v <$> index (Context c) j
              | None => index (Context c) j
              end)
    ∧ (∀ j, index (DataSources c') j
            = match g !! j with
              | Some v => withHeader v <$> index (DataSources c) j
              | None => index (DataSources c) j
              end)
    ∧ (∀ j, index st.2 j
            = if decide (is_Some (index (Context c) j)
                         ∨ is_Some (index (DataSources c) j))
              then None else g !! j)
    ∧ (ExtraHeaders c' = ExtraHeaders c ∨ ExtraHeaders c' = st.2).
Proof.
  destruct (attachHeader_loop (map_to_list g) (NoDup_fst_map_to_list g)
              c (Some g)) as (c1 & h1 & E & C & D & H & F).
  rewrite list_to_map_to_list in C, D.
  unfold attachHeaders. cbn [range]. rewrite E. cbn.
  destruct (attachHeaders_frame h1 c1) as (FC & FD & FE).
  exists (if bool_decide (0 < len h1)%nat then set_ExtraHeaders h1 c1
          else c1), (c1, h1).
  split_and!; [done|done|..].
  - intros j. rewrite <-C. by case_bool_decide; rewrite ?FC.
  - intros j. rewrite <-D. by case_bool_decide; rewrite ?FD.
  - intros j. cbn [snd]. rewrite H. cbn [index].
    destruct (g !! j) as [v|] eqn:Ej.
    + assert (j ∈ (map_to_list g).*1) as Hin.
      { apply list_elem_of_fmap. exists (j, v).
        by rewrite elem_of_map_to_list. }
      repeat case_decide; naive_solver.
    + repeat case_decide; naive_solver.
  - case_bool_decide; [by right|left].
    rewrite <-F. by destruct c1.
Qed.

Section flags.
Context `{!Env}.

Lemma parseInto_DataSources_ExtraHeaders args c c' e :
  parseInto DataSources set_DataSources c args = Returns (c', e) →
  ExtraHeaders c' = ExtraHeaders c.
Proof.
  revert c. induction args as [|d args IH]; intros c; simpl.
  { by intros [= -> _]. }
  destruct (parseDatasourceArg d) as [[[k ds] [err|]]|]; simpl;
    [by intros [= -> _]| |done].
  destruct c as [i ifs id eg ofs od om se ep pe omo ld rd [dm|] cx pl pt
                 tp eh pei ow]; simpl; intros HE; by apply IH in HE.
Qed.

Lemma parseInto_Context_ExtraHeaders args c c' e :
  parseInto Context set_Context c args = Returns (c', e) →
  ExtraHeaders c' = ExtraHeaders c.
Proof.
  revert c. induction args as [|d args IH]; intros c; simpl.
  { by intros [= -> _]. }
  destruct (parseDatasourceArg d) as [[[k ds] [err|]]|]; simpl;
    [by intros [= -> _]| |done].
  destruct c as [i ifs id eg ofs od om se ep pe omo ld rd dss [cm|] pl pt
                 tp eh pei ow]; simpl; intros HE; by apply IH in HE.
Qed.

(** [ParseDataSourceFlags] once the three lists of flags have parsed. *)
Lemma ParseDataSourceFlags_parsed c datasources contexts headers c1 c2 g :
  parseInto DataSources set_DataSources c datasources = Returns (c1, None) →
  parseInto Context set_Context c1 contexts = Returns (c2, None) →
  parseHeaderArgs headers = Returns (Some g, None) →
  ∃ c' st,
    ParseDataSourceFlags c datasources contexts headers
    = Returns (c', None)
    ∧ forRange attachHeader (c2, Some g) (range (Some g)) = Returns st
    ∧ (∀ j, index (Context c') j
            = match g !! j with
              | Some v => withHeader v <$> index (Context c2) j
              | None => index (Context c2) j
              end)
    ∧ (∀ j, index (DataSources c') j
            = match g !! j with
              | Some v => withHeader v <$> index (DataSources c2) j
              | None => index (DataSources c2) j
              end)
    ∧ (∀ j, index st.2 j
            = if decide (is_Some (index (Context c2) j)
                         ∨ is_Some (index (DataSources c2) j))
              then None else g !! j)
    ∧ (ExtraHeaders c' = ExtraHeaders c ∨ ExtraHeaders c' = st.2).
Proof.
  intros E1 E2 E3.
  destruct (attachHeaders_spec c2 g)
    as (c' & st & EA & EL & C & D & P & X).
  exists c', st. unfold ParseDataSourceFlags.
  rewrite E1. cbn -[parseInto parseHeaderArgs attachHeaders].
  rewrite E2. cbn -[parseHeaderArgs attachHeaders].
  rewrite E3. cbn -[attachHeaders]. rewrite EA. cbn.
  split_and!; try done.
  rewrite <-(parseInto_DataSources_ExtraHeaders _ _ _ _ E1).
  by rewrite <-(parseInto_Context_ExtraHeaders _ _ _ _ E2).
Qed.

End flags.

(** C2 (amended): when the flags parse, every parsed header alias that
    names a context or a datasource has its header set put in place of that
    descriptor's headers (the descriptor keeps its URL and loses the
    headers it had), the alias is removed from the pending map, and
    [ExtraHeaders] gets no entry for it: [ExtraHeaders] is left as it was or
    becomes the pending map. *)
Theorem ParseDataSourceFlags_attaches `{!Env} c datasources contexts headers
    c1 c2 (g : gmap string Header) k v :
  parseInto DataSources set_DataSources c datasources = Returns (c1, None) →
  parseInto Context set_Context c1 contexts = Returns (c2, None) →
  parseHeaderArgs headers = Returns (Some g, None) →
  g !! k = Some v →
  is_Some (index (Context c2) k) ∨ is_Some (index (DataSources c2) k) →
  ∃ c' st,
    ParseDataSourceFlags c datasources contexts headers = Returns (c', None)
    ∧ index (Context c') k = withHeader v <$> index (Context c2) k
    ∧ index (DataSources c') k = withHeader v <$> index (DataSources c2) k
    ∧ forRange attachHeader (c2, Some g) (range (Some g)) = Returns st
    ∧ index st.2 k = None
    ∧ (ExtraHeaders c' = ExtraHeaders c ∨ index (ExtraHeaders c') k = None).
Proof.
  intros E1 E2 E3 Hk Hmatch.
  destruct (ParseDataSourceFlags_parsed _ _ _ _ _ _ _ E1 E2 E3)
    as (c' & st & EP & EL & C & D & P & X).
  exists c', st. specialize (C k). specialize (D k). specialize (P k).
  rewrite Hk in C, D. rewrite decide_True in P by done.
  split_and!; try done.
  destruct X as [X|X]; [by left|right]. by rewrite X.
Qed.

(** The theorem at the flags [-d foo=bar/data.json] and
    [-H "foo=X-Api-Key: abc123"] in [/home/user]. *)
Lemma ParseDataSourceFlags_attaches_witness :
  ∃ c' st,
    @ParseDataSourceFlags (unix "/home/user") emptyConfig
      ["foo=bar/data.json"] [] ["foo=X-Api-Key: abc123"] = Returns (c', None)
    ∧ index (Context c') "foo"
      = withHeader apiKey <$> index (Context fooData) "foo"
    ∧ index (DataSources c') "foo"
      = withHeader apiKey <$> index (DataSources fooData) "foo"
    ∧ forRange attachHeader (fooData, Some {["foo" := apiKey]})
        (range (Some ({["foo" := apiKey]} : gmap string Header)))
      = Returns st
    ∧ index st.2 "foo" = None
    ∧ (ExtraHeaders c' = ExtraHeaders emptyConfig
       ∨ index (ExtraHeaders c') "foo" = None).
Proof.
  apply (@ParseDataSourceFlags_attaches (unix "/home/user") emptyConfig
           ["foo=bar/data.json"] [] ["foo=X-Api-Key: abc123"]
           fooData fooData {["foo" := apiKey]} "foo" apiKey);
    [by vm_compute..|right; eexists; by vm_compute].
Defined.

(** C2, as stated, fails: the datasource [foo] has the header [Accept],
    and after the flag [-H "foo=X-Api-Key: abc123"] it has the header
    [X-Api-Key] alone. *)
Lemma ParseDataSourceFlags_attaches_counterexample :
  index (DataSources fooAccept) "foo"
  = Some (mkDSConfig None (Some {["Accept" := ["text/plain"]]}))
  ∧ ∃ c', @ParseDataSourceFlags (unix "/home/user") fooAccept [] []
            ["foo=X-Api-Key: abc123"] = Returns (c', None)
      ∧ index (DataSources c') "foo" = Some (mkDSConfig None apiKey).
Proof. split; [|eexists]; by vm_compute. Qed.

(** * The order of iteration

    Go visits the entries of a map in no fixed order.  Each loop over a map
    touches, at an entry, only the state under the key of that entry, so
    every order of the entries gives the loop the same outcome: that of the
    order [range] lists them in. *)

Lemma range_NoDup {V} (m : option (gmap string V)) l :
  l ≡ₚ range m → NoDup l.*1 ∧ list_to_map l = entries m.
Proof.
  intros Hl. rewrite range_entries in Hl.
  assert (NoDup l.*1) as Hnd.
  { rewrite Hl. apply NoDup_fst_map_to_list. }
  split; [done|].
  by rewrite (list_to_map_proper _ _ Hnd Hl), list_to_map_to_list.
Qed.

(** The stores of an override's plugins, and of a header's entries. *)
Lemma store_loop_order {V} (ps o : option (gmap string V)) l :
  l ≡ₚ range o →
  forRange (λ ps kv, store ps kv.1 kv.2) ps l
  = forRange (λ ps kv, store ps kv.1 kv.2) ps (range o).
Proof.
  intros Hl. destruct (range_NoDup o l Hl) as [Hnd Hmap].
  destruct ps as [pm|].
  - rewrite store_loop_union, store_loop_Some, foldl_insert_union by done.
    by rewrite Hmap.
  - destruct (range o) as [|kv r] eqn:Er.
    + by apply Permutation_nil_r in Hl as ->.
    + destruct l as [|kv' l]; [|done].
      by apply Permutation_nil_l in Hl.
Qed.

Lemma header_loop_order (dh : gmap string (list string)) (o : Header) l :
  l ≡ₚ range o →
  foldl (λ dh kv, <[kv.1 := kv.2]> dh) dh l
  = foldl (λ dh kv, <[kv.1 := kv.2]> dh) dh (range o).
Proof.
  intros Hl. destruct (range_NoDup o l Hl) as [Hnd Hmap].
  rewrite !foldl_insert_union, Hmap; [|by rewrite range_entries;
    apply NoDup_fst_map_to_list|done].
  by rewrite range_entries, list_to_map_to_list.
Qed.

(** The merge of the datasources: the maps joined, a datasource of both
    merged by [DSConfig.mergeFrom]. *)
Lemma DSources_loop_union l (dm : gmap string DSConfig) :
  NoDup l.*1 →
  forRange DSources_mergeFrom_step (Some dm) l
  = Returns (Some (union_with (λ c v, Some (DSConfig_mergeFrom c v)) dm
                     (list_to_map l))).
Proof.
  revert dm. induction l as [|[k v] l IH]; intros dm Hnd.
  { simpl. do 2 f_equal. apply map_eq. intros i.
    rewrite lookup_union_with, lookup_empty. by destruct (dm !! i). }
  apply NoDup_cons in Hnd as [Hk Hnd].
  assert ((list_to_map l : gmap string DSConfig) !! k = None) as Hfresh
    by (by apply not_elem_of_list_to_map_1).
  rewrite forRange_cons. unfold DSources_mergeFrom_step.
  cbn [fst snd index].
  destruct (dm !! k) as [c|] eqn:Ek; cbn; rewrite IH by done;
    do 2 f_equal; apply map_eq; intros i;
    rewrite !lookup_union_with; cbn [list_to_map foldr uncurry fst snd];
    (destruct (decide (i = k)) as [->|Hi];
     [rewrite !lookup_insert_eq, Hfresh, Ek
     |rewrite !lookup_insert_ne by done]); done.
Qed.

(** X29: [DSources.mergeFrom] does not depend on the order in which Go
    ranges over the override's map: its loop run over the entries in any
    other order returns, or panics, as it does in the order taken here. *)
Lemma DSources_mergeFrom_order d o l :
  l ≡ₚ range o →
  forRange DSources_mergeFrom_step d l = DSources_mergeFrom d o.
Proof.
  intros Hl. destruct (range_NoDup o l Hl) as [Hnd Hmap].
  unfold DSources_mergeFrom. destruct d as [dm|].
  - rewrite !DSources_loop_union, Hmap; [|by rewrite range_entries;
      apply NoDup_fst_map_to_list|done].
    by rewrite range_entries, list_to_map_to_list.
  - destruct (range o) as [|kv r] eqn:Er.
    + by apply Permutation_nil_r in Hl as ->.
    + destruct l as [|kv' l]; [|done].
      by apply Permutation_nil_l in Hl.
Qed.

(** The theorem at the two datasources [a] and [b], [b] first, merged into
    the datasource [foo]. *)
Lemma DSources_mergeFrom_order_witness :
  forRange DSources_mergeFrom_step (DataSources fooData)
    [("b", blankDS); ("a", mkDSConfig None apiKey)]
  = DSources_mergeFrom (DataSources fooData) twoSources.
Proof.
  apply (DSources_mergeFrom_order (DataSources fooData) twoSources
           [("b", blankDS); ("a", mkDSConfig None apiKey)]).
  vm_compute. apply perm_swap.
Defined.

(** Two Go maps with the same entries, nil together, are the same. *)
Lemma gomap_eq {V} (m1 m2 : option (gmap string V)) :
  (m1 = None ↔ m2 = None) → (∀ j, index m1 j = index m2 j) → m1 = m2.
Proof.
  destruct m1 as [g1|], m2 as [g2|]; simpl; intros Hnil Hidx;
    [f_equal; by apply map_eq|naive_solver..|done].
Qed.

(** Two configurations with the same maps and the same other fields. *)
Lemma Config_eq_maps c1 c2 d x :
  set_Context x (set_DataSources d c1) = set_Context x (set_DataSources d c2) →
  Context c1 = Context c2 → DataSources c1 = DataSources c2 → c1 = c2.
Proof. destruct c1, c2; simpl; intros [=] ??; by subst. Qed.

(** The loop over the parsed headers does not make a nil map, nor a map of
    a nil one. *)
Lemma attachHeader_nil l : ∀ c hdrs c' hdrs',
  forRange attachHeader (c, hdrs) l = Returns (c', hdrs') →
  (Context c' = None ↔ Context c = None)
  ∧ (DataSources c' = None ↔ DataSources c = None)
  ∧ (hdrs' = None ↔ hdrs = None).
Proof.
  induction l as [|[k v] l IH]; intros c hdrs c' hdrs'.
  { by intros [= -> ->]. }
  rewrite forRange_cons.
  assert (∃ c1 h1, attachHeader (c, hdrs) (k, v) = Returns (c1, h1)
            ∧ (Context c1 = None ↔ Context c = None)
            ∧ (DataSources c1 = None ↔ DataSources c = None)
            ∧ (h1 = None ↔ hdrs = None)) as (c1 & h1 & -> & N1 & N2 & N3).
  { destruct c as [i ifs id eg ofs od om se ep pe omo ld rd dss cx pl pt tp
                   eh pei ow].
    unfold attachHeader. cbn [Context DataSources].
    destruct cx as [cm|]; [destruct (cm !! k) as [d|] eqn:Ec|];
      cbn [index]; rewrite ?Ec; cbn;
      (destruct dss as [dm|]; [destruct (dm !! k) as [d'|] eqn:Ed|]);
      cbn [index]; rewrite ?Ed; cbn;
      do 2 eexists; (split; [reflexivity|]); cbn;
      by destruct hdrs. }
  intros HE. apply IH in HE as (M1 & M2 & M3).
  tauto.
Qed.

(** X30: the result of attaching the parsed headers does not depend on
    the order in which Go ranges over them: the loop of
    [ParseDataSourceFlags] run over the aliases in any other order gives
    the same configuration and the same headers left over. *)
Lemma attachHeader_order c (g : gmap string Header) l :
  l ≡ₚ range (Some g) →
  forRange attachHeader (c, Some g) l
  = forRange attachHeader (c, Some g) (range (Some g)).
Proof.
  intros Hl. destruct (range_NoDup (Some g) l Hl) as [Hnd Hmap].
  destruct (attachHeader_loop l Hnd c (Some g))
    as (c1 & h1 & E1 & C1 & D1 & H1 & F1).
  destruct (attachHeader_loop (range (Some g)) (NoDup_fst_map_to_list g)
              c (Some g)) as (c2 & h2 & E2 & C2 & D2 & H2 & F2).
  destruct (attachHeader_nil _ _ _ _ _ E1) as (N1 & N1' & N1'').
  destruct (attachHeader_nil _ _ _ _ _ E2) as (N2 & N2' & N2'').
  rewrite E1, E2. do 2 f_equal.
  - assert (Context c1 = Context c2) as HC.
    { apply gomap_eq; [naive_solver|]. intros j.
      rewrite C1, C2, Hmap. cbn [range entries default].
      by rewrite list_to_map_to_list. }
    assert (DataSources c1 = DataSources c2) as HD.
    { apply gomap_eq; [naive_solver|]. intros j.
      rewrite D1, D2, Hmap. cbn [range entries default].
      by rewrite list_to_map_to_list. }
    apply (Config_eq_maps _ _ (DataSources c) (Context c)); congruence.
  - apply gomap_eq; [naive_solver|]. intros j. rewrite H1, H2.
    assert (j ∈ l.*1 ↔ j ∈ (range (Some g)).*1) as Hin by (by rewrite Hl).
    repeat case_decide; naive_solver.
Qed.

(** The theorem at the headers of the aliases [foo] and [bar], [bar]
    first, and the configuration with the datasource [foo]. *)
Lemma attachHeader_order_witness :
  forRange attachHeader (fooData, Some twoHeaders)
    [("bar", Some {["Accept" := ["text/plain"]]}); ("foo", apiKey)]
  = forRange attachHeader (fooData, Some twoHeaders)
      (range (Some twoHeaders)).
Proof.
  apply (attachHeader_order fooData twoHeaders
           [("bar", Some {["Accept" := ["text/plain"]]}); ("foo", apiKey)]).
  vm_compute. apply perm_swap.
Defined.
(** * The merge in full

    [MergeFrom] on every field: when it panics, what it leaves alone, how
    the override's selectors replace the base's, and what the maps hold
    afterwards. *)

(** ** The fields *)

Lemma if_same {A} (b : bool) (x : A) : (if b then x else x) = x.
Proof. by destruct b. Qed.

(** An [if] statement on a configuration, field by field. *)
Lemma when_mkConfig b f i ifs id eg ofs od om se ep pe omo ld rd dss cx
    pl pt tp eh pei ow :
  when b f
    (mkConfig i ifs id eg ofs od om se ep pe omo ld rd dss cx pl pt tp eh
       pei ow) =
  let c := f (mkConfig i ifs id eg ofs od om se ep pe omo ld rd dss cx pl pt
                tp eh pei ow) in
  mkConfig
    (if b then Input c else i) (if b then InputFiles c else ifs)
    (if b then InputDir c else id) (if b then ExcludeGlob c else eg)
    (if b then OutputFiles c else ofs) (if b then OutputDir c else od)
    (if b then OutputMap c else om) (if b then SuppressEmpty c else se)
    (if b then ExecPipe c else ep) (if b then PostExec c else pe)
    (if b then OutMode c else omo) (if b then LDelim c else ld)
    (if b then RDelim c else rd) (if b then DataSources c else dss)
    (if b then Context c else cx) (if b then Plugins c else pl)
    (if b then PluginTimeout c else pt) (if b then Templates c else tp)
    (if b then ExtraHeaders c else eh) (if b then PostExecInput c else pei)
    (if b then OutWriter c else ow).
Proof. unfold when. destruct b; [by destruct (f _)|done]. Qed.

(** The [switch] of [MergeFrom] field by field: [ri], [rd'] and [rf] say
    which case runs. *)
Lemma mergeInputs_mkConfig i ifs id eg ofs od om se ep pe omo ld rd dss cx
    pl pt tp eh pei ow (o : Config) :
  mergeInputs
    (mkConfig i ifs id eg ofs od om se ep pe omo ld rd dss cx pl pt tp eh
       pei ow) o =
  let ri := negb (isZero (IString (Input o))) in
  let rd' := negb ri && negb (isZero (IString (InputDir o))) in
  let rf := negb ri && negb rd' && negb (isZero (ISlice (InputFiles o)))
            && negb (bool_decide (length (InputFiles o) = 1%nat)
                     && bool_decide (InputFiles o !! 0%nat = Some "-")) in
  mkConfig
    (if ri then Input o else if rd' || rf then "" else i)
    (if ri || rd' then [] else if rf then InputFiles o else ifs)
    (if rd' then InputDir o else if ri || rf then "" else id)
    eg ofs (if ri || rf then "" else od) om se ep pe omo ld rd dss cx pl pt
    tp eh pei ow.
Proof.
  unfold mergeInputs. cbv zeta.
  destruct (isZero (IString (Input o))), (isZero (IString (InputDir o))),
    (isZero (ISlice (InputFiles o))),
    (bool_decide (length (InputFiles o) = 1%nat)
     && bool_decide (InputFiles o !! 0%nat = Some "-")); reflexivity.
Qed.

Ltac when_step :=
  rewrite when_mkConfig; cbv zeta;
  cbn [Input InputFiles InputDir ExcludeGlob OutputFiles OutputDir OutputMap
       SuppressEmpty ExecPipe PostExec OutMode LDelim RDelim
       DataSources Context Plugins PluginTimeout Templates ExtraHeaders
       PostExecInput OutWriter set_Input set_InputFiles set_InputDir
       set_ExcludeGlob set_OutputFiles set_OutputDir set_OutputMap
       set_ExecPipe set_PostExec set_OutMode set_LDelim set_RDelim
       set_Templates];
  rewrite ?if_same.

(** The [switch] and the [if] statements of [MergeFrom] field by field:
    the later statements are the outer conditions. *)
Lemma mergeFields_mkConfig i ifs id eg ofs od om se ep pe omo ld rd dss cx
    pl pt tp eh pei ow (o : Config) :
  mergeFields
    (mkConfig i ifs id eg ofs od om se ep pe omo ld rd dss cx pl pt tp eh
       pei ow) o =
  let ri := negb (isZero (IString (Input o))) in
  let rd' := negb ri && negb (isZero (IString (InputDir o))) in
  let rf := negb ri && negb rd' && negb (isZero (ISlice (InputFiles o)))
            && negb (bool_decide (length (InputFiles o) = 1%nat)
                     && bool_decide (InputFiles o !! 0%nat = Some "-")) in
  let rm := negb (isZero (IString (OutputMap o))) in
  let rod := negb (isZero (IString (OutputDir o))) in
  let rof := negb (isZero (ISlice (OutputFiles o))) in
  let rp := negb (isZero (IBool (ExecPipe o))) in
  mkConfig
    (if ri then Input o else if rd' || rf then "" else i)
    (if ri || rd' then [] else if rf then InputFiles o else ifs)
    (if rd' then InputDir o else if ri || rf then "" else id)
    (if negb (isZero (ISlice (ExcludeGlob o))) then ExcludeGlob o else eg)
    (if rp then OutputFiles o else if rof then OutputFiles o
     else if rod then [] else if rm then [] else ofs)
    (if rof then "" else if rod then OutputDir o
     else if rm then "" else if ri || rf then "" else od)
    (if rof then "" else if rod then ""
     else if rm then OutputMap o else om)
    se
    (if rp then ExecPipe o else ep)
    (if rp then PostExec o else pe)
    (if negb (isZero (IString (OutMode o))) then OutMode o else omo)
    (if negb (isZero (IString (LDelim o))) then LDelim o else ld)
    (if negb (isZero (IString (RDelim o))) then RDelim o else rd)
    dss cx pl pt
    (if negb (isZero (ISlice (Templates o))) then Templates o else tp)
    eh pei ow.
Proof.
  unfold mergeFields. cbv zeta. rewrite mergeInputs_mkConfig. cbv zeta.
  do 9 when_step.
  reflexivity.
Qed.

(** ** The maps *)

Lemma writable_dec {V W} (dst : option (gmap string V))
    (src : option (gmap string W)) :
  writable dst src ∨ (dst = None ∧ (0 < len src)%nat).
Proof.
  destruct dst as [g|]; [left; by intros [=]|].
  destruct (decide (len src = 0%nat)) as [Hz|Hz].
  - left. intros _. by apply range_nil_len.
  - right. split; [done|lia].
Qed.

Lemma DSources_mergeFrom_nil o :
  (0 < len o)%nat → DSources_mergeFrom None o = Panics.
Proof.
  intros Hl. unfold DSources_mergeFrom.
  destruct (range o) as [|kv l] eqn:Er; [|done].
  apply range_nil_len in Er. lia.
Qed.

Lemma DSources_mergeFrom_merged d o :
  writable d o → DSources_mergeFrom d o = Returns (mergedSources d o).
Proof.
  intros Hw. unfold DSources_mergeFrom, mergedSources.
  destruct d as [dm|]; simpl.
  - rewrite range_entries, DSources_loop_union
      by apply NoDup_fst_map_to_list.
    by rewrite list_to_map_to_list.
  - by rewrite Hw.
Qed.

(** A merge whose stores find their maps returns the merged fields with
    the three maps merged. *)
Lemma MergeFrom_merged c o :
  writable (DataSources c) (DataSources o) →
  writable (Context c) (Context o) →
  writable (Plugins c) (Plugins o) →
  MergeFrom c o
  = Returns (set_Plugins (mergedPlugins (Plugins c) (Plugins o))
               (set_Context (mergedSources (Context c) (Context o))
                  (set_DataSources
                     (mergedSources (DataSources c) (DataSources o))
                     (mergeFields c o)))).
Proof.
  intros Hd Hc Hp. unfold MergeFrom.
  destruct (mergeFields_maps c o) as (Ed & Ec & Ep).
  set (c1 := mergeFields c o) in *. clearbody c1.
  rewrite Ed, (DSources_mergeFrom_merged _ _ Hd). simpl.
  replace (Context (set_DataSources (mergedSources (DataSources c)
             (DataSources o)) c1)) with (Context c) by (by destruct c1).
  rewrite (DSources_mergeFrom_merged _ _ Hc). simpl.
  match goal with |- context [Plugins ?x] =>
    replace (Plugins x) with (Plugins c) by (by destruct c1) end.
  unfold mergedPlugins. case_bool_decide as Hlen.
  - destruct (Plugins c) as [pm|] eqn:Epm.
    + by rewrite store_loop_union.
    + specialize (Hp eq_refl). apply range_nil_len in Hp. lia.
  - assert (range (Plugins o) = []) as Hnil
      by (apply range_nil_len; lia).
    do 2 f_equal. destruct (Plugins c) as [pm|] eqn:Epm; simpl.
    + rewrite (range_nil_entries _ Hnil), (left_id_L ∅ (∪)).
      destruct c1; simpl in *; by subst.
    + destruct c1; simpl in *; by subst.
Qed.

Lemma MergeFrom_nil_map c o :
  (DataSources c = None ∧ (0 < len (DataSources o))%nat)
  ∨ (Context c = None ∧ (0 < len (Context o))%nat)
  ∨ (Plugins c = None ∧ (0 < len (Plugins o))%nat) →
  MergeFrom c o = Panics.
Proof.
  intros H. unfold MergeFrom.
  destruct (mergeFields_maps c o) as (Ed & Ec & Ep).
  set (c1 := mergeFields c o) in *. clearbody c1.
  destruct (DSources_mergeFrom (DataSources c1) _) as [ds|] eqn:E1;
    [simpl|done].
  replace (Context (set_DataSources ds c1)) with (Context c)
    by (by destruct c1).
  destruct (DSources_mergeFrom (Context c) _) as [cx|] eqn:E2; [simpl|done].
  replace (Plugins (set_Context cx (set_DataSources ds c1)))
    with (Plugins c) by (by destruct c1).
  destruct H as [[Hn Hl]|[[Hn Hl]|[Hn Hl]]].
  - by rewrite Ed, Hn, DSources_mergeFrom_nil in E1.
  - by rewrite Hn, DSources_mergeFrom_nil in E2.
  - rewrite bool_decide_true by done. rewrite Hn, store_loop_None; [done|].
    intros Hr. apply range_nil_len in Hr. lia.
Qed.

Lemma MergeFrom_Returns_writable c o c' :
  MergeFrom c o = Returns c' →
  writable (DataSources c) (DataSources o)
  ∧ writable (Context c) (Context o)
  ∧ writable (Plugins c) (Plugins o).
Proof.
  intros HR.
  destruct (writable_dec (DataSources c) (DataSources o)) as [Hd|Hd];
    [|by rewrite MergeFrom_nil_map in HR by auto].
  destruct (writable_dec (Context c) (Context o)) as [Hc|Hc];
    [|by rewrite MergeFrom_nil_map in HR by auto].
  destruct (writable_dec (Plugins c) (Plugins o)) as [Hp|Hp];
    [|by rewrite MergeFrom_nil_map in HR by auto].
  done.
Qed.

(** What a merge that returns returns. *)
Lemma MergeFrom_Returns_merged c o c' :
  MergeFrom c o = Returns c' →
  c' = set_Plugins (mergedPlugins (Plugins c) (Plugins o))
         (set_Context (mergedSources (Context c) (Context o))
            (set_DataSources (mergedSources (DataSources c) (DataSources o))
               (mergeFields c o))).
Proof.
  intros HR. destruct (MergeFrom_Returns_writable _ _ _ HR) as (Hd & Hc & Hp).
  rewrite MergeFrom_merged in HR by done. by injection HR.
Qed.

(** X1: [MergeFrom] panics exactly when the override has an entry for a
    map that is nil in the base: a datasource, a context or a plugin.  In
    every other case it returns. *)
Theorem MergeFrom_Panics (c o : Config) :
  MergeFrom c o = Panics
  ↔ (DataSources c = None ∧ (0 < len (DataSources o))%nat)
    ∨ (Context c = None ∧ (0 < len (Context o))%nat)
    ∨ (Plugins c = None ∧ (0 < len (Plugins o))%nat).
Proof.
  split; [|apply MergeFrom_nil_map].
  intros HP.
  destruct (writable_dec (DataSources c) (DataSources o)) as [Hd|Hd];
    [|by left].
  destruct (writable_dec (Context c) (Context o)) as [Hc|Hc];
    [|by right; left].
  destruct (writable_dec (Plugins c) (Plugins o)) as [Hp|Hp];
    [|by right; right].
  by rewrite MergeFrom_merged in HP.
Qed.

(** The result of a merge that returned, with the base's fields named. *)
Ltac merged HR c :=
  apply MergeFrom_Returns_merged in HR as ->;
  destruct c as [i ifs id eg ofs od om se ep pe omo ld rd dss cx pl pt tp eh
                 pei ow];
  rewrite mergeFields_mkConfig; cbv zeta;
  cbn [set_Plugins set_Context set_DataSources Input InputFiles InputDir
       ExcludeGlob OutputFiles OutputDir OutputMap SuppressEmpty ExecPipe
       PostExec OutMode LDelim RDelim DataSources Context Plugins
       PluginTimeout Templates ExtraHeaders PostExecInput OutWriter].

(** X2: a merge never carries over the override's [SuppressEmpty],
    [PluginTimeout], [ExtraHeaders], [PostExecInput] or [OutWriter]: the
    base keeps its own, whatever the override has. *)
Theorem MergeFrom_never_merged (c o c' : Config) :
  MergeFrom c o = Returns c' →
  SuppressEmpty c' = SuppressEmpty c
  ∧ PluginTimeout c' = PluginTimeout c
  ∧ ExtraHeaders c' = ExtraHeaders c
  ∧ PostExecInput c' = PostExecInput c
  ∧ OutWriter c' = OutWriter c.
Proof. intros HR. merged HR c. by split_and!. Qed.

(** The theorem at [suppressEmpty: true, pluginTimeout: 1s] merged into the
    empty configuration, which stays empty. *)
Lemma MergeFrom_never_merged_witness :
  SuppressEmpty emptyConfig = SuppressEmpty emptyConfig
  ∧ PluginTimeout emptyConfig = PluginTimeout emptyConfig
  ∧ ExtraHeaders emptyConfig = ExtraHeaders emptyConfig
  ∧ PostExecInput emptyConfig = PostExecInput emptyConfig
  ∧ OutWriter emptyConfig = OutWriter emptyConfig.
Proof.
  apply (MergeFrom_never_merged emptyConfig quietConfig emptyConfig).
  by vm_compute.
Defined.

Lemma isZero_IString s : isZero (IString s) = bool_decide (s = "").
Proof. done. Qed.

Lemma isZero_ISlice (l : list string) :
  isZero (ISlice l) = bool_decide (l = []).
Proof. simpl. destruct l; by cbn. Qed.

Lemma stdin_only (l : list string) :
  bool_decide (length l = 1%nat) && bool_decide (l !! 0%nat = Some "-")
  = bool_decide (l = ["-"]).
Proof.
  destruct l as [|x [|y l]]; simpl;
    repeat case_bool_decide; naive_solver.
Qed.

Ltac zeros :=
  rewrite ?isZero_IString, ?isZero_ISlice, ?stdin_only;
  cbn [isZero];
  repeat case_bool_decide; simplify_eq/=; try done.

(** X3: the input group of a merge.  An inline [Input] of the override
    replaces the group, before an [InputDir], which comes before the
    [InputFiles]; the two other fields of the group are cleared; and
    [InputFiles] that are empty or exactly [["-"]] leave the group of the
    base as it was. *)
Theorem MergeFrom_inputs (c o c' : Config) :
  MergeFrom c o = Returns c' →
  (Input o ≠ "" →
   Input c' = Input o ∧ InputDir c' = "" ∧ InputFiles c' = [])
  ∧ (Input o = "" → InputDir o ≠ "" →
     Input c' = "" ∧ InputDir c' = InputDir o ∧ InputFiles c' = [])
  ∧ (Input o = "" → InputDir o = "" →
     InputFiles o ≠ [] → InputFiles o ≠ ["-"] →
     Input c' = "" ∧ InputDir c' = "" ∧ InputFiles c' = InputFiles o)
  ∧ (Input o = "" → InputDir o = "" →
     InputFiles o = [] ∨ InputFiles o = ["-"] →
     Input c' = Input c ∧ InputDir c' = InputDir c
     ∧ InputFiles c' = InputFiles c).
Proof.
  intros HR. merged HR c. split_and!.
  - intros Hi. by zeros.
  - intros Hi Hd. rewrite Hi. by zeros.
  - intros Hi Hd Hf Hs. rewrite Hi, Hd. by zeros.
  - intros Hi Hd [Hf|Hf]; rewrite Hi, Hd, Hf; by zeros.
Qed.

(** The theorem at [in: hello] merged into [inputDir: in, outputDir: out]. *)
Lemma MergeFrom_inputs_witness :
  (Input inlineConfig ≠ "" →
   Input inlineConfig = Input inlineConfig ∧ InputDir inlineConfig = ""
   ∧ InputFiles inlineConfig = [])
  ∧ (Input inlineConfig = "" → InputDir inlineConfig ≠ "" →
     Input inlineConfig = "" ∧ InputDir inlineConfig = InputDir inlineConfig
     ∧ InputFiles inlineConfig = [])
  ∧ (Input inlineConfig = "" → InputDir inlineConfig = "" →
     InputFiles inlineConfig ≠ [] → InputFiles inlineConfig ≠ ["-"] →
     Input inlineConfig = "" ∧ InputDir inlineConfig = ""
     ∧ InputFiles inlineConfig = InputFiles inlineConfig)
  ∧ (Input inlineConfig = "" → InputDir inlineConfig = "" →
     InputFiles inlineConfig = [] ∨ InputFiles inlineConfig = ["-"] →
     Input inlineConfig = Input dirConfig
     ∧ InputDir inlineConfig = InputDir dirConfig
     ∧ InputFiles inlineConfig = InputFiles dirConfig).
Proof.
  apply (MergeFrom_inputs dirConfig inlineConfig inlineConfig). by vm_compute.
Defined.

(** X4: the output group of a merge.  The override's [OutputFiles] replace
    the group, before its [OutputDir], which comes before its [OutputMap];
    the two other fields of the group are cleared.  With none of the three,
    the base keeps its [OutputMap], and keeps its [OutputFiles] unless the
    override has [ExecPipe], which clears them. *)
Theorem MergeFrom_outputs (c o c' : Config) :
  MergeFrom c o = Returns c' →
  (OutputFiles o ≠ [] →
   OutputFiles c' = OutputFiles o ∧ OutputDir c' = "" ∧ OutputMap c' = "")
  ∧ (OutputFiles o = [] → OutputDir o ≠ "" →
     OutputFiles c' = [] ∧ OutputDir c' = OutputDir o ∧ OutputMap c' = "")
  ∧ (OutputFiles o = [] → OutputDir o = "" → OutputMap o ≠ "" →
     OutputFiles c' = [] ∧ OutputDir c' = "" ∧ OutputMap c' = OutputMap o)
  ∧ (OutputFiles o = [] → OutputDir o = "" → OutputMap o = "" →
     OutputMap c' = OutputMap c
     ∧ OutputFiles c' = if ExecPipe o then [] else OutputFiles c).
Proof.
  intros HR. merged HR c. rewrite !isZero_IString, !isZero_ISlice.
  cbn [isZero]. split_and!.
  - intros Hf. rewrite (bool_decide_false (OutputFiles o = [])) by done.
    cbn [negb]. by destruct (ExecPipe o).
  - intros Hf Hd. rewrite Hf, (bool_decide_false (OutputDir o = "")),
      (bool_decide_true ([] = [])) by done.
    cbn [negb]. by destruct (ExecPipe o).
  - intros Hf Hd Hm. rewrite Hf, Hd, (bool_decide_false (OutputMap o = "")),
      (bool_decide_true ([] = [])), (bool_decide_true ("" = "")) by done.
    cbn [negb]. by destruct (ExecPipe o).
  - intros Hf Hd Hm. rewrite Hf, Hd, Hm, (bool_decide_true ([] = [])),
      (bool_decide_true ("" = "")) by done.
    cbn [negb]. by destruct (ExecPipe o).
Qed.

(** The theorem at [inputDir: in, outputFiles: [out.txt]] merged into
    [inputDir: in, outputDir: out]. *)
Lemma MergeFrom_outputs_witness :
  (OutputFiles fileConfig ≠ [] →
   OutputFiles fileConfig = OutputFiles fileConfig
   ∧ OutputDir fileConfig = "" ∧ OutputMap fileConfig = "")
  ∧ (OutputFiles fileConfig = [] → OutputDir fileConfig ≠ "" →
     OutputFiles fileConfig = []
     ∧ OutputDir fileConfig = OutputDir fileConfig
     ∧ OutputMap fileConfig = "")
  ∧ (OutputFiles fileConfig = [] → OutputDir fileConfig = "" →
     OutputMap fileConfig ≠ "" →
     OutputFiles fileConfig = [] ∧ OutputDir fileConfig = ""
     ∧ OutputMap fileConfig = OutputMap fileConfig)
  ∧ (OutputFiles fileConfig = [] → OutputDir fileConfig = "" →
     OutputMap fileConfig = "" →
     OutputMap fileConfig = OutputMap dirConfig
     ∧ OutputFiles fileConfig
       = if ExecPipe fileConfig then [] else OutputFiles dirConfig).
Proof.
  apply (MergeFrom_outputs dirConfig fileConfig fileConfig). by vm_compute.
Defined.

(** X5: [ExecPipe] and [PostExec] are merged together.  An override with
    [ExecPipe] gives the base its [ExecPipe], its [PostExec] and its
    [OutputFiles], empty or not; an override without [ExecPipe] leaves the
    base's [ExecPipe] and [PostExec] as they were, whatever [PostExec] it
    has. *)
Theorem MergeFrom_ExecPipe (c o c' : Config) :
  MergeFrom c o = Returns c' →
  (ExecPipe o = true →
   ExecPipe c' = true ∧ PostExec c' = PostExec o
   ∧ OutputFiles c' = OutputFiles o)
  ∧ (ExecPipe o = false →
     ExecPipe c' = ExecPipe c ∧ PostExec c' = PostExec c).
Proof.
  intros HR. merged HR c. split; intros ->; by zeros.
Qed.

(** The theorem at [execPipe: true, postExec: [cat]] merged into
    [inputDir: in, outputFiles: [out.txt]]. *)
Lemma MergeFrom_ExecPipe_witness :
  (ExecPipe (pipeConfig [] []) = true →
   ExecPipe pipeDirConfig = true
   ∧ PostExec pipeDirConfig = PostExec (pipeConfig [] [])
   ∧ OutputFiles pipeDirConfig = OutputFiles (pipeConfig [] []))
  ∧ (ExecPipe (pipeConfig [] []) = false →
     ExecPipe pipeDirConfig = ExecPipe fileConfig
     ∧ PostExec pipeDirConfig = PostExec fileConfig).
Proof.
  apply (MergeFrom_ExecPipe fileConfig (pipeConfig [] []) pipeDirConfig).
  by vm_compute.
Defined.

(** ** Merging two datasources *)

Lemma stored_range {V} (o : option (gmap string V)) (m : gmap string V) :
  foldl (λ m kv, <[kv.1 := kv.2]> m) m (range o) = entries o ∪ m.
Proof.
  rewrite range_entries, foldl_insert_union by apply NoDup_fst_map_to_list.
  by rewrite list_to_map_to_list.
Qed.

Lemma index_entries {V} (m : option (gmap string V)) k :
  entries m !! k = index m k.
Proof. by destruct m. Qed.

(** The headers of a merged datasource. *)
Lemma DSConfig_mergeFrom_Header d o :
  Header_ (DSConfig_mergeFrom d o)
  = match Header_ d with
    | None => Header_ o
    | Some dh => Some (entries (Header_ o) ∪ dh)
    end.
Proof.
  unfold DSConfig_mergeFrom. cbv zeta.
  destruct d as [du [dh|]], o as [[ou|] oh]; cbn;
    by rewrite ?stored_range.
Qed.

Lemma DSConfig_mergeFrom_URL d o :
  URL_ (DSConfig_mergeFrom d o)
  = match URL_ o with Some u => Some u | None => URL_ d end.
Proof.
  unfold DSConfig_mergeFrom. cbv zeta.
  by destruct d as [du [dh|]], o as [[ou|] oh].
Qed.

Lemma DSConfig_eq d1 d2 :
  URL_ d1 = URL_ d2 → Header_ d1 = Header_ d2 → d1 = d2.
Proof. destruct d1, d2; simpl; by intros -> ->. Qed.

(** X6: [DSConfig.mergeFrom] returns the override's URL if it has one and
    the base's if not; its header map is nil only if both are nil, and
    holds, for every header name, the override's values if it has the name
    and the base's if not: the values of one name are replaced, not
    joined. *)
Theorem DSConfig_mergeFrom_lookup (d o : DSConfig) :
  URL_ (DSConfig_mergeFrom d o)
  = match URL_ o with Some u => Some u | None => URL_ d end
  ∧ (Header_ (DSConfig_mergeFrom d o) = None
     ↔ Header_ d = None ∧ Header_ o = None)
  ∧ ∀ name, index (Header_ (DSConfig_mergeFrom d o)) name
            = match index (Header_ o) name with
              | Some v => Some v
              | None => index (Header_ d) name
              end.
Proof.
  split; [apply DSConfig_mergeFrom_URL|].
  rewrite DSConfig_mergeFrom_Header.
  destruct (Header_ d) as [dh|]; simpl.
  - split; [naive_solver|]. intros name.
    rewrite lookup_union, index_entries.
    destruct (index (Header_ o) name), (dh !! name); done.
  - split; [naive_solver|]. intros name. by destruct (index _ name).
Qed.

Lemma DSConfig_mergeFrom_assoc a b c :
  DSConfig_mergeFrom (DSConfig_mergeFrom a b) c
  = DSConfig_mergeFrom a (DSConfig_mergeFrom b c).
Proof.
  apply DSConfig_eq;
    rewrite ?DSConfig_mergeFrom_URL, ?DSConfig_mergeFrom_Header;
    rewrite ?DSConfig_mergeFrom_URL, ?DSConfig_mergeFrom_Header.
  - by destruct (URL_ c), (URL_ b).
  - destruct (Header_ a) as [ah|], (Header_ b) as [bh|],
      (Header_ c) as [ch|]; simpl; try done;
      by rewrite ?(left_id_L ∅ (∪)), ?(assoc_L (∪)).
Qed.

Lemma DSConfig_mergeFrom_self a : DSConfig_mergeFrom a a = a.
Proof.
  apply DSConfig_eq;
    rewrite ?DSConfig_mergeFrom_URL, ?DSConfig_mergeFrom_Header.
  - by destruct (URL_ a).
  - destruct (Header_ a) as [ah|]; [|done]. simpl.
    by rewrite (idemp_L (∪)).
Qed.

Lemma DSConfig_mergeFrom_twice a b :
  DSConfig_mergeFrom (DSConfig_mergeFrom a b) b = DSConfig_mergeFrom a b.
Proof. by rewrite DSConfig_mergeFrom_assoc, DSConfig_mergeFrom_self. Qed.

(** X7: the datasources with [DSConfig.mergeFrom] are a monoid whose
    elements are idempotent.  Merging is associative (a over b, then c over
    that, is c over b, over a), the datasource without URL and headers is
    neutral on both sides, and a datasource merged into itself is
    itself. *)
Theorem DSConfig_mergeFrom_monoid (a b c : DSConfig) :
  DSConfig_mergeFrom (DSConfig_mergeFrom a b) c
  = DSConfig_mergeFrom a (DSConfig_mergeFrom b c)
  ∧ DSConfig_mergeFrom a blankDS = a
  ∧ DSConfig_mergeFrom blankDS a = a
  ∧ DSConfig_mergeFrom a a = a.
Proof.
  split_and!.
  - apply DSConfig_mergeFrom_assoc.
  - apply DSConfig_eq;
      rewrite ?DSConfig_mergeFrom_URL, ?DSConfig_mergeFrom_Header; [done|].
    simpl. destruct (Header_ a); [|done]. by rewrite (left_id_L ∅ (∪)).
  - apply DSConfig_eq;
      rewrite ?DSConfig_mergeFrom_URL, ?DSConfig_mergeFrom_Header; [|done].
    simpl. by destruct (URL_ a).
  - apply DSConfig_mergeFrom_self.
Qed.

(** ** The maps after a merge *)

Lemma mergedSources_index d o k :
  writable d o →
  index (mergedSources d o) k
  = match index d k, index o k with
    | Some c, Some v => Some (DSConfig_mergeFrom c v)
    | Some c, None => Some c
    | None, ov => ov
    end.
Proof.
  intros Hw. destruct d as [dm|]; simpl.
  - rewrite lookup_union_with, index_entries.
    by destruct (dm !! k), (index o k).
  - specialize (Hw eq_refl). destruct o as [om|]; [|done]. simpl in *.
    apply map_to_list_empty_iff in Hw as ->. by rewrite lookup_empty.
Qed.

(** ** The header maps that a merge writes *)

Lemma write_loop_lookup (a : nat) (l : list (string * list string)) :
  ∀ (hs : headerStore) b,
  foldl (λ hs kv, <[a := <[kv.1 := kv.2]> (hs !!! a)]> hs) hs l !!! b
  = if decide (b = a)
    then foldl (λ m kv, <[kv.1 := kv.2]> m) (hs !!! a) l
    else hs !!! b.
Proof.
  induction l as [|[n v] l IH]; intros hs b; cbn [foldl fst snd].
  { by case_decide; subst. }
  rewrite IH. case_decide as Hb.
  - by rewrite lookup_total_insert_eq.
  - by rewrite lookup_total_insert_ne.
Qed.

(** [DSConfig.mergeFrom] on the store: the descriptor it returns, and the
    store it leaves. *)
Lemma DSConfig_mergeFrom_ref_spec hs d o :
  (DSConfig_mergeFrom_ref hs d o).2 = mergedRef d o
  ∧ ∀ b, (DSConfig_mergeFrom_ref hs d o).1 !!! b
         = if bool_decide (Header_ref d = Some b)
           then entries (headerOf hs (Header_ref o)) ∪ hs !!! b
           else hs !!! b.
Proof.
  unfold DSConfig_mergeFrom_ref, mergedRef.
  destruct d as [du [a|]], o as [[ou|] oh]; cbn [URL_ref Header_ref fst snd];
    (split; [done|]); intros b; try done;
    rewrite write_loop_lookup, stored_range;
    (case_bool_decide as Hb; [injection Hb as <-; by rewrite decide_True
                             |rewrite decide_False; [done|congruence]]).
Qed.

(** The loop of [DSources.mergeFrom] on the store: the descriptors, the
    maps that no iteration writes, and a map that one iteration writes. *)
Lemma DSources_loop_ref (l : list (string * DSConfigRef)) :
  NoDup l.*1 →
  ∀ (hs : headerStore) (dm : gmap string DSConfigRef),
  ∃ hs' dm',
    forRange DSources_mergeFrom_ref_step (hs, Some dm) l
    = Returns (hs', Some dm')
    ∧ (∀ k, dm' !! k
            = match dm !! k, (list_to_map l : gmap string DSConfigRef) !! k
              with
              | Some d, Some v => Some (mergedRef d v)
              | Some d, None => Some d
              | None, ov => ov
              end)
    ∧ (∀ b, (∀ k v, (k, v) ∈ l → dm !! k ≫= Header_ref ≠ Some b) →
            hs' !!! b = hs !!! b)
    ∧ (∀ k v a,
         (k, v) ∈ l → dm !! k ≫= Header_ref = Some a →
         (∀ k' v', (k', v') ∈ l → dm !! k' ≫= Header_ref = Some a →
                   k' = k) →
         (∀ b k' v', Header_ref v = Some b → (k', v') ∈ l →
                     dm !! k' ≫= Header_ref ≠ Some b) →
         hs' !!! a = entries (headerOf hs (Header_ref v)) ∪ hs !!! a).
Proof.
  induction l as [|[k0 v0] l IH]; intros Hnd hs dm.
  { exists hs, dm. split_and!; [done| | |].
    - intros k. cbn. rewrite lookup_empty. by destruct (dm !! k).
    - done.
    - intros k v a Hin. by apply elem_of_nil in Hin. }
  cbn [fmap list_fmap fst] in Hnd. apply NoDup_cons in Hnd as [Hk0 Hnd].
  assert (∀ k v, (k, v) ∈ l → k ≠ k0) as Hne.
  { intros k v Hin ->. apply Hk0, list_elem_of_fmap. by exists (k0, v). }
  assert (∃ hs1 d1,
            DSources_mergeFrom_ref_step (hs, Some dm) (k0, v0)
            = Returns (hs1, Some (<[k0 := d1]> dm))
            ∧ d1 = match dm !! k0 with
                   | Some d => mergedRef d v0
                   | None => v0
                   end
            ∧ ∀ b, hs1 !!! b
                   = if bool_decide (dm !! k0 ≫= Header_ref = Some b)
                     then entries (headerOf hs (Header_ref v0)) ∪ hs !!! b
                     else hs !!! b) as (hs1 & d1 & E1 & Hd1 & Hhs1).
  { unfold DSources_mergeFrom_ref_step. cbn [fst snd index].
    destruct (dm !! k0) as [d|] eqn:Ed.
    - destruct (DSConfig_mergeFrom_ref_spec hs d v0) as [Hc Hs].
      destruct (DSConfig_mergeFrom_ref hs d v0) as [hs1 c].
      cbn [fst snd] in Hc, Hs. exists hs1, c. by split_and!.
    - exists hs, v0. split_and!; [done..|]. intros b.
      by rewrite bool_decide_false. }
  destruct (IH Hnd hs1 (<[k0 := d1]> dm))
    as (hs' & dm' & E & Hptr & Hframe & Htarget).
  exists hs', dm'. rewrite forRange_cons, E1. cbn. rewrite E.
  assert (∀ k v, (k, v) ∈ l → <[k0 := d1]> dm !! k = dm !! k) as Hsame.
  { intros k v Hin. apply lookup_insert_ne. intros <-. by eapply Hne. }
  split_and!; [done| | |].
  - intros k. rewrite Hptr. cbn [list_to_map foldr uncurry fst snd].
    destruct (decide (k = k0)) as [->|Hk].
    + rewrite !lookup_insert_eq, (not_elem_of_list_to_map_1 _ _ Hk0), Hd1.
      by destruct (dm !! k0).
    + by rewrite !lookup_insert_ne.
  - intros b Hb. rewrite Hframe.
    + rewrite Hhs1, bool_decide_false; [done|].
      apply (Hb k0 v0), elem_of_cons. by left.
    + intros k v Hin. rewrite (Hsame k v Hin).
      apply (Hb k v), elem_of_cons. by right.
  - intros k v a [[= -> ->]|Hin]%elem_of_cons Ha Huniq Hsrc.
    + rewrite Hframe.
      * by rewrite Hhs1, bool_decide_true.
      * intros k' v' Hin' Ha'. rewrite (Hsame k' v' Hin') in Ha'.
        apply (Hne k' v' Hin'), (Huniq k' v'); [|done].
        apply elem_of_cons. by right.
    + rewrite (Htarget k v a Hin).
      * assert (hs1 !!! a = hs !!! a) as ->.
        { rewrite Hhs1, bool_decide_false; [done|]. intros Ha0.
          apply (Hne k v Hin). symmetry. apply (Huniq k0 v0); [|done].
          apply elem_of_cons. by left. }
        destruct (Header_ref v) as [b|] eqn:Eb; [|done].
        cbn [headerOf fmap option_fmap option_map].
        rewrite Hhs1, bool_decide_false; [done|].
        apply (Hsrc b k0 v0); [done|]. apply elem_of_cons. by left.
      * by rewrite (Hsame k v Hin).
      * intros k' v' Hin' Ha'. rewrite (Hsame k' v' Hin') in Ha'.
        apply (Huniq k' v'); [|done]. apply elem_of_cons. by right.
      * intros b k' v' Hb Hin'. rewrite (Hsame k' v' Hin').
        apply (Hsrc b k' v'); [done|]. apply elem_of_cons. by right.
Qed.

(** [DSources.mergeFrom] on the store. *)
Lemma DSources_mergeFrom_ref_spec hs (d o : DSourcesRef) hs' d' :
  DSources_mergeFrom_ref hs d o = Returns (hs', d') →
  (∀ k, index d' k
        = match index d k, index o k with
          | Some c, Some v => Some (mergedRef c v)
          | Some c, None => Some c
          | None, ov => ov
          end)
  ∧ (∀ b, (∀ k, is_Some (index o k) → index d k ≫= Header_ref ≠ Some b) →
          hs' !!! b = hs !!! b)
  ∧ (∀ k a,
       index d k ≫= Header_ref = Some a →
       (∀ k', is_Some (index o k') → index d k' ≫= Header_ref = Some a →
              k' = k) →
       (∀ b k', index o k ≫= Header_ref = Some b → is_Some (index o k') →
                index d k' ≫= Header_ref ≠ Some b) →
       hs' !!! a = given hs o k ∪ hs !!! a).
Proof.
  unfold DSources_mergeFrom_ref. intros HR.
  assert (∀ k v, (k, v) ∈ range o ↔ index o k = Some v) as Hin.
  { intros k v. destruct o as [om|]; simpl.
    - apply elem_of_map_to_list.
    - split; [by intros ?%elem_of_nil|done]. }
  destruct d as [dm|].
  - destruct (DSources_loop_ref (range o)
                ltac:(rewrite range_entries; apply NoDup_fst_map_to_list)
                hs dm) as (hs1 & dm1 & E & Hptr & Hframe & Htarget).
    rewrite E in HR. injection HR as <- <-. split_and!.
    + intros k. cbn [index]. rewrite Hptr, range_entries.
      rewrite list_to_map_to_list. by destruct o.
    + intros b Hb. apply Hframe. intros k v Hkv%Hin. apply Hb.
      by rewrite Hkv.
    + intros k a Ha Huniq Hsrc. unfold given.
      destruct (index o k) as [v|] eqn:Ev.
      * apply (Htarget k v a); [by apply Hin|done| |].
        -- intros k' v' Hkv%Hin. apply Huniq. by rewrite Hkv.
        -- intros b k' v' Hb Hkv%Hin. apply (Hsrc b k'); [done|].
           by rewrite Hkv.
      * cbn. rewrite (left_id_L ∅ (∪)). apply Hframe.
        intros k' v' Hkv%Hin Ha'.
        assert (k' = k) as -> by (apply Huniq; [by rewrite Hkv|done]).
        congruence.
  - destruct (range o) as [|[k0 v0] l] eqn:Er; [|done].
    injection HR as <- <-. split_and!; [|done|done].
    intros k. cbn [index]. destruct (index o k) as [v|] eqn:Ev; [|done].
    apply Hin in Ev. by apply elem_of_nil in Ev.
Qed.

Lemma elem_of_addresses (m : DSourcesRef) b :
  b ∈ addresses m ↔ ∃ k, index m k ≫= Header_ref = Some b.
Proof.
  unfold addresses. rewrite list_elem_of_omap. split.
  - intros ([k d] & Hin & Hb). exists k. destruct m as [g|]; simpl in *.
    + apply elem_of_map_to_list in Hin. by rewrite Hin.
    + by apply elem_of_nil in Hin.
  - intros [k Hk]. destruct m as [g|]; simpl in *; [|done].
    destruct (g !! k) as [d|] eqn:Ed; [|done]. exists (k, d).
    by rewrite elem_of_map_to_list.
Qed.

Lemma elem_of_holders (m : DSourcesRef) a k :
  k ∈ holders m a ↔ index m k ≫= Header_ref = Some a.
Proof.
  unfold holders. rewrite list_elem_of_fmap. split.
  - intros ([k' d] & -> & [Ha Hin]%list_elem_of_filter).
    destruct m as [g|]; simpl in *.
    + apply elem_of_map_to_list in Hin. by rewrite Hin.
    + by apply elem_of_nil in Hin.
  - intros Hk. destruct m as [g|]; simpl in *; [|done].
    destruct (g !! k) as [d|] eqn:Ed; [|done]. exists (k, d).
    split; [done|]. apply list_elem_of_filter.
    by rewrite elem_of_map_to_list.
Qed.

(** One call of [DSources.mergeFrom] and a header map held under one
    alias at most. *)
Lemma DSources_mergeFrom_ref_held hs (d o : DSourcesRef) hs' d' k a :
  DSources_mergeFrom_ref hs d o = Returns (hs', d') →
  Forall (λ b, b ∉ addresses d) (addresses o) →
  Forall (λ k', k' = k) (holders d a) →
  hs' !!! a = (if held d k a then given hs o k else ∅) ∪ hs !!! a.
Proof.
  intros HR Hsep Hone.
  destruct (DSources_mergeFrom_ref_spec _ _ _ _ _ HR)
    as (_ & Hframe & Htarget).
  rewrite Forall_forall in Hsep. rewrite Forall_forall in Hone.
  assert (∀ k', index d k' ≫= Header_ref = Some a → k' = k) as Huniq.
  { intros k' Hk'. by apply Hone, elem_of_holders. }
  unfold held. case_bool_decide as Ha.
  - apply Htarget; [done|by intros k' _; apply Huniq|].
    intros b k' Hb _ Hd. apply (Hsep b).
    + apply elem_of_addresses. by exists k.
    + apply elem_of_addresses. by exists k'.
  - rewrite (left_id_L ∅ (∪)). apply Hframe. intros k' _ Hk'.
    by rewrite (Huniq k' Hk') in Hk'.
Qed.

(** X8: the header maps after a merge, which writes them in place.  With
    the header maps in a store: an alias of the result has the override's
    URL if there is one and else the base's, and holds the base's header
    map if there is one and else the override's.  Where the override's maps
    are none of the base's, a map that the base holds under one alias
    receives the headers that the override gives that alias: those of its
    datasource if the datasource holds the map and then those of its
    context if the context holds it, as it does after
    [ParseDataSourceFlags], both descriptors reading the result; and a map
    that the base does not hold is not written. *)
Theorem MergeFrom_DataSources (hs : headerStore)
    (ds cx ods ocx : DSourcesRef) hs' ds' cx' :
  mergeSources hs ds cx ods ocx = Returns (hs', ds', cx') →
  (∀ k, index ds' k
        = match index ds k, index ods k with
          | Some d, Some v => Some (mergedRef d v)
          | Some d, None => Some d
          | None, ov => ov
          end)
  ∧ (∀ k, index cx' k
          = match index cx k, index ocx k with
            | Some d, Some v => Some (mergedRef d v)
            | Some d, None => Some d
            | None, ov => ov
            end)
  ∧ (Forall (λ b, b ∉ addresses ds ++ addresses cx)
       (addresses ods ++ addresses ocx) →
     ∀ k a,
       Forall (λ k', k' = k) (holders ds a ++ holders cx a) →
       hs' !!! a
       = (if held cx k a then given hs ocx k else ∅)
         ∪ ((if held ds k a then given hs ods k else ∅) ∪ hs !!! a)).
Proof.
  unfold mergeSources. intros HR.
  destruct (DSources_mergeFrom_ref hs ds ods) as [[hs1 ds1]|] eqn:E1;
    [|done].
  cbn in HR.
  destruct (DSources_mergeFrom_ref hs1 cx ocx) as [[hs2 cx2]|] eqn:E2;
    [|done].
  cbn in HR. injection HR as <- <- <-.
  destruct (DSources_mergeFrom_ref_spec _ _ _ _ _ E1) as (P1 & F1 & _).
  destruct (DSources_mergeFrom_ref_spec _ _ _ _ _ E2) as (P2 & _ & _).
  split_and!; [done..|].
  intros Hsep k a Hone.
  apply Forall_app in Hsep as [Hods Hocx].
  apply Forall_app in Hone as [Hds Hcx].
  assert (given hs1 ocx k = given hs ocx k) as Hgiven.
  { unfold given. destruct (index ocx k ≫= Header_ref) as [b|] eqn:Eb;
      [|done].
    cbn. rewrite F1; [done|]. intros k' _ Hk'.
    rewrite Forall_forall in Hocx. apply (Hocx b).
    - apply elem_of_addresses. by exists k.
    - apply elem_of_app. left. apply elem_of_addresses. by exists k'. }
  rewrite (DSources_mergeFrom_ref_held _ _ _ _ _ k a E2), Hgiven.
  - f_equal. apply (DSources_mergeFrom_ref_held _ _ _ _ _ k a E1); [|done].
    eapply Forall_impl; [exact Hods|]. intros b Hb Hin. apply Hb.
    apply elem_of_app. by left.
  - eapply Forall_impl; [exact Hocx|]. intros b Hb Hin. apply Hb.
    apply elem_of_app. by right.
  - done.
Qed.

(** The theorem at the alias [foo] whose datasource and context hold the
    header map at [0], and an override that gives the datasource the
    headers at [1]: after the merge the context reads both headers. *)
Lemma MergeFrom_DataSources_witness :
  mergeSources twoMaps (fooRef "/home/user/bar/data.json" 0)
    (fooRef "/home/user/bar/ctx.json" 0) (fooOver 1) None
  = Returns (bothHeaders, fooRef "/home/user/bar/data.json" 0,
             fooRef "/home/user/bar/ctx.json" 0)
  ∧ held (fooRef "/home/user/bar/ctx.json" 0) "foo" 0 = true
  ∧ bothHeaders !!! 0%nat
    = (if held (fooRef "/home/user/bar/ctx.json" 0) "foo" 0
       then given twoMaps None "foo" else ∅)
      ∪ ((if held (fooRef "/home/user/bar/data.json" 0) "foo" 0
          then given twoMaps (fooOver 1) "foo" else ∅)
         ∪ twoMaps !!! 0%nat).
Proof.
  assert (mergeSources twoMaps (fooRef "/home/user/bar/data.json" 0)
            (fooRef "/home/user/bar/ctx.json" 0) (fooOver 1) None
          = Returns (bothHeaders, fooRef "/home/user/bar/data.json" 0,
                     fooRef "/home/user/bar/ctx.json" 0)) as HR
    by reflexivity.
  destruct (MergeFrom_DataSources _ _ _ _ _ _ _ _ HR) as (_ & _ & Hhs).
  split_and!; [done|done|].
  refine (Hhs _ "foo" 0%nat _); apply (bool_decide_unpack _); by vm_compute.
Defined.

(** ** The merge without shared header maps *)

Lemma DSources_mergeFrom_ref_nil hs (d o : DSourcesRef) hs' d' :
  DSources_mergeFrom_ref hs d o = Returns (hs', d') →
  (d = None → range o = []) ∧ (d' = None ↔ d = None).
Proof.
  unfold DSources_mergeFrom_ref. intros HR. destruct d as [dm|].
  - destruct (DSources_loop_ref (range o)
                ltac:(rewrite range_entries; apply NoDup_fst_map_to_list)
                hs dm) as (hs1 & dm1 & E & _).
    rewrite E in HR. by injection HR as <- <-.
  - destruct (range o) as [|[k0 v0] l] eqn:Er; [|done].
    by injection HR as <- <-.
Qed.

Lemma index_readAll hs (m : DSourcesRef) k :
  index (readAll hs m) k = readDS hs <$> index m k.
Proof. destruct m as [g|]; simpl; [|done]. apply lookup_fmap. Qed.

Lemma addresses_NoDup (m : DSourcesRef) k k' a :
  NoDup (addresses m) →
  index m k ≫= Header_ref = Some a → index m k' ≫= Header_ref = Some a →
  k' = k.
Proof.
  unfold addresses. destruct m as [g|]; [|done]. cbn [range index].
  intros Hnd Hk Hk'.
  destruct (g !! k) as [d|] eqn:Ed; [|done].
  destruct (g !! k') as [d'|] eqn:Ed'; [|done]. cbn in Hk, Hk'.
  apply elem_of_map_to_list in Ed, Ed'.
  pose proof (NoDup_fst_map_to_list g) as Hkeys.
  induction (map_to_list g) as [|[j c] l IH]; [by apply elem_of_nil in Ed|].
  cbn [fmap list_fmap fst] in Hkeys. apply NoDup_cons in Hkeys as [Hj Hkeys].
  cbn [omap list_omap snd] in Hnd.
  apply elem_of_cons in Ed as [[= -> ->]|Ed];
    apply elem_of_cons in Ed' as [[= -> ->]|Ed']; [done| | |].
  - rewrite Hk in Hnd. apply NoDup_cons in Hnd as [Ha _]. destruct Ha.
    apply list_elem_of_omap. by exists (k', d').
  - rewrite Hk' in Hnd. apply NoDup_cons in Hnd as [Ha _]. destruct Ha.
    apply list_elem_of_omap. by exists (k, d).
  - apply IH; [|done..]. destruct (Header_ref c); [|done].
    by apply NoDup_cons in Hnd as [_ Hnd].
Qed.

(** [DSources.mergeFrom] on the store, read back, is [DSources.mergeFrom]
    on the maps read from the store, when the override's header maps are
    none of the receiver's and no two descriptors of the receiver hold the
    same map: without shared maps a merge is as on values. *)
Lemma DSources_mergeFrom_ref_read hs (d o : DSourcesRef) hs' d' :
  DSources_mergeFrom_ref hs d o = Returns (hs', d') →
  Forall (λ b, b ∉ addresses d) (addresses o) → NoDup (addresses d) →
  DSources_mergeFrom (readAll hs d) (readAll hs o)
  = Returns (readAll hs' d').
Proof.
  intros HR Hsep Hnd.
  destruct (DSources_mergeFrom_ref_nil _ _ _ _ _ HR) as [Hw Hnil].
  destruct (DSources_mergeFrom_ref_spec _ _ _ _ _ HR)
    as (Hptr & Hframe & Htarget).
  rewrite Forall_forall in Hsep.
  assert (writable (readAll hs d) (readAll hs o)) as Hwr.
  { intros Hd. destruct d; [done|]. specialize (Hw eq_refl).
    destruct o as [om|]; [|done]. simpl in *.
    apply map_to_list_empty_iff in Hw as ->.
    by rewrite fmap_empty, map_to_list_empty. }
  rewrite DSources_mergeFrom_merged by done. f_equal. symmetry.
  assert (∀ b, b ∈ addresses o → hs' !!! b = hs !!! b) as Hover.
  { intros b Hb. apply Hframe. intros k _ Hk. apply (Hsep b Hb).
    apply elem_of_addresses. by exists k. }
  assert (∀ k c a, index d k = Some c → Header_ref c = Some a →
            hs' !!! a = given hs o k ∪ hs !!! a) as Hbase.
  { intros k c a Hc Ha. apply Htarget.
    - by rewrite Hc.
    - intros k' _ Hk'. apply (addresses_NoDup d k k' a); [done| |done].
      by rewrite Hc.
    - intros b k' Hb _ Hk'. apply (Hsep b).
      + apply elem_of_addresses. by exists k.
      + apply elem_of_addresses. by exists k'. }
  apply gomap_eq.
  - unfold mergedSources, readAll. destruct d, d'; naive_solver.
  - intros k. rewrite (mergedSources_index _ _ _ Hwr), !index_readAll, Hptr.
    destruct (index d k) as [c|] eqn:Ec, (index o k) as [v|] eqn:Ev;
      cbn [fmap option_fmap option_map]; [| | |done].
    + f_equal. apply DSConfig_eq.
      * by rewrite DSConfig_mergeFrom_URL.
      * rewrite DSConfig_mergeFrom_Header. unfold readDS, mergedRef.
        cbn [Header_ Header_ref].
        destruct (Header_ref c) as [a|] eqn:Ea; cbn.
        -- rewrite (Hbase k c a Ec Ea). unfold given. by rewrite Ev.
        -- destruct (Header_ref v) as [b|] eqn:Eb; [|done]. cbn.
           rewrite Hover; [done|]. apply elem_of_addresses. exists k.
           by rewrite Ev.
    + f_equal. unfold readDS. f_equal.
      destruct (Header_ref c) as [a|] eqn:Ea; [|done]. cbn.
      rewrite (Hbase k c a Ec Ea). unfold given. rewrite Ev. cbn.
      by rewrite (left_id_L ∅ (∪)).
    + f_equal. unfold readDS. f_equal.
      destruct (Header_ref v) as [b|] eqn:Eb; [|done]. cbn.
      rewrite Hover; [done|]. apply elem_of_addresses. exists k.
      by rewrite Ev.
Qed.

(** ** Merging twice *)

Lemma mergedSources_idemp d o :
  mergedSources (mergedSources d o) o = mergedSources d o.
Proof.
  destruct d as [dm|]; [|done]. simpl. f_equal. apply map_eq. intros k.
  rewrite !lookup_union_with.
  destruct (dm !! k) as [x|], (entries o !! k) as [v|]; simpl; try done.
  - by rewrite DSConfig_mergeFrom_twice.
  - by rewrite DSConfig_mergeFrom_self.
Qed.

Lemma mergedPlugins_idemp p o :
  mergedPlugins (mergedPlugins p o) o = mergedPlugins p o.
Proof.
  destruct p as [pm|]; [|done]. simpl.
  by rewrite (assoc_L (∪)), (idemp_L (∪)).
Qed.

Lemma mergedSources_writable d o :
  writable d o → writable (mergedSources d o) o.
Proof. destruct d; [by intros _ [=]|]. by intros Hw _; apply Hw. Qed.

Lemma mergedPlugins_writable p o :
  writable p o → writable (mergedPlugins p o) o.
Proof. destruct p; [by intros _ [=]|]. by intros Hw _; apply Hw. Qed.

Lemma mergeFields_twice c o :
  mergeFields (mergeFields c o) o = mergeFields c o.
Proof.
  destruct c as [i ifs id eg ofs od om se ep pe omo ld rd dss cx pl pt tp eh
                 pei ow].
  rewrite (mergeFields_mkConfig i). cbv zeta. rewrite mergeFields_mkConfig.
  cbv zeta. f_equal;
    repeat match goal with
    | |- context [if ?b then _ else _] =>
        destruct b; cbn [orb andb negb]; try done
    end.
Qed.

Lemma mergeFields_set_maps ps cx ds c o :
  mergeFields (set_Plugins ps (set_Context cx (set_DataSources ds c))) o
  = set_Plugins ps (set_Context cx (set_DataSources ds (mergeFields c o))).
Proof.
  destruct c as [i ifs id eg ofs od om se ep pe omo ld rd dss cx0 pl pt tp eh
                 pei ow].
  cbn [set_Plugins set_Context set_DataSources].
  by rewrite !mergeFields_mkConfig.
Qed.

Lemma set_maps_proj ps cx ds c :
  DataSources (set_Plugins ps (set_Context cx (set_DataSources ds c))) = ds
  ∧ Context (set_Plugins ps (set_Context cx (set_DataSources ds c))) = cx
  ∧ Plugins (set_Plugins ps (set_Context cx (set_DataSources ds c))) = ps.
Proof. by destruct c. Qed.

Lemma set_maps_twice ps cx ds ps' cx' ds' c :
  set_Plugins ps (set_Context cx (set_DataSources ds
    (set_Plugins ps' (set_Context cx' (set_DataSources ds' c)))))
  = set_Plugins ps (set_Context cx (set_DataSources ds c)).
Proof. by destruct c. Qed.

(** X9: a merge is idempotent.  Merging the same override into the result
    of a merge returns, and changes nothing. *)
Theorem MergeFrom_twice (c o c' : Config) :
  MergeFrom c o = Returns c' → MergeFrom c' o = Returns c'.
Proof.
  intros HR. destruct (MergeFrom_Returns_writable _ _ _ HR) as (Hd & Hc & Hp).
  apply MergeFrom_Returns_merged in HR as ->.
  set (ds := mergedSources (DataSources c) (DataSources o)).
  set (cx := mergedSources (Context c) (Context o)).
  set (ps := mergedPlugins (Plugins c) (Plugins o)).
  destruct (set_maps_proj ps cx ds (mergeFields c o)) as (Ed & Ec & Ep).
  rewrite MergeFrom_merged; rewrite ?Ed, ?Ec, ?Ep.
  - rewrite mergeFields_set_maps, mergeFields_twice, set_maps_twice.
    subst ds cx ps.
    by rewrite !mergedSources_idemp, mergedPlugins_idemp.
  - by apply mergedSources_writable.
  - by apply mergedSources_writable.
  - by apply mergedPlugins_writable.
Qed.

(** The theorem at the datasource [foo] with a location merged into the
    datasource [foo] with a header, and merged again. *)
Lemma MergeFrom_twice_witness :
  MergeFrom fooMerged fooData = Returns fooMerged.
Proof.
  apply (MergeFrom_twice fooAccept fooData fooMerged). by vm_compute.
Defined.

(** * Validation in full *)

(** ** The exclusion checks *)

Lemma namesSet_cons n names v values :
  namesSet (n :: names) (v :: values)
  = if isZero v then namesSet names values else n :: namesSet names values.
Proof.
  unfold namesSet. cbn [zip zip_with]. rewrite filter_cons. cbn [snd].
  destruct (isZero v); by case_decide.
Qed.

(** The loop of [notTogether] from the value [i] on, with the name found
    before, if any. *)
Lemma notTogether_loop_names names : ∀ values found i,
  Forall (λ n, n ≠ "") names →
  (i + length values ≤ length names)%nat →
  notTogether_loop names found i values
  = match (if bool_decide (found = "") then [] else [found])
          ++ namesSet (drop i names) values with
    | a :: b :: _ => Some (ErrNotTogether a b)
    | _ => None
    end.
Proof.
  intros values. induction values as [|v values IH]; intros found i Hn Hl.
  { simpl. unfold namesSet. rewrite zip_with_nil_r. cbn.
    by case_bool_decide. }
  cbn [length] in Hl.
  destruct (drop i names) as [|n rest] eqn:Ed.
  { apply (f_equal length) in Ed. rewrite length_drop in Ed. simpl in Ed.
    lia. }
  assert (names !! i = Some n) as Hi.
  { pose proof (lookup_drop names i 0) as H0.
    by rewrite Ed, Nat.add_0_r in H0. }
  assert (drop (S i) names = rest) as Hrest.
  { pose proof (drop_S _ _ _ Hi) as H1. rewrite Ed in H1.
    by injection H1. }
  assert (n ≠ "") as Hne.
  { by eapply (Forall_lookup_1 _ _ _ _ Hn Hi). }
  cbn [notTogether_loop]. rewrite (list_lookup_total_correct _ _ _ Hi).
  rewrite namesSet_cons. destruct (isZero v).
  - rewrite IH by (done || lia). by rewrite Hrest.
  - case_bool_decide as Hf; cbn [negb app].
    + rewrite IH by (done || lia). rewrite Hrest.
      by rewrite bool_decide_false.
    + done.
Qed.

(** X10: [notTogether], given a name that is not empty for each value,
    returns nil when at most one value is not zero, and else the error
    that names the first two values that are not zero, in their order. *)
Theorem notTogether_names (names : list string) (values : list iface) :
  Forall (λ n, n ≠ "") names → (length values ≤ length names)%nat →
  notTogether names values
  = match namesSet names values with
    | a :: b :: _ => Some (ErrNotTogether a b)
    | _ => None
    end.
Proof.
  intros Hn Hl. unfold notTogether.
  by rewrite notTogether_loop_names.
Qed.

(** The theorem at the first check of [Validate], with an inline input and
    an input directory. *)
Lemma notTogether_names_witness :
  notTogether ["in"; "inputFiles"; "inputDir"]
    [IString "hello"; ISlice []; IString "in"]
  = match namesSet ["in"; "inputFiles"; "inputDir"]
            [IString "hello"; ISlice []; IString "in"] with
    | a :: b :: _ => Some (ErrNotTogether a b)
    | _ => None
    end.
Proof.
  apply (notTogether_names ["in"; "inputFiles"; "inputDir"]
           [IString "hello"; ISlice []; IString "in"]).
  - repeat constructor; discriminate.
  - simpl. lia.
Defined.

Lemma namesSet_length names values :
  (length values ≤ length names)%nat →
  length (namesSet names values) = howManySet values.
Proof.
  revert names. induction values as [|v values IH]; intros names Hl.
  { unfold namesSet. by rewrite zip_with_nil_r. }
  destruct names as [|n names]; [simpl in Hl; lia|].
  rewrite namesSet_cons. unfold howManySet. rewrite filter_cons.
  simpl in Hl. destruct (isZero v) eqn:Ez.
  - rewrite decide_False by done. apply IH. lia.
  - rewrite decide_True by done. simpl. f_equal. apply IH. lia.
Qed.

Lemma notTogether_None names values :
  Forall (λ n, n ≠ "") names → (length values ≤ length names)%nat →
  notTogether names values = None ↔ (howManySet values ≤ 1)%nat.
Proof.
  intros Hn Hl. unfold notTogether.
  rewrite notTogether_loop_names by done. rewrite drop_0.
  rewrite <-(namesSet_length names) by done.
  rewrite (bool_decide_true ("" = "")) by done. cbn [app].
  destruct (namesSet names values) as [|a [|b l]]; simpl;
    split; (done || lia).
Qed.

Lemma howManySet_3 a b c :
  howManySet [a; b; c]
  = ((if isZero a then 0 else 1) + (if isZero b then 0 else 1)
     + (if isZero c then 0 else 1))%nat.
Proof.
  unfold howManySet. rewrite !filter_cons, filter_nil.
  by destruct (isZero a), (isZero b), (isZero c).
Qed.

(** ** The checks together *)

Lemma if_Some_None {A} (b : bool) (e : A) :
  (if b then Some e else None) = None ↔ b = false.
Proof. by destruct b. Qed.

Lemma Validate_together (od om id : string) :
  negb (bool_decide (od = "")) && bool_decide (id = "") = false
  ∧ negb (bool_decide (om = "")) && bool_decide (id = "") = false
  ↔ (od ≠ "" ∨ om ≠ "" → id ≠ "").
Proof. repeat case_bool_decide; cbn; intuition congruence. Qed.

Lemma Validate_count (c : Config) :
  negb (bool_decide
          ((if bool_decide (length (InputFiles c) = 0%nat)
               && negb (bool_decide (Input c = ""))
            then 1%nat else length (InputFiles c))
           = length (OutputFiles c)))
  && negb (ExecPipe c) = false
  ↔ (ExecPipe c = false → inputCount c = length (OutputFiles c)).
Proof.
  unfold inputCount.
  assert (bool_decide (length (InputFiles c) = 0%nat)
          = bool_decide (InputFiles c = [])) as ->
    by (by destruct (InputFiles c)).
  destruct (ExecPipe c); cbn [negb].
  - rewrite andb_false_r. split; [by intros _ [=]|done].
  - rewrite andb_true_r, negb_false_iff, bool_decide_eq_true.
    split; [auto|]. intros H. by apply H.
Qed.

Lemma Validate_pipe (ep : bool) (pe ofs : list string) :
  ep && bool_decide (length pe = 0%nat) = false
  ∧ ep && (bool_decide (0 < length ofs)%nat
           && negb (bool_decide (ofs !! 0%nat = Some "-"))) = false
  ↔ (ep = true →
     pe ≠ [] ∧ (ofs !! 0%nat = None ∨ ofs !! 0%nat = Some "-")).
Proof.
  destruct ep; cbn [andb]; [|naive_solver].
  destruct pe as [|p ps], ofs as [|f fs]; cbn;
    repeat case_bool_decide; naive_solver lia.
Qed.

(** What [Validate] accepts. *)
Lemma Validate_None (c : Config) :
  Validate c = None
  ↔ (howManySet [IString (Input c); ISlice (InputFiles c);
                 IString (InputDir c)] ≤ 1)%nat
    ∧ (howManySet [ISlice (OutputFiles c); IString (OutputDir c);
                   IString (OutputMap c)] ≤ 1)%nat
    ∧ (howManySet [IString (OutputDir c); IString (OutputMap c);
                   IBool (ExecPipe c)] ≤ 1)%nat
    ∧ (OutputDir c ≠ "" ∨ OutputMap c ≠ "" → InputDir c ≠ "")
    ∧ (ExecPipe c = false → inputCount c = length (OutputFiles c))
    ∧ (ExecPipe c = true →
       PostExec c ≠ []
       ∧ (OutputFiles c !! 0%nat = None
          ∨ OutputFiles c !! 0%nat = Some "-")).
Proof.
  unfold Validate. cbv zeta. rewrite !ifNil_None.
  rewrite !notTogether_None
    by (solve [repeat constructor; done] || (simpl; lia)).
  unfold mustTogether. cbn [isZero]. rewrite !if_Some_None.
  rewrite <-Validate_together, <-Validate_count, <-Validate_pipe.
  tauto.
Qed.

(** X11: [Validate] accepts a configuration exactly when at most one of
    the three inputs is set, at most one of the three outputs, at most one
    of [OutputDir], [OutputMap] and [ExecPipe]; an [OutputDir] or an
    [OutputMap] comes with an [InputDir]; without [ExecPipe] there are as
    many output files as inputs; and with [ExecPipe] there is a [PostExec]
    command and the first output file, if any, is ["-"]. *)
Theorem Validate_accepts (c : Config) :
  Validate c = None
  ↔ (howManySet [IString (Input c); ISlice (InputFiles c);
                 IString (InputDir c)] ≤ 1)%nat
    ∧ (howManySet [ISlice (OutputFiles c); IString (OutputDir c);
                   IString (OutputMap c)] ≤ 1)%nat
    ∧ (howManySet [IString (OutputDir c); IString (OutputMap c);
                   IBool (ExecPipe c)] ≤ 1)%nat
    ∧ (OutputDir c ≠ "" ∨ OutputMap c ≠ "" → InputDir c ≠ "")
    ∧ (ExecPipe c = false → inputCount c = length (OutputFiles c))
    ∧ (ExecPipe c = true →
       PostExec c ≠ []
       ∧ (OutputFiles c !! 0%nat = None
          ∨ OutputFiles c !! 0%nat = Some "-")).
Proof. apply Validate_None. Qed.

(** ** Validation and the merge *)

(** X12: a merge keeps the inputs, and the outputs, exclusive.  If at most
    one of [Input], [InputFiles] and [InputDir] is set in the base, so it
    is after the merge, and the same for [OutputFiles], [OutputDir] and
    [OutputMap]: the first two checks of [Validate] that the base passes,
    the merged configuration passes. *)
Theorem MergeFrom_exclusive (c o c' : Config) :
  MergeFrom c o = Returns c' →
  ((howManySet [IString (Input c); ISlice (InputFiles c);
                IString (InputDir c)] ≤ 1)%nat →
   (howManySet [IString (Input c'); ISlice (InputFiles c');
                IString (InputDir c')] ≤ 1)%nat)
  ∧ ((howManySet [ISlice (OutputFiles c); IString (OutputDir c);
                  IString (OutputMap c)] ≤ 1)%nat →
     (howManySet [ISlice (OutputFiles c'); IString (OutputDir c');
                  IString (OutputMap c')] ≤ 1)%nat).
Proof.
  intros HR. merged HR c. rewrite !howManySet_3. split.
  - destruct (isZero (IString (Input o))) eqn:Ei; cbn [negb andb orb];
      [|by rewrite Ei; simpl; lia].
    destruct (isZero (IString (InputDir o))) eqn:Ed; cbn [negb andb orb];
      [|by rewrite Ed; simpl; lia].
    destruct (isZero (ISlice (InputFiles o))) eqn:Ef; cbn [negb andb orb];
      [done|].
    destruct (negb _); [|done]. rewrite Ef. by simpl; lia.
  - destruct (isZero (IBool (ExecPipe o))) eqn:Ep,
      (isZero (ISlice (OutputFiles o))) eqn:Ef; cbn [negb andb orb];
      rewrite ?Ef; try by simpl; lia.
    + destruct (isZero (IString (OutputDir o))) eqn:Ed; cbn [negb andb orb];
        [|by rewrite Ed; simpl; lia].
      destruct (isZero (IString (OutputMap o))) eqn:Em; cbn [negb andb orb];
        [|by rewrite Em; simpl; lia].
      destruct (_ || _); simpl; lia.
    + destruct (isZero (IString (OutputDir o))) eqn:Ed; cbn [negb andb orb];
        [|by rewrite Ed; simpl; lia].
      destruct (isZero (IString (OutputMap o))) eqn:Em; cbn [negb andb orb];
        [|by rewrite Em; simpl; lia].
      destruct (_ || _); simpl; lia.
Qed.

(** The theorem at [in: hello] merged into [inputDir: in, outputDir: out]. *)
Lemma MergeFrom_exclusive_witness :
  ((howManySet [IString (Input dirConfig); ISlice (InputFiles dirConfig);
                IString (InputDir dirConfig)] ≤ 1)%nat →
   (howManySet [IString (Input inlineConfig);
                ISlice (InputFiles inlineConfig);
                IString (InputDir inlineConfig)] ≤ 1)%nat)
  ∧ ((howManySet [ISlice (OutputFiles dirConfig);
                  IString (OutputDir dirConfig);
                  IString (OutputMap dirConfig)] ≤ 1)%nat →
     (howManySet [ISlice (OutputFiles inlineConfig);
                  IString (OutputDir inlineConfig);
                  IString (OutputMap inlineConfig)] ≤ 1)%nat).
Proof.
  apply (MergeFrom_exclusive dirConfig inlineConfig inlineConfig).
  by vm_compute.
Defined.

(** * The defaults in full *)

Ltac config c :=
  destruct c as [i ifs id eg ofs od om se ep pe omo ld rd dss cx pl pt tp eh
                 pei ow].

Ltac decided :=
  repeat first
    [ rewrite bool_decide_true in * by done
    | rewrite bool_decide_false in * by done
    | progress cbn [negb andb orb length Nat.add] in * ].

(** ** Defaults and validation *)

(** X13: the defaults keep a configuration valid when it has no [ExecPipe]
    or no [InputDir]: if [Validate] accepts the configuration, it accepts
    it with the defaults applied. *)
Theorem ApplyDefaults_Validate (c : Config) (h : list string) :
  Validate c = None → ExecPipe c = false ∨ InputDir c = "" →
  Validate (ApplyDefaults c h).1 = None.
Proof.
  rewrite !Validate_None. config c. rewrite ApplyDefaults_mkConfig.
  cbv zeta. cbn [fst]. rewrite !howManySet_3. unfold inputCount.
  cbn [Input InputFiles InputDir OutputFiles OutputDir OutputMap ExecPipe
       PostExec isZero].
  intros (A1 & A2 & A3 & A4 & A5 & A6) Hor.
  destruct ep.
  - destruct Hor as [He| ->]; [done|].
    destruct i as [|a i], od as [|b od], om as [|e om], ifs as [|g gs];
      decided; split_and!; try (done || lia); try tauto.
  - clear Hor A6. specialize (A5 eq_refl).
    destruct i as [|a i], id as [|a' id], od as [|b od], om as [|e om],
      ifs as [|g gs], ofs as [|f fs];
      decided; try lia; try (by exfalso; apply A4; auto);
      split_and!; try (done || lia); try tauto.
Qed.

(** The theorem at the empty configuration and no buffer. *)
Lemma ApplyDefaults_Validate_witness :
  Validate (ApplyDefaults emptyConfig []).1 = None.
Proof.
  apply (ApplyDefaults_Validate emptyConfig []); [reflexivity|].
  left. reflexivity.
Defined.



(** ** What the defaults fill in *)

(** X15: after the defaults a configuration has an input, an output, both
    delimiters and a plugin timeout: one of [Input], [InputDir] and
    [InputFiles] is set, one of [OutputDir], [OutputMap] and [OutputFiles],
    and [LDelim], [RDelim] and [PluginTimeout] are not zero. *)
Theorem ApplyDefaults_complete (c : Config) (h : list string) :
  (Input (ApplyDefaults c h).1 ≠ "" ∨ InputDir (ApplyDefaults c h).1 ≠ ""
   ∨ InputFiles (ApplyDefaults c h).1 ≠ [])
  ∧ (OutputDir (ApplyDefaults c h).1 ≠ ""
     ∨ OutputMap (ApplyDefaults c h).1 ≠ ""
     ∨ OutputFiles (ApplyDefaults c h).1 ≠ [])
  ∧ LDelim (ApplyDefaults c h).1 ≠ "" ∧ RDelim (ApplyDefaults c h).1 ≠ ""
  ∧ PluginTimeout (ApplyDefaults c h).1 ≠ 0.
Proof.
  config c. rewrite ApplyDefaults_mkConfig. cbv zeta.
  cbn [fst Input InputFiles InputDir OutputFiles OutputDir OutputMap LDelim
       RDelim PluginTimeout].
  split_and!.
  - destruct i, id, ifs; decided; auto.
  - destruct ep; [auto|]. destruct id, od, om, ofs; decided; auto.
  - by case_bool_decide.
  - by case_bool_decide.
  - by case_bool_decide.
Qed.

(** X16: the defaults only fill in.  Apart from the two streams, they
    leave every field as it was but [InputFiles], [OutputFiles],
    [OutputDir], [LDelim], [RDelim] and [PluginTimeout], and each of these
    keeps a value that is set, with one exception: with [ExecPipe] the
    output files become [["-"]], whatever they were. *)
Theorem ApplyDefaults_keeps (c : Config) (h : list string) :
  set_InputFiles [] (set_OutputFiles [] (set_OutputDir "" (set_LDelim ""
    (set_RDelim "" (set_PluginTimeout 0 (set_PostExecInput None
       (set_OutWriter None (ApplyDefaults c h).1)))))))
  = set_InputFiles [] (set_OutputFiles [] (set_OutputDir "" (set_LDelim ""
      (set_RDelim "" (set_PluginTimeout 0 (set_PostExecInput None
         (set_OutWriter None c)))))))
  ∧ (InputFiles c ≠ [] → InputFiles (ApplyDefaults c h).1 = InputFiles c)
  ∧ (OutputDir c ≠ "" → OutputDir (ApplyDefaults c h).1 = OutputDir c)
  ∧ (LDelim c ≠ "" → LDelim (ApplyDefaults c h).1 = LDelim c)
  ∧ (RDelim c ≠ "" → RDelim (ApplyDefaults c h).1 = RDelim c)
  ∧ (PluginTimeout c ≠ 0 →
     PluginTimeout (ApplyDefaults c h).1 = PluginTimeout c)
  ∧ (ExecPipe c = false → OutputFiles c ≠ [] →
     OutputFiles (ApplyDefaults c h).1 = OutputFiles c)
  ∧ (ExecPipe c = true → OutputFiles (ApplyDefaults c h).1 = ["-"]).
Proof.
  config c. rewrite ApplyDefaults_mkConfig. cbv zeta.
  cbn [fst Input InputFiles InputDir OutputFiles OutputDir OutputMap LDelim
       RDelim PluginTimeout ExecPipe].
  split_and!; try done.
  - intros Hf. destruct ifs; [done|]. cbn [length].
    by rewrite (bool_decide_false (S _ = 0%nat)), !andb_false_r.
  - intros Hd. by rewrite (bool_decide_false (od = "")), andb_false_r.
  - intros Hd. by rewrite bool_decide_false.
  - intros Hd. by rewrite bool_decide_false.
  - intros Hd. by rewrite bool_decide_false.
  - intros -> Hf. destruct ofs; [done|]. cbn [length].
    by rewrite (bool_decide_false (S _ = 0%nat)), !andb_false_r.
  - by intros ->.
Qed.

(** X17: the streams after the defaults.  Without [ExecPipe] they are the
    standard input and the standard output, and no buffer is made.  With
    [ExecPipe] both are one new buffer: its address was free, it is empty,
    and the buffers there were are as they were. *)
Theorem ApplyDefaults_streams (c : Config) (h : list string) :
  (ExecPipe c = false →
   (ApplyDefaults c h).2 = h
   ∧ PostExecInput (ApplyDefaults c h).1 = Some Stdin
   ∧ OutWriter (ApplyDefaults c h).1 = Some Stdout)
  ∧ (ExecPipe c = true →
     ∃ a, PostExecInput (ApplyDefaults c h).1 = Some (Buffer a)
       ∧ OutWriter (ApplyDefaults c h).1 = Some (Buffer a)
       ∧ h !! a = None
       ∧ (ApplyDefaults c h).2 !! a = Some ""
       ∧ ∀ b s, h !! b = Some s → (ApplyDefaults c h).2 !! b = Some s).
Proof.
  config c. rewrite ApplyDefaults_mkConfig. cbv zeta.
  cbn [fst snd PostExecInput OutWriter ExecPipe].
  split; intros ->; [done|].
  exists (length h). split_and!; [done|done| | |].
  - by apply lookup_ge_None_2.
  - apply newBuffer_lookup.
  - intros b s Hb. by apply lookup_app_l_Some.
Qed.

(** * The output file mode in full *)

(** ** Octal numerals *)

Lemma between_bytes lo hi c :
  between lo hi c = true
  ↔ Z.of_N (byte lo) ≤ Z.of_N (byte c) ≤ Z.of_N (byte hi).
Proof.
  unfold between. rewrite andb_true_iff, !N.leb_le. lia.
Qed.

Lemma digit_octal c :
  octalDigit c = true →
  strconv.digit (Z.of_N (N_of_ascii c)) = Some (Z.of_N (byte c) - 48)
  ∧ 0 ≤ Z.of_N (byte c) - 48 < 8.
Proof.
  unfold octalDigit. rewrite between_bytes.
  change (Z.of_N (byte "0")) with 48. change (Z.of_N (byte "7")) with 55.
  intros Hc. unfold strconv.digit. fold (byte c).
  replace (48 <=? Z.of_N (byte c)) with true
    by (symmetry; apply Z.leb_le; lia).
  replace (Z.of_N (byte c) <=? 57) with true
    by (symmetry; apply Z.leb_le; lia).
  split; [done|lia].
Qed.

(** A byte that is no octal digit is no digit, or a digit of 8 or more. *)
Lemma digit_not_octal c :
  octalDigit c = false →
  match strconv.digit (Z.of_N (N_of_ascii c)) with
  | Some d => 8 ≤ d
  | None => True
  end.
Proof.
  intros Hc. apply not_true_iff_false in Hc.
  unfold octalDigit in Hc. rewrite between_bytes in Hc.
  change (Z.of_N (byte "0")) with 48 in Hc.
  change (Z.of_N (byte "7")) with 55 in Hc.
  unfold strconv.digit, strconv.lower. fold (byte c).
  destruct ((48 <=? Z.of_N (byte c)) && (Z.of_N (byte c) <=? 57)) eqn:E1.
  { apply andb_true_iff in E1 as [?%Z.leb_le ?%Z.leb_le]. lia. }
  destruct ((97 <=? Z.lor (Z.of_N (byte c)) 32)
            && (Z.lor (Z.of_N (byte c)) 32 <=? 122)) eqn:E2; [|done].
  apply andb_true_iff in E2 as [?%Z.leb_le ?%Z.leb_le]. lia.
Qed.

Lemma octal_bounds :
  cutoff8 = 2305843009213693952 ∧ maxMode = 4294967295
  ∧ strconv.maxUint64 = 18446744073709551615.
Proof. done. Qed.

Ltac bounds :=
  destruct octal_bounds as (Ec & Em & Eu);
  rewrite ?Ec, ?Em, ?Eu in *; clear Ec Em Eu.

Lemma octal_mono s : ∀ n, allBytes octalDigit s = true → 0 ≤ n →
  n ≤ octal n s.
Proof.
  induction s as [|c s IH]; intros n Hs Hn; [simpl; lia|].
  apply allBytes_cons in Hs as [Hc Hs].
  destruct (digit_octal c Hc) as [_ Hd]. cbn [octal].
  etrans; [|apply IH; [done|lia]]. lia.
Qed.

(** The loop of [ParseUint] on octal digits that write a mode. *)
Lemma parseLoop_octal s : ∀ n,
  allBytes octalDigit s = true → 0 ≤ n → octal n s ≤ maxMode →
  strconv.parseLoop 8 cutoff8 maxMode n s = (octal n s, None).
Proof.
  induction s as [|c s IH]; intros n Hs Hn Hmax; [done|].
  apply allBytes_cons in Hs as [Hc Hs].
  destruct (digit_octal c Hc) as [Hd Hb].
  cbn [strconv.parseLoop octal]. rewrite Hd. cbn [octal] in Hmax.
  pose proof (octal_mono s (8 * n + (Z.of_N (byte c) - 48)) Hs
                ltac:(lia)) as Hm.
  assert (8 * n + (Z.of_N (byte c) - 48) ≤ maxMode) as Hn1
    by (etrans; [apply Hm|apply Hmax]).
  bounds.
  replace (8 <=? Z.of_N (byte c) - 48) with false
    by (symmetry; apply Z.leb_gt; lia).
  replace (_ <=? n) with false by (symmetry; apply Z.leb_gt; lia).
  replace (_ <? n * 8 + _) with false by (symmetry; apply Z.ltb_ge; lia).
  replace (_ <? n * 8 + _) with false by (symmetry; apply Z.ltb_ge; lia).
  cbn [orb]. rewrite Z.mul_comm. apply IH; [done|lia|done].
Qed.

(** The loop on octal digits that write more than a mode. *)
Lemma parseLoop_range s : ∀ n,
  allBytes octalDigit s = true → 0 ≤ n ≤ maxMode → maxMode < octal n s →
  strconv.parseLoop 8 cutoff8 maxMode n s = (maxMode, Some ErrRange).
Proof.
  induction s as [|c s IH]; intros n Hs Hn Hmax; [simpl in Hmax; lia|].
  apply allBytes_cons in Hs as [Hc Hs].
  destruct (digit_octal c Hc) as [Hd Hb].
  cbn [strconv.parseLoop octal]. rewrite Hd. cbn [octal] in Hmax.
  bounds.
  replace (8 <=? Z.of_N (byte c) - 48) with false
    by (symmetry; apply Z.leb_gt; lia).
  replace (_ <=? n) with false by (symmetry; apply Z.leb_gt; lia).
  replace (_ <? n * 8 + _) with false by (symmetry; apply Z.ltb_ge; lia).
  destruct (4294967295 <? n * 8 + (Z.of_N (byte c) - 48)) eqn:E; [done|].
  apply Z.ltb_ge in E. cbn [orb]. rewrite Z.mul_comm.
  apply IH; [done|lia|done].
Qed.

(** The loop on a text with a byte that is no octal digit. *)
Lemma parseLoop_syntax s : ∀ n,
  allBytes octalDigit s = false → 0 ≤ n ≤ maxMode →
  ∃ m k, strconv.parseLoop 8 cutoff8 maxMode n s = (m, Some k).
Proof.
  induction s as [|c s IH]; intros n Hs Hn; [done|].
  cbn [strconv.parseLoop].
  destruct (octalDigit c) eqn:Hc.
  - destruct (digit_octal c Hc) as [Hd Hb]. rewrite Hd.
    cbn [allBytes] in Hs. rewrite Hc in Hs. cbn [andb] in Hs.
    repeat case_match; try by eauto.
    apply IH; [done|]. bounds.
    rewrite orb_false_iff, !Z.ltb_ge in *. lia.
  - pose proof (digit_not_octal c Hc) as Hd.
    destruct (strconv.digit _) as [d|]; [|by eauto].
    replace (8 <=? d) with true by (symmetry; apply Z.leb_le; lia).
    by eauto.
Qed.

Lemma ParseUint_octal s :
  strconv.ParseUint ("0" +:+ s) 8 32
  = strconv.parseLoop 8 cutoff8 maxMode 0 s.
Proof. reflexivity. Qed.

(** X18: [GetMode] reads [OutMode] as an octal numeral.  Octal digits
    that write a number of at most 32 bits give that number as the mode,
    but the mode 0644 when the number is 0 and there is an inline [Input],
    and say it is an override unless [OutMode] is empty.  Octal digits that
    write more give a range error, and a byte that is no octal digit gives
    an error; with an error the mode is 0 and is not said to be an
    override. *)
Theorem GetMode_octal (c : Config) :
  (allBytes octalDigit (OutMode c) = true →
   octal 0 (OutMode c) ≤ maxMode →
   GetMode c
   = (if bool_decide (octal 0 (OutMode c) = 0)
         && negb (bool_decide (Input c = ""))
      then mode0644 else octal 0 (OutMode c),
      negb (bool_decide (OutMode c = "")), None))
  ∧ (allBytes octalDigit (OutMode c) = true →
     maxMode < octal 0 (OutMode c) →
     GetMode c
     = (0, false,
        Some (NumError "ParseUint" ("0" +:+ OutMode c) ErrRange)))
  ∧ (allBytes octalDigit (OutMode c) = false →
     ∃ k, GetMode c
          = (0, false, Some (NumError "ParseUint" ("0" +:+ OutMode c) k))).
Proof.
  unfold GetMode. rewrite ParseUint_octal. split_and!.
  - intros Hs Hmax. by rewrite parseLoop_octal.
  - intros Hs Hmax. by rewrite parseLoop_range.
  - intros Hs. destruct (parseLoop_syntax _ 0 Hs) as (m & k & ->);
      [by rewrite (proj1 (proj2 octal_bounds))|]. by exists k.
Qed.

(** The theorem at the mode [755]. *)
Lemma GetMode_octal_witness :
  GetMode (set_OutMode "755" emptyConfig) = (493, true, None).
Proof.
  destruct (GetMode_octal (set_OutMode "755" emptyConfig)) as [H _].
  apply H; [reflexivity|by vm_compute].
Defined.

(** * Datasource locations in full *)

(** ** The scheme of a resolved URL *)

Lemma setPath_Scheme u p : Scheme (url.setPath u p).1 = Scheme u.
Proof.
  unfold url.setPath. destruct (url.unescape p _); [|done].
  case_bool_decide; by destruct u.
Qed.

Lemma ResolveReference_Scheme u ref :
  Scheme (url.ResolveReference u ref)
  = if bool_decide (Scheme ref = "") then Scheme u else Scheme ref.
Proof.
  unfold url.ResolveReference. cbv zeta.
  repeat case_match; rewrite ?setPath_Scheme; by destruct ref.
Qed.

Section absolute.
Context `{!Env}.

Lemma absFileURL_Scheme value u :
  absFileURL value = Returns (Ok u) →
  ∃ ref, url.Parse value = Ok ref
    ∧ Scheme u = if bool_decide (Scheme ref = "") then "file"
                 else Scheme ref.
Proof.
  unfold absFileURL. destruct Getwd as [wd|]; [|done].
  destruct (url.Parse value) as [ref|e]; [|done]. cbv zeta.
  intros HR. exists ref. split; [done|].
  rewrite <-(ResolveReference_Scheme
               (mkURL "file" "" None "" (ToSlash wd +:+ "/") "" false "" "")).
  repeat case_match; by simplify_eq.
Qed.

Lemma absFileURL_IsAbs value u :
  absFileURL value = Returns (Ok u) → url.IsAbs u = true.
Proof.
  intros (ref & _ & HS)%absFileURL_Scheme. unfold url.IsAbs. rewrite HS.
  by repeat case_bool_decide.
Qed.

Lemma parseSourceURL_IsAbs value u :
  parseSourceURL value = Returns (Ok u) → url.IsAbs u = true.
Proof.
  unfold parseSourceURL. cbv zeta.
  destruct (url.Parse _) as [srcURL|e]; [|done].
  destruct (negb (url.IsAbs _)) eqn:Habs.
  - apply absFileURL_IsAbs.
  - intros [= <-]. by apply negb_false_iff.
Qed.

End absolute.

(** X19: every URL that [parseSourceURL] returns is absolute: it has a
    scheme, the one written in the location or [file]. *)
Theorem parseSourceURL_absolute `{!Env} (value : string) (u : URL) :
  parseSourceURL value = Returns (Ok u) →
  url.IsAbs u = true ∧ Scheme u ≠ "".
Proof.
  intros HA%parseSourceURL_IsAbs. split; [done|]. unfold url.IsAbs in HA.
  by case_bool_decide.
Qed.

(** The theorem at [bar/data.json] in [/home/user]. *)
Lemma parseSourceURL_absolute_witness :
  url.IsAbs (dataURL "/home/user/bar/data.json") = true
  ∧ Scheme (dataURL "/home/user/bar/data.json") ≠ "".
Proof.
  apply (@parseSourceURL_absolute (unix "/home/user") "bar/data.json").
  by vm_compute.
Defined.

(** ** The parts of a flag *)

Lemma SplitN_2 s sep :
  strings.SplitN s sep 2
  = if strings.Index s sep <? 0 then [s]
    else [sliceTo s (Z.to_nat (strings.Index s sep));
          sliceFrom s (Z.to_nat (strings.Index s sep) + 1)].
Proof. reflexivity. Qed.

Lemma Index_app_sep a sep b :
  without sep a = true →
  strings.Index (a +:+ String sep b) sep = Z.of_nat (String.length a).
Proof.
  induction a as [|c a IH]; intros Ha.
  - simpl. by rewrite bool_decide_true.
  - apply without_cons in Ha as [Hc Ha]. rewrite app_cons_s.
    cbn [strings.Index String.length]. rewrite bool_decide_false by done.
    rewrite IH by done.
    replace (Z.of_nat (String.length a) <? 0) with false
      by (symmetry; apply Z.ltb_ge; lia).
    lia.
Qed.

Lemma sliceFrom_app (a b : string) :
  sliceFrom (a +:+ b) (String.length a) = b.
Proof. induction a as [|c a IH]; [by destruct b|done]. Qed.

(** A text with a separator is cut in two at the first one. *)
Lemma SplitN_2_app a sep b :
  without sep a = true →
  strings.SplitN (a +:+ String sep b) sep 2 = [a; b].
Proof.
  intros Ha. rewrite SplitN_2, Index_app_sep by done.
  replace (Z.of_nat (String.length a) <? 0) with false
    by (symmetry; apply Z.ltb_ge; lia).
  rewrite Nat2Z.id, sliceTo_app. do 2 f_equal.
  replace (String.length a + 1)%nat
    with (String.length (a +:+ String sep ""))
    by (rewrite length_app_s; simpl; lia).
  replace (a +:+ String sep b) with ((a +:+ String sep "") +:+ b)
    by (by rewrite app_assoc_s).
  apply sliceFrom_app.
Qed.

Lemma SplitN_2_absent s sep :
  without sep s = true → strings.SplitN s sep 2 = [s].
Proof. intros Hs. by rewrite SplitN_2, Index_absent. Qed.

(** A text with a separator is the text before the first one, the
    separator and the rest. *)
Lemma Index_parts s sep :
  without sep s = false →
  ∃ a b, s = a +:+ String sep b ∧ without sep a = true.
Proof.
  induction s as [|c s IH]; [done|].
  destruct (decide (c = sep)) as [->|Hc].
  - intros _. by exists "", s.
  - intros Hs. destruct IH as (a & b & -> & Ha).
    { unfold without in *. cbn [allBytes] in Hs.
      by rewrite bool_decide_false in Hs. }
    exists (String c a), b. split; [done|].
    apply without_cons. done.
Qed.

(** ** The base of a path *)

Lemma rev_app_app s1 s2 : String.rev_app s1 s2 = String.rev s1 +:+ s2.
Proof.
  unfold String.rev. revert s2.
  induction s1 as [|a s1 IH]; intros s2; [done|].
  cbn [String.rev_app]. rewrite IH, (IH (String a "")).
  by rewrite app_assoc_s.
Qed.

Lemma rev_cons a s : String.rev (String a s) = String.rev s +:+ String a "".
Proof. unfold String.rev at 1. cbn [String.rev_app]. apply rev_app_app. Qed.

Lemma rev_app_s a b : String.rev (a +:+ b) = String.rev b +:+ String.rev a.
Proof.
  induction a as [|c a IH]; [by rewrite app_nil_r_s|].
  by rewrite app_cons_s, !rev_cons, IH, app_assoc_s.
Qed.

Lemma rev_involutive s : String.rev (String.rev s) = s.
Proof.
  induction s as [|a s IH]; [done|]. by rewrite rev_cons, rev_app_s, IH.
Qed.

Lemma without_app sep a b :
  without sep (a +:+ b) = without sep a && without sep b.
Proof.
  unfold without. induction a as [|c a IH]; [done|].
  rewrite app_cons_s. cbn [allBytes]. by rewrite IH, andb_assoc.
Qed.

Lemma without_rev sep s : without sep (String.rev s) = without sep s.
Proof.
  induction s as [|a s IH]; [done|].
  rewrite rev_cons, without_app, IH. unfold without. cbn [allBytes].
  by rewrite andb_true_r, andb_comm.
Qed.

Lemma stripSlashes_without s :
  without "/" s = true → path.stripSlashes s = s.
Proof.
  destruct s as [|c s]; [done|]. intros [Hc _]%without_cons.
  cbn [path.stripSlashes]. repeat case_match; naive_solver.
Qed.

Lemma LastIndex_without s sep :
  (strings.LastIndex s sep < 0 → without sep s = true)
  ∧ (0 ≤ strings.LastIndex s sep →
     without sep (sliceFrom s (Z.to_nat (strings.LastIndex s sep + 1)))
     = true)
  ∧ -1 ≤ strings.LastIndex s sep.
Proof.
  induction s as [|c s (IH1 & IH2 & IH3)]; [by split_and!; simpl|].
  cbn [strings.LastIndex]. cbv zeta.
  destruct (0 <=? strings.LastIndex s sep) eqn:E.
  - apply Z.leb_le in E. split_and!; [lia| |lia]. intros _.
    replace (Z.to_nat (strings.LastIndex s sep + 1 + 1))
      with (S (Z.to_nat (strings.LastIndex s sep + 1))) by lia.
    by apply IH2.
  - apply Z.leb_gt in E. case_bool_decide as Hc.
    + split_and!; [lia| |lia]. intros _. by apply IH1.
    + split_and!; [|lia|lia]. intros _. apply without_cons. auto.
Qed.

Lemma LastIndex_absent s sep :
  without sep s = true → strings.LastIndex s sep = -1.
Proof.
  induction s as [|c s IH]; [done|]. intros [Hc Hs]%without_cons.
  cbn [strings.LastIndex]. cbv zeta. rewrite IH by done.
  by rewrite bool_decide_false.
Qed.

(** [path.Base] gives a name without a slash, or the root. *)
Lemma Base_without p :
  path.Base p = "/" ∨ without "/" (path.Base p) = true.
Proof.
  unfold path.Base. case_bool_decide; [by right|]. cbv zeta.
  set (t := String.rev (path.stripSlashes (String.rev p))).
  destruct (LastIndex_without t "/") as (H1 & H2 & H3).
  destruct (0 <=? strings.LastIndex t "/") eqn:E.
  - apply Z.leb_le in E. case_bool_decide; [by left|right]. by apply H2.
  - apply Z.leb_gt in E. case_bool_decide; [by left|right]. by apply H1.
Qed.

(** The paths that are their own base. *)
Lemma Base_fixed p :
  path.Base p = p ↔ p = "/" ∨ (p ≠ "" ∧ without "/" p = true).
Proof.
  split.
  - intros Hp. destruct (Base_without p) as [Hb|Hb];
      rewrite Hp in Hb; [by left|right]. split; [|done].
    intros ->. done.
  - intros [->|[Hne Hw]]; [done|]. unfold path.Base.
    rewrite bool_decide_false by done. cbv zeta.
    rewrite stripSlashes_without by (by rewrite without_rev).
    rewrite rev_involutive.
    rewrite LastIndex_absent by done. cbn.
    by rewrite bool_decide_false.
Qed.

Lemma Base_inWorkingDirectory value :
  bool_decide (path.Base value = value) = inWorkingDirectory value.
Proof.
  unfold inWorkingDirectory.
  destruct (bool_decide (value = "/")
            || negb (bool_decide (value = "")) && without "/" value) eqn:E.
  - apply bool_decide_eq_true, Base_fixed.
    apply orb_true_iff in E as [E|E]; [left; by case_bool_decide|right].
    apply andb_true_iff in E as [E1 E2]. split; [|done].
    apply negb_true_iff in E1. by case_bool_decide.
  - apply bool_decide_eq_false. rewrite Base_fixed.
    apply orb_false_iff in E as [E1 E2].
    intros [->|[Hne Hw]]; [by rewrite bool_decide_true in E1|].
    rewrite Hw, andb_true_r in E2. apply negb_false_iff in E2.
    by case_bool_decide.
Qed.

(** ** The two forms of a datasource flag *)

(** X20: [parseDatasourceArg] reads a flag in one of two forms.  A flag
    with an [=] is an alias, the text before the first [=], and a
    location, all the text after it, which [parseSourceURL] resolves.  A
    flag without [=] is a file name: its key is the name up to its first
    dot; it is resolved in the working directory if it is the root or a
    name, not empty, without a slash, and else is the error that asks for
    an alias. *)
Theorem parseDatasourceArg_forms `{!Env} (alias location value : string) :
  (without "=" alias = true →
   parseDatasourceArg (alias +:+ "=" +:+ location)
   = r ← parseSourceURL location; Returns (located alias r))
  ∧ (without "=" value = true →
     ∃ key, without "." key = true
       ∧ (value = key ∨ ∃ rest, value = key +:+ "." +:+ rest)
       ∧ parseDatasourceArg value
         = if inWorkingDirectory value
           then r ← absFileURL value; Returns (located key r)
           else Returns (key, blankDS, Some (ErrDatasource value))).
Proof.
  split.
  - intros Ha. unfold parseDatasourceArg. cbv zeta.
    change ("=" +:+ location) with (String "=" location).
    rewrite SplitN_2_app by done. cbn [length].
    rewrite (bool_decide_false (2%nat = 1%nat)) by done.
    rewrite (bool_decide_true (2%nat = 2%nat)) by done.
    cbn. by destruct (parseSourceURL location) as [[u|e]|].
  - intros Hv. unfold parseDatasourceArg. cbv zeta.
    rewrite (SplitN_2_absent value "=") by done. cbn [length].
    rewrite (bool_decide_true (1%nat = 1%nat)) by done.
    change ([value] !!! 0%nat) with value.
    rewrite Base_inWorkingDirectory.
    assert (∃ key, without "." key = true
              ∧ (value = key ∨ ∃ rest, value = key +:+ "." +:+ rest)
              ∧ strings.SplitN value "." 2 !!! 0%nat = key)
      as (key & Hk & Hparts & ->).
    { destruct (without "." value) eqn:Hd.
      - exists value. rewrite SplitN_2_absent by done. by auto.
      - destruct (Index_parts _ _ Hd) as (a & b & -> & Ha).
        exists a. rewrite SplitN_2_app by done. split_and!; [done| |done].
        right. by exists b. }
    exists key. split_and!; [done..|].
    destruct (inWorkingDirectory value); cbn [negb]; [|done].
    by destruct (absFileURL value) as [[u|e]|].
Qed.

(** The theorem at the flags [foo=bar/data.json] and [data.json] in
    [/home/user]. *)
Lemma parseDatasourceArg_forms_witness :
  @parseDatasourceArg (unix "/home/user") ("foo" +:+ "=" +:+ "bar/data.json")
  = (r ← @parseSourceURL (unix "/home/user") "bar/data.json";
     Returns (located "foo" r))
  ∧ ∃ key, without "." key = true
      ∧ ("data.json" = key ∨ ∃ rest, "data.json" = key +:+ "." +:+ rest)
      ∧ @parseDatasourceArg (unix "/home/user") "data.json"
        = if inWorkingDirectory "data.json"
          then r ← @absFileURL (unix "/home/user") "data.json";
               Returns (located key r)
          else Returns (key, blankDS, Some (ErrDatasource "data.json")).
Proof.
  destruct (@parseDatasourceArg_forms (unix "/home/user") "foo"
              "bar/data.json" "data.json") as [Halias Hfile].
  split; [by apply Halias|by apply Hfile].
Defined.

(** ** A panic *)

(** X21: in a working directory whose name, written with slashes, does not
    start with a slash, as with a drive letter, [absFileURL] panics on the
    root [/] and on a rooted path of one letter or digit: the path of the
    resolved URL is shorter than the three bytes that the index expression
    [resolved.Path[2]] reads. *)
Theorem absFileURL_short_rooted `{!Env} (wd value : string) :
  Getwd = Some wd → strings.HasPrefix (ToSlash wd) "/" = false →
  shortRooted value = true →
  absFileURL value = Panics.
Proof.
  intros Hwd Hpre Hv. unfold absFileURL. rewrite Hwd. cbv zeta.
  rewrite Hpre. cbn [negb].
  destruct value as [|s [|x [|y value]]]; try done.
  - by destruct s as [[] [] [] [] [] [] [] []].
  - destruct s as [[] [] [] [] [] [] [] []]; try done.
    by destruct x as [[] [] [] [] [] [] [] []].
  - by destruct s as [[] [] [] [] [] [] [] []].
Qed.

(** The theorem at the root in the working directory [C:\Users\me]. *)
Lemma absFileURL_short_rooted_witness :
  @absFileURL (windows "C:\Users\me") "/" = Panics.
Proof.
  apply (@absFileURL_short_rooted (windows "C:\Users\me") "C:\Users\me" "/");
    reflexivity.
Defined.

(** * Flags in full *)

(** ** The parts of a header flag *)

(** X22: [splitHeaderArg] reads a flag [alias=name:value].  The alias is
    the text before the first [=], the header name, made canonical, the
    text from there to the first [:], and the value all the text after it.
    A flag with an [=] and no [:] after it is the error about the header
    format, with the alias, and a flag without [=] the error about the
    option. *)
Theorem splitHeaderArg_parts `{!Env} (alias name value : string) :
  without "=" alias = true →
  (without ":" name = true →
   splitHeaderArg (alias +:+ "=" +:+ name +:+ ":" +:+ value)
   = (alias, CanonicalHeaderKey name, value, None))
  ∧ (without ":" value = true →
     splitHeaderArg (alias +:+ "=" +:+ value)
     = (alias, "", "", Some (ErrHeaderFormat value)))
  ∧ splitHeaderArg alias = ("", "", "", Some (ErrHeaderOption alias)).
Proof.
  intros Ha. unfold splitHeaderArg, splitHeader. cbv zeta. split_and!.
  - intros Hn. change ("=" +:+ ?x) with (String "=" x).
    change (":" +:+ value) with (String ":" value).
    rewrite (SplitN_2_app alias "=") by done. cbn -[strings.SplitN].
    by rewrite (SplitN_2_app name ":") by done.
  - intros Hv. change ("=" +:+ ?x) with (String "=" x).
    rewrite (SplitN_2_app alias "=") by done. cbn -[strings.SplitN].
    by rewrite SplitN_2_absent by done.
  - by rewrite SplitN_2_absent by done.
Qed.

(** The theorem at the flag [foo=X-Api-Key: abc123]. *)
Lemma splitHeaderArg_parts_witness :
  (without ":" "X-Api-Key" = true →
   @splitHeaderArg (unix "/home/user")
     ("foo" +:+ "=" +:+ "X-Api-Key" +:+ ":" +:+ " abc123")
   = ("foo", @CanonicalHeaderKey (unix "/home/user") "X-Api-Key", " abc123",
      None))
  ∧ (without ":" " abc123" = true →
     @splitHeaderArg (unix "/home/user") ("foo" +:+ "=" +:+ " abc123")
     = ("foo", "", "", Some (ErrHeaderFormat " abc123")))
  ∧ @splitHeaderArg (unix "/home/user") "foo"
    = ("", "", "", Some (ErrHeaderOption "foo")).
Proof.
  apply (@splitHeaderArg_parts (unix "/home/user") "foo" "X-Api-Key"
           " abc123").
  reflexivity.
Defined.

(** ** The parsed header flags *)

Section collected.
Context `{!Env}.

Lemma headerValues_cons arg args ds name :
  headerValues (arg :: args) ds name
  = (if bool_decide ((splitHeaderArg arg).1.1.1 = ds
                     ∧ (splitHeaderArg arg).1.1.2 = name)
     then [TrimSpace (splitHeaderArg arg).1.2] else [])
    ++ headerValues args ds name.
Proof.
  unfold headerValues. cbn [omap list_omap].
  destruct (splitHeaderArg arg) as [[[a n] v] e]. cbn [fst snd].
  by case_bool_decide.
Qed.

(** The loop of [parseHeaderArgs] over flags that are well formed: it adds
    their aliases to the map and their values, in order, after the values
    that the map has. *)
Lemma parseHeaderArgs_loop_collects args : ∀ g : gmap string Header,
  (∀ k, g !! k ≠ Some None) →
  Forall (λ arg, (splitHeaderArg arg).2 = None) args →
  ∃ g', parseHeaderArgs_loop (Some g) args = Returns (Some g', None)
    ∧ ∀ ds,
        (is_Some (g' !! ds) ↔ is_Some (g !! ds) ∨ ds ∈ headerAliases args)
        ∧ ∀ name, valuesOf g' ds name
                  = valuesOf g ds name ++ headerValues args ds name.
Proof.
  induction args as [|arg args IH]; intros g Hg Hargs.
  { exists g. split; [done|]. intros ds. split.
    - unfold headerAliases. rewrite fmap_nil, elem_of_nil. tauto.
    - intros name. by rewrite app_nil_r. }
  apply Forall_cons in Hargs as [Harg Hargs].
  cbn [parseHeaderArgs_loop].
  assert (∀ ds, ds ∈ headerAliases (arg :: args)
                ↔ ds = (splitHeaderArg arg).1.1.1 ∨ ds ∈ headerAliases args)
    as Hal.
  { intros ds. unfold headerAliases. rewrite fmap_cons. apply elem_of_cons. }
  setoid_rewrite Hal. setoid_rewrite headerValues_cons. clear Hal.
  destruct (splitHeaderArg arg) as [[[a n] v] e]. cbn [fst snd] in *.
  subst e. cbn [index].
  set (hm := default ∅ (default None (g !! a))).
  assert (∃ g1, (match g !! a with
                 | Some _ => Returns (Some g)
                 | None => store (Some g) a (Some ∅)
                 end = Returns (Some g1))
            ∧ g1 !! a = Some (Some hm)
            ∧ (∀ k, k ≠ a → g1 !! k = g !! k)) as (g1 & -> & Ha & Hother).
  { subst hm. destruct (g !! a) as [[m|]|] eqn:Ea.
    - by exists g.
    - by destruct (Hg a).
    - exists (<[a := Some ∅]> g). split_and!; [done| |].
      + by rewrite lookup_insert_eq.
      + intros k Hk. by rewrite lookup_insert_ne. }
  cbn. rewrite Ha. cbn.
  edestruct (IH (<[a := Some (<[n := default [] (hm !! n)
                                      ++ [TrimSpace v]]> hm)]> g1))
    as (g' & -> & Hg'); [|done|].
  { intros k. destruct (decide (k = a)) as [->|Hk].
    - by rewrite lookup_insert_eq.
    - rewrite lookup_insert_ne, Hother by done. apply Hg. }
  exists g'. split; [done|]. intros ds.
  destruct (Hg' ds) as [Hdom Hval]. split.
  - rewrite Hdom. destruct (decide (ds = a)) as [->|Hk].
    + rewrite lookup_insert_eq. naive_solver.
    + rewrite lookup_insert_ne, Hother by done. naive_solver.
  - intros name. rewrite Hval, app_assoc. f_equal. unfold valuesOf.
    destruct (decide (ds = a)) as [->|Hk].
    + rewrite lookup_insert_eq. cbn [from_option id index].
      destruct (decide (name = n)) as [->|Hn].
      * rewrite lookup_insert_eq, bool_decide_true by done.
        subst hm. by destruct (g !! a) as [[m|]|].
      * rewrite lookup_insert_ne, bool_decide_false, app_nil_r
          by naive_solver.
        subst hm. by destruct (g !! a) as [[m|]|].
    + rewrite lookup_insert_ne, Hother, bool_decide_false, app_nil_r
        by naive_solver. done.
Qed.

(** The loop up to a flag that is not well formed. *)
Lemma parseHeaderArgs_loop_error good :
  ∀ (g : gmap string Header) bad rest e,
  (∀ k, g !! k ≠ Some None) →
  Forall (λ arg, (splitHeaderArg arg).2 = None) good →
  (splitHeaderArg bad).2 = Some e →
  parseHeaderArgs_loop (Some g) (good ++ bad :: rest)
  = Returns (None, Some e).
Proof.
  induction good as [|arg good IH]; intros g bad rest e Hg Hgood Hbad.
  { cbn. destruct (splitHeaderArg bad) as [[[a n] v] e']. cbn in Hbad.
    by subst e'. }
  apply Forall_cons in Hgood as [Harg Hgood].
  rewrite <-app_comm_cons. cbn [parseHeaderArgs_loop].
  destruct (splitHeaderArg arg) as [[[a n] v] e']. cbn [fst snd] in *.
  subst e'. cbn [index].
  destruct (g !! a) as [[m|]|] eqn:Ea; [|by destruct (Hg a)|]; cbn;
    rewrite ?lookup_insert_eq, ?Ea; cbn; apply IH; try done; intros k;
    (destruct (decide (k = a)) as [->|Hk];
     [by rewrite lookup_insert_eq
     |rewrite !lookup_insert_ne by done; apply Hg]).
Qed.

End collected.

(** X23: [parseHeaderArgs] on flags that are well formed returns a map
    whose aliases are those of the flags, in which a header of an alias has
    the values, trimmed, that the flags give it, in the order of the flags.
    When a flag that is not well formed comes after them, it returns no map
    and the error of that flag, whatever follows. *)
Theorem parseHeaderArgs_collects `{!Env} (args : list string) :
  Forall (λ arg, (splitHeaderArg arg).2 = None) args →
  (∃ g, parseHeaderArgs args = Returns (Some g, None)
     ∧ ∀ ds,
         (is_Some (g !! ds) ↔ ds ∈ headerAliases args)
         ∧ ∀ name, valuesOf g ds name = headerValues args ds name)
  ∧ ∀ bad rest e,
      (splitHeaderArg bad).2 = Some e →
      parseHeaderArgs (args ++ bad :: rest) = Returns (None, Some e).
Proof.
  intros Hargs. split.
  - destruct (parseHeaderArgs_loop_collects args ∅) as (g & HR & Hg);
      [intros k; by rewrite lookup_empty|done|].
    exists g. split; [done|]. intros ds. destruct (Hg ds) as [Hdom Hval].
    split.
    + rewrite Hdom, lookup_empty. split; [|by right].
      by intros [[? [=]]|].
    + intros name. rewrite Hval. unfold valuesOf at 1.
      by rewrite lookup_empty.
  - intros bad rest e Hbad. by apply parseHeaderArgs_loop_error.
Qed.

(** The theorem at two flags for the header [Accept] of the alias [foo]. *)
Lemma parseHeaderArgs_collects_witness :
  (∃ g, @parseHeaderArgs (unix "/home/user")
          ["foo=Accept: text/plain"; "foo=accept:text/html"]
        = Returns (Some g, None)
     ∧ ∀ ds,
         (is_Some (g !! ds)
          ↔ ds ∈ @headerAliases (unix "/home/user")
                   ["foo=Accept: text/plain"; "foo=accept:text/html"])
         ∧ ∀ name,
             valuesOf g ds name
             = @headerValues (unix "/home/user")
                 ["foo=Accept: text/plain"; "foo=accept:text/html"]
                 ds name)
  ∧ ∀ bad rest e,
      (@splitHeaderArg (unix "/home/user") bad).2 = Some e →
      @parseHeaderArgs (unix "/home/user")
        (["foo=Accept: text/plain"; "foo=accept:text/html"] ++ bad :: rest)
      = Returns (None, Some e).
Proof.
  apply (@parseHeaderArgs_collects (unix "/home/user")
           ["foo=Accept: text/plain"; "foo=accept:text/html"]).
  repeat constructor.
Defined.

(** ** The headers that match no alias *)

Lemma attachHeaders_pending c (g : gmap string Header) :
  ∃ c' pending,
    attachHeaders c (Some g) = Returns c'
    ∧ (∀ j, pending !! j
            = if decide (is_Some (index (Context c) j)
                         ∨ is_Some (index (DataSources c) j))
              then None else g !! j)
    ∧ ExtraHeaders c' = if bool_decide (0 < size pending)%nat
                        then Some pending else ExtraHeaders c.
Proof.
  destruct (attachHeader_loop (map_to_list g) (NoDup_fst_map_to_list g)
              c (Some g)) as (c1 & h1 & E & C & D & H & F).
  destruct (attachHeader_nil _ _ _ _ _ E) as (_ & _ & N).
  destruct h1 as [pending|]; [|naive_solver].
  unfold attachHeaders. cbn [range]. rewrite E. cbn.
  eexists _, pending. split_and!; [done| |].
  - intros j. specialize (H j). cbn [index] in H. rewrite H.
    destruct (g !! j) as [v|] eqn:Ej.
    + assert (j ∈ (map_to_list g).*1) as Hin.
      { apply list_elem_of_fmap. exists (j, v).
        by rewrite elem_of_map_to_list. }
      repeat case_decide; naive_solver.
    + repeat case_decide; naive_solver.
  - case_bool_decide; [by destruct c1|].
    rewrite <-F. by destruct c1.
Qed.




(** X24: the extra headers after [ParseDataSourceFlags], when the flags
    parse.  If every parsed header alias names a context or a datasource,
    [ExtraHeaders] is left as it was.  If one names neither,
    [ExtraHeaders] is replaced by the parsed headers of the aliases that
    name neither, each with its header set: the extra headers there were
    are dropped. *)
Theorem ParseDataSourceFlags_ExtraHeaders `{!Env} (c : Config)
    (datasources contexts headers : list string) (c1 c2 : Config)
    (g : gmap string Header) :
  parseInto DataSources set_DataSources c datasources = Returns (c1, None) →
  parseInto Context set_Context c1 contexts = Returns (c2, None) →
  parseHeaderArgs headers = Returns (Some g, None) →
  ∃ c',
    ParseDataSourceFlags c datasources contexts headers = Returns (c', None)
    ∧ ((∀ k, is_Some (g !! k) →
             is_Some (index (Context c2) k)
             ∨ is_Some (index (DataSources c2) k)) →
       ExtraHeaders c' = ExtraHeaders c)
    ∧ ∀ k, is_Some (g !! k) →
           index (Context c2) k = None → index (DataSources c2) k = None →
           ∀ j, index (ExtraHeaders c') j
                = if decide (is_Some (index (Context c2) j)
                             ∨ is_Some (index (DataSources c2) j))
                  then None else g !! j.
Proof.
  intros E1 E2 E3.
  destruct (attachHeaders_pending c2 g) as (c' & pending & EA & HP & HX).
  exists c'. unfold ParseDataSourceFlags.
  rewrite E1. cbn -[parseInto parseHeaderArgs attachHeaders].
  rewrite E2. cbn -[parseHeaderArgs attachHeaders].
  rewrite E3. cbn -[attachHeaders]. rewrite EA. cbn.
  assert (ExtraHeaders c2 = ExtraHeaders c) as Hsame.
  { rewrite (parseInto_Context_ExtraHeaders _ _ _ _ E2).
    apply (parseInto_DataSources_ExtraHeaders _ _ _ _ E1). }
  split_and!; [done| |].
  - intros Hall. rewrite HX, <-Hsame, bool_decide_false; [done|].
    assert (pending = ∅) as ->; [|by rewrite map_size_empty; lia].
    apply map_eq. intros j. rewrite HP, lookup_empty.
    destruct (decide _) as [Hj|Hj]; [done|].
    destruct (g !! j) eqn:Ej; [|done]. destruct Hj. apply Hall.
    by rewrite Ej.
  - intros k [v Hk] Hc Hd j.
    rewrite HX, bool_decide_true; [apply HP|].
    assert (pending !! k = Some v) as Hpk.
    { rewrite HP, decide_False; [done|]. rewrite Hc, Hd.
      by intros [[? [=]]|[? [=]]]. }
    destruct (decide (size pending = 0%nat)) as [Hz|Hz]; [|lia].
    apply map_size_empty_iff in Hz. by rewrite Hz, lookup_empty in Hpk.
Qed.

(** The theorem at the flags [-d foo=bar/data.json], [-H "foo=X-Api-Key:
    abc123"] and [-H "bar=Accept: text/plain"] in [/home/user]. *)
Lemma ParseDataSourceFlags_ExtraHeaders_witness :
  ∃ c',
    @ParseDataSourceFlags (unix "/home/user") emptyConfig
      ["foo=bar/data.json"] []
      ["foo=X-Api-Key: abc123"; "bar=Accept: text/plain"]
    = Returns (c', None)
    ∧ ((∀ k, is_Some (twoHeaders !! k) →
             is_Some (index (Context fooData) k)
             ∨ is_Some (index (DataSources fooData) k)) →
       ExtraHeaders c' = ExtraHeaders emptyConfig)
    ∧ ∀ k, is_Some (twoHeaders !! k) →
           index (Context fooData) k = None →
           index (DataSources fooData) k = None →
           ∀ j, index (ExtraHeaders c') j
                = if decide (is_Some (index (Context fooData) j)
                             ∨ is_Some (index (DataSources fooData) j))
                  then None else twoHeaders !! j.
Proof.
  apply (@ParseDataSourceFlags_ExtraHeaders (unix "/home/user") emptyConfig
           ["foo=bar/data.json"] []
           ["foo=X-Api-Key: abc123"; "bar=Accept: text/plain"]
           fooData fooData twoHeaders); by vm_compute.
Defined.

(** ** No panic *)

Section returns.
Context `{!Env}.
Hypothesis rooted :
  ∀ wd, Getwd = Some wd → strings.HasPrefix (ToSlash wd) "/" = true.

Lemma absFileURL_returns value : ∃ r, absFileURL value = Returns r.
Proof.
  unfold absFileURL. destruct Getwd as [wd|] eqn:Ewd; [|by eexists].
  cbv zeta. destruct (url.Parse value); [|by eexists].
  rewrite (rooted wd) by done. by eexists.
Qed.

Lemma parseSourceURL_returns value : ∃ r, parseSourceURL value = Returns r.
Proof.
  unfold parseSourceURL. cbv zeta. destruct (url.Parse _); [|by eexists].
  destruct (negb (url.IsAbs _)); [apply absFileURL_returns|by eexists].
Qed.

Lemma parseDatasourceArg_returns value :
  ∃ r, parseDatasourceArg value = Returns r.
Proof.
  unfold parseDatasourceArg. cbv zeta.
  repeat case_bool_decide; try by eexists.
  - destruct (negb _); [by eexists|].
    destruct (absFileURL_returns (strings.SplitN value "=" 2 !!! 0%nat))
      as [[u|e] ->]; by eexists.
  - destruct (parseSourceURL_returns (strings.SplitN value "=" 2 !!! 1%nat))
      as [[u|e] ->]; by eexists.
Qed.

Lemma parseInto_returns get set args :
  (∀ m c, get (set m c) = m) →
  ∀ c, ∃ r, parseInto get set c args = Returns r.
Proof.
  intros Hgs. induction args as [|d args IH]; intros c; [by eexists|].
  cbn [parseInto].
  destruct (parseDatasourceArg_returns d) as [[[k ds] [e|]] ->]; cbn;
    [by eexists|].
  destruct (get c) as [m|] eqn:Eg.
  - rewrite Eg. cbn. apply IH.
  - rewrite Hgs. cbn. apply IH.
Qed.

Lemma ParseDataSourceFlags_total c datasources contexts headers :
  ∃ c' err,
    ParseDataSourceFlags c datasources contexts headers = Returns (c', err).
Proof.
  unfold ParseDataSourceFlags.
  destruct (parseInto_returns DataSources set_DataSources datasources
              ltac:(by intros ? []) c) as [[c1 [e|]] ->];
    cbn -[parseInto parseHeaderArgs attachHeaders];
    [by eexists _, _|].
  destruct (parseInto_returns Context set_Context contexts
              ltac:(by intros ? []) c1) as [[c2 [e|]] ->];
    cbn -[parseHeaderArgs attachHeaders];
    [by eexists _, _|].
  destruct (parseHeaderArgs_returns headers) as [[g ->]|[e ->]];
    cbn -[attachHeaders];
    [|by eexists _, _].
  destruct (attachHeaders_pending c2 g) as (c' & _ & EA & _).
  rewrite EA. cbn. by eexists _, _.
Qed.

End returns.

(** X25: where the name of the working directory, written with slashes,
    starts with a slash, [ParseDataSourceFlags] never panics: whatever the
    flags and the configuration, it returns, with an error or without. *)
Theorem ParseDataSourceFlags_returns `{!Env} (c : Config)
    (datasources contexts headers : list string) :
  (∀ wd, Getwd = Some wd → strings.HasPrefix (ToSlash wd) "/" = true) →
  ∃ c' err,
    ParseDataSourceFlags c datasources contexts headers = Returns (c', err).
Proof. intros Hwd. by apply ParseDataSourceFlags_total. Qed.

(** The theorem at the flags [-d /], [-c =] and [-H foo] in [/home/user]. *)
Lemma ParseDataSourceFlags_returns_witness :
  ∃ c' err,
    @ParseDataSourceFlags (unix "/home/user") emptyConfig ["/"] ["="]
      ["foo"]
    = Returns (c', err).
Proof.
  apply (@ParseDataSourceFlags_returns (unix "/home/user") emptyConfig
           ["/"] ["="] ["foo"]).
  intros wd [= <-]. reflexivity.
Defined.

(** ** The datasource flags that parse *)

Section stores.
Context `{!Env}.

(** The first two loops of [ParseDataSourceFlags] over flags that parse,
    and up to a flag that does not. *)
Lemma parseInto_stored get set :
  (∀ m c, get (set m c) = m) →
  (∀ m m' c, set m (set m' c) = set m c) →
  (∀ c, set (get c) c = c) →
  ∀ args kds,
  Forall2 (λ d kd, parseDatasourceArg d = Returns (kd.1, kd.2, None))
    args kds →
  (∀ c, parseInto get set c args
        = Returns (set (storedInto kds (get c)) c, None))
  ∧ ∀ c bad rest k ds e,
      parseDatasourceArg bad = Returns (k, ds, Some e) →
      parseInto get set c (args ++ bad :: rest)
      = Returns (set (storedInto kds (get c)) c, Some e).
Proof.
  intros Hgs Hss Hid args kds Hargs.
  induction Hargs as [|d [k ds] args kds Hd Hargs [IH1 IH2]].
  { split.
    - intros c. cbn. by rewrite Hid.
    - intros c bad rest k ds e Hbad. cbn. rewrite Hbad. cbn.
      by rewrite Hid. }
  cbn [fst snd] in Hd.
  assert (∀ c, ∃ c1, (match get c with
                       | None => set (Some ∅) c
                       | Some _ => c
                       end = c1)
            ∧ store (get c1) k ds
              = Returns (Some (<[k := ds]> (entries (get c))))
            ∧ ∀ m, set m c1 = set m c) as Hstep.
  { intros c. destruct (get c) as [m|] eqn:Eg.
    - exists c. by rewrite Eg.
    - exists (set (Some ∅) c). rewrite Hgs. split_and!; [done..|].
      intros m. apply Hss. }
  assert (∀ c c1 kds, (∀ m, set m c1 = set m c) →
            set (storedInto kds
                   (get (set (Some (<[k:=ds]> (entries (get c)))) c1)))
              (set (Some (<[k:=ds]> (entries (get c)))) c1)
            = set (storedInto ((k, ds) :: kds) (get c)) c) as Hres.
  { intros c c1 l Hc1. rewrite Hgs, Hss, Hc1. by destruct l. }
  split.
  - intros c. cbn [parseInto]. rewrite Hd. cbn -[parseInto].
    destruct (Hstep c) as (c1 & -> & -> & Hc1). cbn -[parseInto].
    by rewrite IH1, Hres.
  - intros c bad rest k' ds' e Hbad. rewrite <-app_comm_cons.
    cbn [parseInto]. rewrite Hd. cbn -[parseInto].
    destruct (Hstep c) as (c1 & -> & -> & Hc1). cbn -[parseInto].
    by rewrite (IH2 _ _ _ _ _ _ Hbad), Hres.
Qed.

End stores.

(** X26: [ParseDataSourceFlags] stores the datasource flags as it reads
    them.  When they parse, and so do the context flags, and there is no
    header flag, it returns the configuration with each descriptor stored
    under its alias, a later flag over an earlier one with the same alias,
    in maps that are made when they were nil and there is a flag, and with
    nothing else changed.  When a datasource flag after them does not
    parse, it returns that flag's error with the datasources before it
    stored, and reads no further flag. *)
Theorem ParseDataSourceFlags_stores `{!Env} (c : Config)
    (datasources : list string) (kds : list (string * DSConfig)) :
  Forall2 (λ d kd, parseDatasourceArg d = Returns (kd.1, kd.2, None))
    datasources kds →
  (∀ contexts kcs,
     Forall2 (λ d kd, parseDatasourceArg d = Returns (kd.1, kd.2, None))
       contexts kcs →
     ParseDataSourceFlags c datasources contexts []
     = Returns (set_Context (storedInto kcs (Context c))
                  (set_DataSources (storedInto kds (DataSources c)) c),
                None))
  ∧ ∀ bad rest contexts headers k ds e,
      parseDatasourceArg bad = Returns (k, ds, Some e) →
      ParseDataSourceFlags c (datasources ++ bad :: rest) contexts headers
      = Returns (set_DataSources (storedInto kds (DataSources c)) c,
                 Some e).
Proof.
  intros Hd.
  destruct (parseInto_stored DataSources set_DataSources) with
    (args := datasources) (kds := kds) as [HD HE];
    [by intros ? []|by intros ? ? []|by intros []|done|].
  split.
  - intros contexts kcs Hc. unfold ParseDataSourceFlags. rewrite HD.
    cbn -[parseInto parseHeaderArgs attachHeaders].
    destruct (parseInto_stored Context set_Context) with
      (args := contexts) (kds := kcs) as [-> _];
      [by intros ? []|by intros ? ? []|by intros []|done|].
    cbn. do 2 f_equal. by destruct c.
  - intros bad rest contexts headers k ds e Hbad.
    unfold ParseDataSourceFlags. by rewrite (HE _ _ _ _ _ _ Hbad).
Qed.

(** The theorem at the flag [-d foo=bar/data.json] in [/home/user]. *)
Lemma ParseDataSourceFlags_stores_witness :
  (∀ contexts kcs,
     Forall2 (λ d kd, @parseDatasourceArg (unix "/home/user") d
                      = Returns (kd.1, kd.2, None)) contexts kcs →
     @ParseDataSourceFlags (unix "/home/user") emptyConfig
       ["foo=bar/data.json"] contexts []
     = Returns
         (set_Context (storedInto kcs (Context emptyConfig))
            (set_DataSources
               (storedInto
                  [("foo",
                    mkDSConfig (Some (dataURL "/home/user/bar/data.json"))
                      None)]
                  (DataSources emptyConfig)) emptyConfig), None))
  ∧ ∀ bad rest contexts headers k ds e,
      @parseDatasourceArg (unix "/home/user") bad
      = Returns (k, ds, Some e) →
      @ParseDataSourceFlags (unix "/home/user") emptyConfig
        (["foo=bar/data.json"] ++ bad :: rest) contexts headers
      = Returns
          (set_DataSources
             (storedInto
                [("foo",
                  mkDSConfig (Some (dataURL "/home/user/bar/data.json"))
                    None)]
                (DataSources emptyConfig)) emptyConfig, Some e).
Proof.
  apply (@ParseDataSourceFlags_stores (unix "/home/user") emptyConfig
           ["foo=bar/data.json"]
           [("foo",
             mkDSConfig (Some (dataURL "/home/user/bar/data.json")) None)]).
  repeat constructor.
Defined.

(** ** The plugin flags *)

Lemma ParsePluginFlags_stored (pairs : list (string * string)) :
  Forall (λ np, without "=" np.1 = true) pairs →
  (∀ c, ParsePluginFlags c ((λ np, np.1 +:+ "=" +:+ np.2) <$> pairs)
        = Returns (set_Plugins (storedInto pairs (Plugins c)) c, None))
  ∧ ∀ c bad rest,
      without "=" bad = true →
      ParsePluginFlags c
        (((λ np, np.1 +:+ "=" +:+ np.2) <$> pairs) ++ bad :: rest)
      = Returns (set_Plugins (storedInto pairs (Plugins c)) c,
                 Some ErrPluginNameAndPath).
Proof.
  intros Hp. induction Hp as [|[n p] pairs Hn Hp [IH1 IH2]].
  { split.
    - intros c. cbn. by destruct c.
    - intros c bad rest Hbad. cbn [fmap list_fmap app ParsePluginFlags].
      cbv zeta. rewrite SplitN_2_absent by done. cbn. by destruct c. }
  cbn [fst] in Hn.
  assert (∀ c tail,
            ParsePluginFlags c ((n +:+ "=" +:+ p) :: tail)
            = ParsePluginFlags
                (set_Plugins (Some (<[n := p]> (entries (Plugins c)))) c)
                tail) as Hstep.
  { intros c tail. cbn [ParsePluginFlags]. cbv zeta.
    change ("=" +:+ p) with (String "=" p).
    rewrite SplitN_2_app by done. cbn -[ParsePluginFlags].
    destruct c as [i ifs id eg ofs od om se ep pe omo ld rd dss cx [pm|] pt
                   tp eh pei ow]; by cbn -[ParsePluginFlags]. }
  assert (∀ c l,
            set_Plugins
              (storedInto l
                 (Plugins (set_Plugins
                             (Some (<[n := p]> (entries (Plugins c)))) c)))
              (set_Plugins (Some (<[n := p]> (entries (Plugins c)))) c)
            = set_Plugins (storedInto ((n, p) :: l) (Plugins c)) c) as Hres.
  { intros c l. destruct c, l; done. }
  split.
  - intros c. rewrite fmap_cons. cbn [fst snd].
    by rewrite Hstep, IH1, Hres.
  - intros c bad rest Hbad. rewrite fmap_cons, <-app_comm_cons.
    cbn [fst snd]. by rewrite Hstep, IH2, Hres.
Qed.

(** X27: [ParsePluginFlags] reads flags [name=path], the name being the
    text before the first [=].  It stores each path under its name, a later
    flag over an earlier one with the same name, in a map that it makes
    when the plugins were nil and there is a flag; it leaves the rest of
    the configuration alone and never panics.  At a flag without [=] it
    returns the error, with the plugins of the flags before it stored. *)
Theorem ParsePluginFlags_stores (c : Config)
    (pairs : list (string * string)) :
  Forall (λ np, without "=" np.1 = true) pairs →
  ParsePluginFlags c ((λ np, np.1 +:+ "=" +:+ np.2) <$> pairs)
  = Returns (set_Plugins (storedInto pairs (Plugins c)) c, None)
  ∧ ∀ bad rest,
      without "=" bad = true →
      ParsePluginFlags c
        (((λ np, np.1 +:+ "=" +:+ np.2) <$> pairs) ++ bad :: rest)
      = Returns (set_Plugins (storedInto pairs (Plugins c)) c,
                 Some ErrPluginNameAndPath).
Proof.
  intros Hp. destruct (ParsePluginFlags_stored pairs Hp) as [H1 H2].
  split; [apply H1|]. intros bad rest. apply H2.
Qed.

(** The theorem at the flag [jq=/usr/bin/jq] and the empty
    configuration. *)
Lemma ParsePluginFlags_stores_witness :
  ParsePluginFlags emptyConfig
    ((λ np, np.1 +:+ "=" +:+ np.2) <$> [("jq", "/usr/bin/jq")])
  = Returns
      (set_Plugins (storedInto [("jq", "/usr/bin/jq")] (Plugins emptyConfig))
         emptyConfig, None)
  ∧ ∀ bad rest,
      without "=" bad = true →
      ParsePluginFlags emptyConfig
        (((λ np, np.1 +:+ "=" +:+ np.2) <$> [("jq", "/usr/bin/jq")])
         ++ bad :: rest)
      = Returns
          (set_Plugins
             (storedInto [("jq", "/usr/bin/jq")] (Plugins emptyConfig))
             emptyConfig, Some ErrPluginNameAndPath).
Proof.
  apply (ParsePluginFlags_stores emptyConfig [("jq", "/usr/bin/jq")]).
  repeat constructor.
Defined.

(** * Datasources in YAML *)

(** ** An escaped path read back *)

Lemma hex_escapedByte c :
  escapedByte (url.upperhex (N.shiftr (byte c) 4)) = true
  ∧ escapedByte (url.upperhex (N.land (byte c) 15)) = true.
Proof. destruct c as [[] [] [] [] [] [] [] []]; by vm_compute. Qed.

Lemma escape_escapedByte s :
  allBytes escapedByte (url.escape s url.encodePath) = true.
Proof.
  induction s as [|c s IH]; [done|]. cbn [url.escape].
  destruct (url.shouldEscape c url.encodePath) eqn:Hc.
  - destruct (hex_escapedByte c) as [Hhi Hlo]. cbn [allBytes].
    by rewrite Hhi, Hlo, IH.
  - cbn [allBytes]. rewrite IH. unfold escapedByte. by rewrite Hc.
Qed.

Lemma escapedByte_plainish c :
  escapedByte c = true →
  c ≠ "#"%char ∧ c ≠ "?"%char
  ∧ (byte c <? byte " ")%N || (byte c =? 127)%N = false.
Proof. destruct c as [[] [] [] [] [] [] [] []]; by vm_compute. Qed.

Lemma escape_without s sep :
  sep = "#"%char ∨ sep = "?"%char →
  without sep (url.escape s url.encodePath) = true.
Proof.
  intros Hsep. apply (allBytes_impl escapedByte); [|apply escape_escapedByte].
  intros c (H1 & H2 & _)%escapedByte_plainish.
  apply negb_true_iff, bool_decide_eq_false. naive_solver.
Qed.

Lemma escape_noCTL s :
  url.stringContainsCTLByte (url.escape s url.encodePath) = false.
Proof.
  pose proof (escape_escapedByte s) as Hs.
  induction (url.escape s url.encodePath) as [|c t IH]; [done|].
  apply allBytes_cons in Hs as [(_ & _ & Hc)%escapedByte_plainish Hs].
  cbn [url.stringContainsCTLByte]. by rewrite Hc, IH.
Qed.

Lemma escape_slash s :
  url.escape (String "/" s) url.encodePath
  = String "/" (url.escape s url.encodePath).
Proof. reflexivity. Qed.

Section file.
Context `{!Env}.
Hypothesis noAuthority : parseAuthority "" = Some (None, "").

Lemma Parse_file path :
  url.Parse ("file://" +:+ url.escape (String "/" path) url.encodePath)
  = Ok (dataURL (String "/" path)).
Proof.
  rewrite escape_slash.
  set (e := url.escape path url.encodePath).
  change ("file://" +:+ String "/" e)
    with (String "f" (String "i" (String "l" (String "e" (String ":"
            (String "/" (String "/" (String "/" e)))))))).
  assert (without "#" e = true) as Hhash by (apply escape_without; auto).
  assert (without "?" e = true) as Hq by (apply escape_without; auto).
  assert (url.stringContainsCTLByte e = false) as Hctl
    by apply escape_noCTL.
  unfold url.Parse. rewrite split_absent.
  2: { unfold without in *. cbn [allBytes]. by rewrite Hhash. }
  unfold url.parse.
  change (url.stringContainsCTLByte (String "f" _))
    with (url.stringContainsCTLByte e).
  rewrite Hctl.
  rewrite (bool_decide_false (_ = "")), (bool_decide_false (_ = "*"))
    by done.
  cbn [andb].
  change (url.getscheme (String "f" _))
    with (@Ok url.Error _ ("file", String "/" (String "/" (String "/" e)))).
  cbv iota beta.
  assert (without "?" (String "/" (String "/" (String "/" e))) = true)
    as Hq3 by (unfold without in *; cbn [allBytes]; by rewrite Hq).
  rewrite (Count_absent _ _ Hq3), (bool_decide_false (0%nat = 1%nat)),
    andb_false_r, (split_absent _ _ _ Hq3) by done.
  change (strings.HasPrefix (String "/" (String "/" (String "/" e))) "/")
    with true.
  change (strings.HasPrefix (String "/" (String "/" (String "/" e))) "//")
    with true.
  change (strings.ToLower "file") with "file".
  cbn [negb andb orb url.set_RawQuery url.set_Scheme url.emptyURL Scheme
       Opaque User Host Path RawPath ForceQuery RawQuery Fragment].
  rewrite (bool_decide_false ("file" = "")) by done. cbn [negb andb orb].
  change (url.split (sliceFrom (String "/" (String "/" (String "/" e))) 2)
            "/" false) with ("", String "/" e).
  cbv iota beta. rewrite noAuthority.
  unfold url.setPath. subst e. rewrite <-escape_slash, unescape_escape.
  cbn [url.set_Host url.set_User url.set_Path Scheme Opaque User Host Path
       RawPath ForceQuery RawQuery Fragment].
  rewrite (bool_decide_true (url.escape _ _ = url.escape _ _)) by done.
  by rewrite bool_decide_true.
Qed.

(** The same file written [file:/path], without the [//]. *)
Lemma Parse_file_omit path :
  strings.HasPrefix path "/" = false →
  url.Parse ("file:" +:+ url.escape (String "/" path) url.encodePath)
  = Ok (dataURL (String "/" path)).
Proof.
  intros Hpath. rewrite escape_slash.
  set (e := url.escape path url.encodePath).
  assert (strings.HasPrefix e "/" = false) as Hrooted
    by (by apply escape_relative).
  change ("file:" +:+ String "/" e)
    with (String "f" (String "i" (String "l" (String "e" (String ":"
            (String "/" e)))))).
  assert (without "#" e = true) as Hhash by (apply escape_without; auto).
  assert (without "?" e = true) as Hq by (apply escape_without; auto).
  assert (url.stringContainsCTLByte e = false) as Hctl
    by apply escape_noCTL.
  unfold url.Parse. rewrite split_absent.
  2: { unfold without in *. cbn [allBytes]. by rewrite Hhash. }
  unfold url.parse.
  change (url.stringContainsCTLByte (String "f" _))
    with (url.stringContainsCTLByte e).
  rewrite Hctl.
  rewrite (bool_decide_false (_ = "")), (bool_decide_false (_ = "*"))
    by done.
  cbn [andb].
  change (url.getscheme (String "f" _))
    with (@Ok url.Error _ ("file", String "/" e)).
  cbv iota beta.
  assert (without "?" (String "/" e) = true)
    as Hq1 by (unfold without in *; cbn [allBytes]; by rewrite Hq).
  rewrite (Count_absent _ _ Hq1), (bool_decide_false (0%nat = 1%nat)),
    andb_false_r, (split_absent _ _ _ Hq1) by done.
  change (strings.HasPrefix (String "/" e) "/") with true.
  change (strings.HasPrefix (String "/" e) "//")
    with (bool_decide ("/"%char = "/"%char) && strings.HasPrefix e "/").
  rewrite Hrooted, andb_false_r.
  change (strings.ToLower "file") with "file".
  cbn [negb andb orb url.set_RawQuery url.set_Scheme url.emptyURL Scheme
       Opaque User Host Path RawPath ForceQuery RawQuery Fragment].
  rewrite (bool_decide_false ("file" = "")) by done. cbn [negb andb orb].
  rewrite andb_false_r.
  unfold url.setPath. subst e. rewrite <-escape_slash, unescape_escape.
  cbn [url.set_Host url.set_User url.set_Path Scheme Opaque User Host Path
       RawPath ForceQuery RawQuery Fragment].
  rewrite (bool_decide_true (url.escape _ _ = url.escape _ _)) by done.
  by rewrite bool_decide_true.
Qed.

End file.

Lemma EscapedPath_file path :
  url.EscapedPath (dataURL (String "/" path))
  = String "/" (url.escape path url.encodePath).
Proof.
  unfold url.EscapedPath, dataURL. cbn [RawPath Path].
  rewrite (bool_decide_true ("" = "")), (bool_decide_false (_ = "*"))
    by done.
  done.
Qed.

Lemma URL_String_file escapeHost Userinfo_String (OmitHost : bool) path :
  URL_String escapeHost Userinfo_String OmitHost
    (dataURL (String "/" path))
  = (if OmitHost then "file:" else "file://")
    +:+ url.escape (String "/" path) url.encodePath.
Proof.
  unfold URL_String. rewrite EscapedPath_file, escape_slash.
  unfold dataURL.
  cbn [Scheme Opaque User Host Path RawPath ForceQuery RawQuery Fragment].
  rewrite (bool_decide_false ("file" = "")), !(bool_decide_true ("" = "")),
    (bool_decide_false (String "/" path = "")) by done.
  cbn [negb andb orb]. rewrite andb_true_r.
  rewrite (bool_decide_false (String "/" _ = "")) by done.
  by destruct OmitHost.
Qed.

(** X28: a datasource of a rooted file written to YAML and read back.
    [MarshalYAML] on the descriptor of the file [/path] hands the encoder
    the escaped path, with the header, after [file://], or after [file:]
    when the URL has [OmitHost]; and [UnmarshalYAML] on a node that decodes
    to that text and header sets the receiver to the same descriptor,
    whatever it held, where the text has no volume name and no separator to
    rewrite.  With [OmitHost] the path is taken not to start with two
    slashes, as it does not when [url.Parse] has set the field. *)
Theorem YAML_round_trip `{!Env} (escapeHost : string → string)
    (Userinfo_String : Userinfo → string) {Node DecodeError : Type}
    (Decode : Node → result DecodeError raw) (OmitHost : bool)
    (path : string) (h : Header) (d0 : DSConfig) (value : Node) :
  let d := mkDSConfig (Some (dataURL (String "/" path))) h in
  let r := mkRaw ((if OmitHost then "file:" else "file://")
                  +:+ url.escape (String "/" path) url.encodePath) h in
  (OmitHost = true → strings.HasPrefix path "/" = false) →
  parseAuthority "" = Some (None, "") →
  ToSlash (raw_URL r) = raw_URL r → VolumeName (raw_URL r) = "" →
  Decode value = Ok r →
  MarshalYAML escapeHost Userinfo_String OmitHost d = Returns (r, None)
  ∧ UnmarshalYAML Decode d0 value = Returns (d, None).
Proof.
  intros d r Hpath Hauth Hslash Hvol Hdec. split.
  - unfold MarshalYAML, d. cbn [URL_ Header_].
    by rewrite URL_String_file.
  - unfold UnmarshalYAML. rewrite Hdec. unfold parseSourceURL.
    rewrite (bool_decide_false (raw_URL r = "-"))
      by (subst r; by destruct OmitHost).
    cbv zeta. rewrite Hslash, Hvol.
    rewrite (bool_decide_true ("" = "")) by done.
    cbn [negb andb]. subst r. cbn [raw_URL raw_Header].
    destruct OmitHost.
    + rewrite (Parse_file_omit _ (Hpath eq_refl)). by cbn.
    + rewrite (Parse_file Hauth). by cbn.
Qed.

(** The theorem at the file [/home/user/my data.json] with the header of
    the API key, written without the [//], for a decoder that hands over
    the struct it is given. *)
Lemma YAML_round_trip_witness :
  MarshalYAML id (λ _, "") true
    (mkDSConfig (Some (dataURL "/home/user/my data.json")) apiKey)
  = Returns (mkRaw "file:/home/user/my%20data.json" apiKey, None)
  ∧ @UnmarshalYAML (unix "/home/user") raw unit Ok blankDS
      (mkRaw "file:/home/user/my%20data.json" apiKey)
    = Returns (mkDSConfig (Some (dataURL "/home/user/my data.json")) apiKey,
               None).
Proof.
  apply (@YAML_round_trip (unix "/home/user") id (λ _, "") raw unit Ok true
           "home/user/my data.json" apiKey blankDS
           (mkRaw "file:/home/user/my%20data.json" apiKey));
    reflexivity.
Defined.
